(** * The default path manager of the Spring engine

    A shallow embedding of [rts/Sim/Path/Default/PathManager.cpp]
    ([CPathManager]): the handle registry, the tiered request routing, the
    cross-tier refinement, next-waypoint delivery, heat deposit and the
    extra-cost overlay.

    The path manager is an orchestrator: the searches themselves
    ([CPathFinder], [CPathEstimator]), the goal definitions, the vector type
    and the entity interface live in other translation units.  They are
    interfaces here (type classes); every call the manager makes to them is
    recorded, in order, in a trace, and their answers may depend on the whole
    history of calls.

    The module [SyncChecker] embeds the engine's running checksum over the
    assignments to synced variables ([CSyncChecker]). *)

From Stdlib Require Import ZArith List Bool Lia SpecFloat.
From Stdlib Require Strings.Byte.
From stdpp Require Import base option list gmap.

Local Open Scope Z_scope.

(** ** Machine numbers *)

(** [unsigned int] is 32 bits wide; arithmetic on it wraps. *)
Definition UINT_MOD : Z := 2 ^ 32.
Definition wrap_uint (n : Z) : Z := n mod UINT_MOD.

(** [float] is IEEE-754 binary32 (the engine computes with streflop's
    [Simple]): 24 bits of precision, round to nearest even. *)
Definition float : Type := spec_float.

Module Float.
Definition prec : Z := 24.
Definition emax : Z := 128.

Definition add (a b : float) : float := SFadd prec emax a b.
Definition sub (a b : float) : float := SFsub prec emax a b.
Definition mul (a b : float) : float := SFmul prec emax a b.
Definition div (a b : float) : float := SFdiv prec emax a b.
Definition fabs (a : float) : float := SFabs a.

Definition ltb (a b : float) : bool := SFltb a b.
Definition leb (a b : float) : bool := SFleb a b.
Definition gtb (a b : float) : bool :=
  match SFcompare a b with Some Gt => true | _ => false end.

(** Conversion of an integer to [float]. *)
Definition of_Z (n : Z) : float := binary_normalize prec emax n 0 false.

Definition zero : float := S754_zero false.
Definition one : float := of_Z 1.
Definition minus_one : float := of_Z (-1).

(** The integral part of a finite float, rounded toward zero. *)
Definition trunc (f : float) : option Z :=
  match f with
  | S754_zero _ => Some 0
  | S754_finite s m e =>
      let a := if 0 <=? e then Z.shiftl (Z.pos m) e
               else Z.shiftr (Z.pos m) (- e) in
      Some (if s then - a else a)
  | S754_infinity _ | S754_nan => None
  end.

(** Conversion of a [float] to [int]: the fractional part is discarded.
    When the value does not fit (or is not a number) the conversion
    instruction of the x86 targets of the engine yields the "integer
    indefinite" value, [-2^31]. *)
Definition to_int (f : float) : Z :=
  match trunc f with
  | Some n => if (- 2 ^ 31 <=? n) && (n <? 2 ^ 31) then n else - 2 ^ 31
  | None => - 2 ^ 31
  end.
End Float.

(** ** Vectors used as stacks

    The waypoint sequences are [std::vector]s that the manager only ever
    reads and shrinks at the back.  A vector is a list whose head is the
    vector's [back()]: [push_back] is cons, [pop_back] drops the head,
    reverse iteration ([rbegin] to [rend]) follows the list, forward
    iteration follows its reversal. *)
Module Vec.
Section Ops.
Context {A : Type}.
Definition empty (v : list A) : bool :=
  match v with [] => true | _ :: _ => false end.
Definition size (v : list A) : Z := Z.of_nat (length v).
Definition push_back (a : A) (v : list A) : list A := a :: v.
Definition pop_back (v : list A) : list A := tail v.
Definition back (v : list A) : option A := head v.
Definition rbegin_to_rend (v : list A) : list A := v.
Definition begin_to_end (v : list A) : list A := rev v.
End Ops.
End Vec.

(** ** Data model *)

Record float3 := Float3 { f3x : float; f3y : float; f3z : float }.
Record int2 := Int2 { i2x : Z; i2y : Z }.

Module IPath.
Inductive SearchResult := Ok | GoalOutOfRange | CantGetCloser | Error.

Definition eqb (a b : SearchResult) : bool :=
  match a, b with
  | Ok, Ok | GoalOutOfRange, GoalOutOfRange
  | CantGetCloser, CantGetCloser | Error, Error => true
  | _, _ => false
  end.

(** Modelled from the spec: [IPath::Path] is declared in [IPath.h]; one
    tier holds an ordered waypoint sequence, the parallel sequence of
    grid-cell coordinates and the tier's path goal. *)
Record Path := mkPath {
  path : list float3;
  squares : list int2;
  pathGoal : float3
}.

Definition set_path (v : list float3) (p : Path) : Path :=
  mkPath v (squares p) (pathGoal p).
Definition set_squares (v : list int2) (p : Path) : Path :=
  mkPath (path p) v (pathGoal p).
Definition set_pathGoal (g : float3) (p : Path) : Path :=
  mkPath (path p) (squares p) g.
End IPath.

#[global] Instance SearchResult_eq_dec : EqDecision IPath.SearchResult.
Proof. solve_decision. Defined.

Lemma SearchResult_eqb_eq (a b : IPath.SearchResult) :
  IPath.eqb a b = true <-> a = b.
Proof. destruct a, b; simpl; split; congruence. Qed.

Lemma SearchResult_eqb_refl (a : IPath.SearchResult) : IPath.eqb a a = true.
Proof. now destruct a. Qed.

(** The fields of a movement class the manager reads.  [heatProduced] is the
    value as it enters the floating-point product of [UpdatePath]. *)
Record MoveDef := mkMoveDef {
  pathType : Z;
  heatMapping : bool;
  heatProduced : float
}.

Record CSolidObject := mkSolidObject {
  objectId : Z;
  ownerMoveDef : MoveDef
}.

#[global] Instance spec_float_eq_dec : EqDecision spec_float.
Proof. solve_decision. Defined.
#[global] Instance float3_eq_dec : EqDecision float3.
Proof. solve_decision. Defined.
#[global] Instance MoveDef_eq_dec : EqDecision MoveDef.
Proof. solve_decision. Defined.
#[global] Instance CSolidObject_eq_dec : EqDecision CSolidObject.
Proof. solve_decision. Defined.

(** ** The interfaces the manager is written against *)

(** Constants of [PathConstants.h] and of the global state: the thresholds
    enter floating-point comparisons, the node budgets and the map size are
    unsigned integers. *)
Class PathConstants := {
  SQUARE_SIZE : float;
  DETAILED_DISTANCE : float;
  ESTIMATE_DISTANCE : float;
  MIN_DETAILED_DISTANCE : float;
  MIN_ESTIMATE_DISTANCE : float;
  MAX_SEARCHED_NODES_PF : Z;
  MAX_SEARCHED_NODES_PE : Z;
  MAX_SEARCHED_NODES_ON_REFINE : Z;
  mapx : Z;
  mapy : Z
}.

(** Operations of [float3] and of [myMath.h]. *)
Class Float3Ops := {
  ZeroVector : float3;
  float3_eq : float3 -> float3 -> bool;          (* operator== *)
  float3_ne : float3 -> float3 -> bool;          (* operator!= *)
  float3_minus : float3 -> float3 -> float3;     (* operator- *)
  SqDistance2D : float3 -> float3 -> float;
  SqLength2D : float3 -> float;
  ClampInBounds : float3 -> float3;
  Square : float -> float
}.

(** Goal definitions ([CPathFinderDef] and its subclass
    [CRangedGoalWithCircularConstraint]). *)
Class GoalDefOps (Def : Type) := {
  CRangedGoalWithCircularConstraint :
    float3 -> float3 -> float -> float -> Z -> Def;
  Heuristic : Def -> float -> float -> float;
  sqGoalRadius : Def -> float;
  DisableConstraint : bool -> Def -> Def
}.

Inductive Estimator := medResPE | lowResPE.
Inductive Buffer := maxResBuf | medResBuf | lowResBuf.

#[global] Instance Buffer_eq_dec : EqDecision Buffer.
Proof. solve_decision. Defined.

(** A call of the manager into one of its collaborators. *)
Inductive Event (Def : Type) :=
| CallUnBlock (obj : CSolidObject)
| CallBlock (obj : CSolidObject)
| CallPFGetPath (moveDef : MoveDef) (startPos : float3) (pfDef : Def)
    (path : IPath.Path) (flag1 flag2 : bool) (maxNodes : Z) (flag3 : bool)
    (owner : option CSolidObject) (synced : bool)
| CallPEGetPath (pe : Estimator) (moveDef : MoveDef) (startPos : float3)
    (peDef : Def) (path : IPath.Path) (maxNodes : Z) (synced : bool)
| CallUpdateHeatValue (x y value : Z) (owner : CSolidObject)
| CallSetNodeExtraCost (buf : Buffer) (x z : Z) (cost : float) (synced : bool).

Arguments CallUnBlock {Def}.
Arguments CallBlock {Def}.
Arguments CallPFGetPath {Def}.
Arguments CallPEGetPath {Def}.
Arguments CallUpdateHeatValue {Def}.
Arguments CallSetNodeExtraCost {Def}.

(** The search engines, the node-state buffers and the movement-class table.
    A search receives the path it is to fill and answers with an outcome and
    the path as it leaves it; the first argument is the history of calls made
    so far, so that an answer may depend on who is blocked, on earlier
    searches and on the overlays. *)
Class Engines (Def : Type) := {
  PF_GetPath : list (Event Def) -> MoveDef -> float3 -> Def -> IPath.Path ->
               bool -> bool -> Z -> bool -> option CSolidObject -> bool ->
               IPath.SearchResult * IPath.Path;
  PE_GetPath : list (Event Def) -> Estimator -> MoveDef -> float3 -> Def ->
               IPath.Path -> Z -> bool -> IPath.SearchResult * IPath.Path;
  Buffer_GetNodeExtraCost : list (Event Def) -> Buffer -> Z -> Z -> bool -> float;
  moveDefs : Z -> MoveDef;
  newPathGoal : float3
}.

(** ** A state monad for the member functions *)

Definition ret {S A : Type} (a : A) : S -> A * S := fun st => (a, st).
Definition bind {S A B : Type} (m : S -> A * S) (k : A -> S -> B * S)
  : S -> B * S :=
  fun st => let (a, st') := m st in k a st'.

Declare Scope pm_scope.
Delimit Scope pm_scope with pm.
Notation "x <- c1 ;; c2" := (bind c1 (fun x => c2))
  (at level 20, c1 at level 99, c2 at level 200, only parsing) : pm_scope.
Notation "c1 ;; c2" := (bind c1 (fun _ => c2))
  (at level 100, c2 at level 200, only parsing, right associativity) : pm_scope.

Section PathManager.

Context {Def : Type}.
Context {consts : PathConstants} {vecOps : Float3Ops}.
Context {defOps : GoalDefOps Def} {engines : Engines Def}.

Local Open Scope pm_scope.

(** Modelled from the spec: [MultiPath] is declared in [PathManager.h]; the
    hierarchical path record holds the start and final goal positions, the
    movement class, the goal definition, the requesting entity (may be none),
    one path per tier and the last search outcome. *)
Record MultiPath := mkMultiPath {
  start : float3;
  finalGoal : float3;
  caller : option CSolidObject;
  peDef : Def;
  moveDef : MoveDef;
  searchResult : IPath.SearchResult;
  maxResPath : IPath.Path;
  medResPath : IPath.Path;
  lowResPath : IPath.Path
}.

Definition set_finalGoal (g : float3) (m : MultiPath) : MultiPath :=
  mkMultiPath (start m) g (caller m) (peDef m) (moveDef m) (searchResult m)
    (maxResPath m) (medResPath m) (lowResPath m).
Definition set_caller (c : option CSolidObject) (m : MultiPath) : MultiPath :=
  mkMultiPath (start m) (finalGoal m) c (peDef m) (moveDef m) (searchResult m)
    (maxResPath m) (medResPath m) (lowResPath m).
Definition set_peDef (d : Def) (m : MultiPath) : MultiPath :=
  mkMultiPath (start m) (finalGoal m) (caller m) d (moveDef m) (searchResult m)
    (maxResPath m) (medResPath m) (lowResPath m).
Definition set_searchResult (r : IPath.SearchResult) (m : MultiPath) : MultiPath :=
  mkMultiPath (start m) (finalGoal m) (caller m) (peDef m) (moveDef m) r
    (maxResPath m) (medResPath m) (lowResPath m).
Definition set_maxResPath (p : IPath.Path) (m : MultiPath) : MultiPath :=
  mkMultiPath (start m) (finalGoal m) (caller m) (peDef m) (moveDef m)
    (searchResult m) p (medResPath m) (lowResPath m).
Definition set_medResPath (p : IPath.Path) (m : MultiPath) : MultiPath :=
  mkMultiPath (start m) (finalGoal m) (caller m) (peDef m) (moveDef m)
    (searchResult m) (maxResPath m) p (lowResPath m).
Definition set_lowResPath (p : IPath.Path) (m : MultiPath) : MultiPath :=
  mkMultiPath (start m) (finalGoal m) (caller m) (peDef m) (moveDef m)
    (searchResult m) (maxResPath m) (medResPath m) p.

(** Modelled from the spec: the constructors of [IPath::Path] and
    [MultiPath] are declared in the headers; a new record has three empty
    tiers.  Its outcome is assigned before the record is stored. *)
Definition new_Path : IPath.Path := IPath.mkPath [] [] newPathGoal.
Definition new_MultiPath (startPos : float3) (pfDef : Def) (md : MoveDef) : MultiPath :=
  mkMultiPath startPos ZeroVector None pfDef md IPath.Error
    new_Path new_Path new_Path.

(** The state: the manager's two members, and the calls made so far. *)
Record State := mkState {
  nextPathID : Z;
  pathMap : gmap Z MultiPath;
  trace : list (Event Def)
}.

Definition set_pathMap (m : gmap Z MultiPath) (st : State) : State :=
  mkState (nextPathID st) m (trace st).

(** The calls [evs] are made, in this order. *)
Definition add_trace (evs : list (Event Def)) (st : State) : State :=
  mkState (nextPathID st) (pathMap st) (trace st ++ evs).

(** [CPathManager::CPathManager(): nextPathID(0)] *)
Definition CPathManager_new : State := mkState 0 ∅ [].

(** The member functions run in the state monad on [State]. *)
Definition M (A : Type) : Type := State -> A * State.

Definition emit (e : Event Def) : M unit :=
  fun st => (tt, add_trace [e] st).

(** [if (obj) obj->UnBlock();] and [if (obj) obj->Block();] *)
Definition UnBlock (obj : option CSolidObject) : M unit :=
  match obj with Some o => emit (CallUnBlock o) | None => ret tt end.
Definition Block (obj : option CSolidObject) : M unit :=
  match obj with Some o => emit (CallBlock o) | None => ret tt end.

(** [maxResPF->GetPath(md, startPos, def, multiPath.maxResPath, true, false,
    MAX_SEARCHED_NODES_PF >> 3, true, owner, synced)]: every search of the
    fine engine has these arguments. *)
Definition maxResPF_GetPath (md : MoveDef) (startPos : float3) (def : Def)
    (owner : option CSolidObject) (synced : bool) (mp : MultiPath)
  : M (IPath.SearchResult * MultiPath) :=
  fun st =>
    let maxNodes := Z.shiftr MAX_SEARCHED_NODES_PF 3 in
    let '(result, p) := PF_GetPath (trace st) md startPos def (maxResPath mp)
                          true false maxNodes true owner synced in
    let e := CallPFGetPath md startPos def (maxResPath mp)
               true false maxNodes true owner synced in
    ((result, set_maxResPath p mp),
     add_trace [e] st).

(** [medResPE->GetPath(md, startPos, def, multiPath.medResPath, maxNodes, synced)] *)
Definition medResPE_GetPath (md : MoveDef) (startPos : float3) (def : Def)
    (maxNodes : Z) (synced : bool) (mp : MultiPath)
  : M (IPath.SearchResult * MultiPath) :=
  fun st =>
    let '(result, p) := PE_GetPath (trace st) medResPE md startPos def
                          (medResPath mp) maxNodes synced in
    let e := CallPEGetPath medResPE md startPos def (medResPath mp) maxNodes synced in
    ((result, set_medResPath p mp),
     add_trace [e] st).

(** [lowResPE->GetPath(md, startPos, def, multiPath.lowResPath, maxNodes, synced)] *)
Definition lowResPE_GetPath (md : MoveDef) (startPos : float3) (def : Def)
    (maxNodes : Z) (synced : bool) (mp : MultiPath)
  : M (IPath.SearchResult * MultiPath) :=
  fun st =>
    let '(result, p) := PE_GetPath (trace st) lowResPE md startPos def
                          (lowResPath mp) maxNodes synced in
    let e := CallPEGetPath lowResPE md startPos def (lowResPath mp) maxNodes synced in
    ((result, set_lowResPath p mp),
     add_trace [e] st).

(** ** The registry *)

(** [pathMap[++nextPathID] = path; return nextPathID;] *)
Definition Store (p : MultiPath) : M Z :=
  fun st =>
    let id := wrap_uint (nextPathID st + 1) in
    (id, mkState id (<[id := p]> (pathMap st)) (trace st)).

(** Modelled from the spec: [GetMultiPath] is declared in [PathManager.h];
    it finds the record of a handle in the registry, and an unknown handle
    has none. *)
Definition GetMultiPath (pathID : Z) (st : State) : option MultiPath :=
  pathMap st !! pathID.

Definition DeletePath (pathID : Z) : M unit :=
  fun st =>
    if pathID =? 0 then (tt, st)
    else match pathMap st !! pathID with
         | None => (tt, st)
         | Some _ => (tt, set_pathMap (delete pathID (pathMap st)) st)
         end.

(** ** Cross-tier refinement *)

(** [while (!path.empty() && path.back().SqDistance2D(startPos) < limit)
      path.pop_back();] *)
Fixpoint pop_while_near (limit : float) (startPos : float3) (v : list float3)
  : list float3 :=
  match v with
  | [] => []
  | b :: v' =>
      if Float.ltb (SqDistance2D b startPos) limit
      then pop_while_near limit startPos v'
      else v
  end.

(** [result == IPath::CantGetCloser || result == IPath::Error] *)
Definition no_refined_path (result : IPath.SearchResult) : bool :=
  IPath.eqb result IPath.CantGetCloser || IPath.eqb result IPath.Error.

(** The goal of the detailed search: the nearest remaining waypoint of the
    coarser tier or, when none remains, that tier's path goal. *)
Definition refine_goal (coarser : IPath.Path) : float3 :=
  match Vec.back (IPath.path coarser) with
  | None => IPath.pathGoal coarser
  | Some b => b
  end.

(** Converts part of a med-res path into a high-res path. *)
Definition MedRes2MaxRes (multiPath : MultiPath) (startPos : float3)
    (owner : option CSolidObject) (synced : bool) : M MultiPath :=
  if Vec.empty (IPath.path (medResPath multiPath)) then ret multiPath
  else
    let limit := Square (Float.mul DETAILED_DISTANCE SQUARE_SIZE) in
    let medPts := pop_while_near limit startPos
                    (Vec.pop_back (IPath.path (medResPath multiPath))) in
    let multiPath := set_medResPath
                       (IPath.set_path medPts (medResPath multiPath)) multiPath in
    let goalPos := refine_goal (medResPath multiPath) in
    let rangedGoalPFD :=
      CRangedGoalWithCircularConstraint startPos goalPos Float.zero (Float.of_Z 2) 1000 in
    rm <- (if Vec.empty (IPath.path (medResPath multiPath))
              && Vec.empty (IPath.path (lowResPath multiPath))
           then maxResPF_GetPath (moveDef multiPath) startPos (peDef multiPath)
                  owner synced multiPath
           else maxResPF_GetPath (moveDef multiPath) startPos rangedGoalPFD
                  owner synced multiPath) ;;
    let '(result, multiPath) := rm in
    if no_refined_path result
    then ret (set_maxResPath
                (IPath.set_pathGoal goalPos (maxResPath multiPath)) multiPath)
    else ret multiPath.

(** Converts part of a low-res path into a med-res path. *)
Definition LowRes2MedRes (multiPath : MultiPath) (startPos : float3)
    (owner : option CSolidObject) (synced : bool) : M MultiPath :=
  if Vec.empty (IPath.path (lowResPath multiPath)) then ret multiPath
  else
    let limit := Square (Float.mul ESTIMATE_DISTANCE SQUARE_SIZE) in
    let lowPts := pop_while_near limit startPos
                    (Vec.pop_back (IPath.path (lowResPath multiPath))) in
    let multiPath := set_lowResPath
                       (IPath.set_path lowPts (lowResPath multiPath)) multiPath in
    let goalPos := refine_goal (lowResPath multiPath) in
    let rangedGoal :=
      CRangedGoalWithCircularConstraint startPos goalPos Float.zero (Float.of_Z 2) 20 in
    rm <- (if Vec.empty (IPath.path (lowResPath multiPath))
           then medResPE_GetPath (moveDef multiPath) startPos (peDef multiPath)
                  MAX_SEARCHED_NODES_ON_REFINE synced multiPath
           else medResPE_GetPath (moveDef multiPath) startPos rangedGoal
                  MAX_SEARCHED_NODES_ON_REFINE synced multiPath) ;;
    let '(result, multiPath) := rm in
    if no_refined_path result
    then ret (set_medResPath
                (IPath.set_pathGoal goalPos (medResPath multiPath)) multiPath)
    else ret multiPath.

(** ** Requests *)

(** [pfDef->Heuristic(startPos.x / SQUARE_SIZE, startPos.z / SQUARE_SIZE)
     + math::fabs(goalPos.y - startPos.y) / SQUARE_SIZE] *)
Definition goalDist2D (pfDef : Def) (startPos goalPos : float3) : float :=
  Float.add
    (Heuristic pfDef (Float.div (f3x startPos) SQUARE_SIZE)
                     (Float.div (f3z startPos) SQUARE_SIZE))
    (Float.div (Float.fabs (Float.sub (f3y goalPos) (f3y startPos))) SQUARE_SIZE).

(** [(startPos - goalPos).SqLength2D() > pfDef->sqGoalRadius] *)
Definition beyond_goalRadius (pfDef : Def) (startPos goalPos : float3) : bool :=
  Float.gtb (SqLength2D (float3_minus startPos goalPos)) (sqGoalRadius pfDef).

(** [if (result != IPath::Ok) result = search;] *)
Definition unless_Ok (result : IPath.SearchResult) (newPath : MultiPath)
    (search : MultiPath -> M (IPath.SearchResult * MultiPath))
  : M (IPath.SearchResult * MultiPath) :=
  if negb (IPath.eqb result IPath.Ok) then search newPath
  else ret (result, newPath).

(** [pfDef->DisableConstraint(true)]: [pfDef] and the record's [peDef] are
    one object. *)
Definition disable_constraint (newPath : MultiPath) : MultiPath :=
  set_peDef (DisableConstraint true (peDef newPath)) newPath.

(** [goalDist2D < DETAILED_DISTANCE]; the short-band fallback leaves the
    constraint in place ([PM_UNCONSTRAINED_MAXRES_FALLBACK_SEARCH] is 0). *)
Definition RequestPath_short (md : MoveDef) (startPos : float3)
    (caller : option CSolidObject) (synced : bool) (newPath : MultiPath)
  : M (IPath.SearchResult * MultiPath) :=
  r <- maxResPF_GetPath md startPos (peDef newPath) caller synced newPath ;;
  let '(result, newPath) := r in
  r <- unless_Ok result newPath
         (medResPE_GetPath md startPos (peDef newPath)
            (Z.shiftr MAX_SEARCHED_NODES_PE 3) synced) ;;
  let '(result, newPath) := r in
  unless_Ok result newPath
    (lowResPE_GetPath md startPos (peDef newPath)
       (Z.shiftr MAX_SEARCHED_NODES_PE 3) synced).

(** [goalDist2D < ESTIMATE_DISTANCE] *)
Definition RequestPath_medium (md : MoveDef) (startPos goalPos : float3)
    (caller : option CSolidObject) (synced : bool) (newPath : MultiPath)
  : M (IPath.SearchResult * MultiPath) :=
  r <- medResPE_GetPath md startPos (peDef newPath)
         (Z.shiftr MAX_SEARCHED_NODES_PE 3) synced newPath ;;
  let '(result, newPath) := r in
  r <- (if IPath.eqb result IPath.CantGetCloser
           && beyond_goalRadius (peDef newPath) startPos goalPos
        then maxResPF_GetPath md startPos (peDef newPath) caller synced newPath
        else ret (result, newPath)) ;;
  let '(result, newPath) := r in
  let newPath := disable_constraint newPath in
  unless_Ok result newPath
    (medResPE_GetPath md startPos (peDef newPath)
       (Z.shiftr MAX_SEARCHED_NODES_PE 3) synced).

(** otherwise *)
Definition RequestPath_long (md : MoveDef) (startPos goalPos : float3)
    (caller : option CSolidObject) (synced : bool) (newPath : MultiPath)
  : M (IPath.SearchResult * MultiPath) :=
  r <- lowResPE_GetPath md startPos (peDef newPath)
         (Z.shiftr MAX_SEARCHED_NODES_PE 3) synced newPath ;;
  let '(result, newPath) := r in
  r <- (if IPath.eqb result IPath.CantGetCloser
           && beyond_goalRadius (peDef newPath) startPos goalPos
        then
          r <- medResPE_GetPath md startPos (peDef newPath)
                 (Z.shiftr MAX_SEARCHED_NODES_PE 3) synced newPath ;;
          let '(result, newPath) := r in
          if IPath.eqb result IPath.CantGetCloser
          then maxResPF_GetPath md startPos (peDef newPath) caller synced newPath
          else ret (result, newPath)
        else ret (result, newPath)) ;;
  let '(result, newPath) := r in
  let newPath := disable_constraint newPath in
  unless_Ok result newPath
    (lowResPE_GetPath md startPos (peDef newPath)
       (Z.shiftr MAX_SEARCHED_NODES_PE 3) synced).

(** Lines 99-156: choose the PF or the PE depending on the projected 2D
    goal-distance. *)
Definition RequestPath_search (md : MoveDef) (startPos goalPos : float3)
    (caller : option CSolidObject) (synced : bool) (newPath : MultiPath)
  : M (IPath.SearchResult * MultiPath) :=
  let dist := goalDist2D (peDef newPath) startPos goalPos in
  if Float.ltb dist DETAILED_DISTANCE then
    RequestPath_short md startPos caller synced newPath
  else if Float.ltb dist ESTIMATE_DISTANCE then
    RequestPath_medium md startPos goalPos caller synced newPath
  else
    RequestPath_long md startPos goalPos caller synced newPath.

(** Lines 170-173: add one dummy waypoint so that the calling MoveType does
    not consider this request a failure. *)
Definition add_dummy_waypoint (startPos : float3) (newPath : MultiPath) : MultiPath :=
  let p := maxResPath newPath in
  if Vec.empty (IPath.path p) then
    let sq := Int2 (Float.to_int (Float.div (f3x startPos) SQUARE_SIZE))
                   (Float.to_int (Float.div (f3z startPos) SQUARE_SIZE)) in
    set_maxResPath
      (IPath.mkPath (Vec.push_back startPos (IPath.path p))
                    (Vec.push_back sq (IPath.squares p))
                    (IPath.pathGoal p))
      newPath
  else newPath.

(** Lines 158-180. *)
Definition RequestPath_finish (result : IPath.SearchResult) (startPos : float3)
    (caller : option CSolidObject) (synced : bool) (newPath : MultiPath) : M Z :=
  if negb (IPath.eqb result IPath.Error) then
    newPath <- (if negb (IPath.eqb result IPath.CantGetCloser) then
                  newPath <- LowRes2MedRes newPath startPos caller synced ;;
                  MedRes2MaxRes newPath startPos caller synced
                else ret (add_dummy_waypoint startPos newPath)) ;;
    Store (set_searchResult result newPath)
  else ret 0.

(** Request a new multipath, store the result and return a handle-id to it. *)
Definition RequestPath_pfDef (md : MoveDef) (startPos goalPos : float3)
    (pfDef : Def) (caller : option CSolidObject) (synced : bool) : M Z :=
  let moveDef := moveDefs (pathType md) in
  let newPath :=
    set_caller caller (set_finalGoal goalPos (new_MultiPath startPos pfDef moveDef)) in
  UnBlock caller ;;
  r <- RequestPath_search moveDef startPos goalPos caller synced newPath ;;
  let '(result, newPath) := r in
  pathID <- RequestPath_finish result startPos caller synced newPath ;;
  Block caller ;;
  ret pathID.

(** Help-function.  Turns a start->goal-request into a well-defined request. *)
Definition RequestPath (md : MoveDef) (startPos goalPos : float3)
    (goalRadius : float) (caller : option CSolidObject) (synced : bool) : M Z :=
  let sp := ClampInBounds startPos in
  let gp := ClampInBounds goalPos in
  let pfDef := CRangedGoalWithCircularConstraint sp gp goalRadius (Float.of_Z 3) 2000 in
  RequestPath_pfDef md sp gp pfDef caller synced.

(** ** Next-waypoint delivery *)

(** [float3(-1.0f, 0.0f, -1.0f)] *)
Definition noPathPoint : float3 :=
  Float3 Float.minus_one Float.zero Float.minus_one.

(** Lines 320-323: a zero caller position stands for the fine tier's tail. *)
Definition effective_callerPos (multiPath : MultiPath) (callerPos : float3) : float3 :=
  if float3_eq callerPos ZeroVector then
    match Vec.back (IPath.path (maxResPath multiPath)) with
    | Some b => b
    | None => callerPos
    end
  else callerPos.

(** [!coarser.empty() && (coarser.back().SqDistance2D(callerPos) < limit
      || finer.size() <= 2)] *)
Definition needs_bettering (coarser finer : list float3) (callerPos : float3)
    (limit : float) : bool :=
  match coarser with
  | [] => false
  | b :: _ => Float.ltb (SqDistance2D b callerPos) limit || (Vec.size finer <=? 2)
  end.

(** Lines 325-346: check if the detailed path needs bettering. *)
Definition NextWayPoint_refine (multiPath : MultiPath) (callerPos : float3)
    (owner : option CSolidObject) (synced : bool) : M MultiPath :=
  if needs_bettering (IPath.path (medResPath multiPath))
       (IPath.path (maxResPath multiPath)) callerPos
       (Square (Float.mul MIN_DETAILED_DISTANCE SQUARE_SIZE))
  then
    multiPath <-
      (if needs_bettering (IPath.path (lowResPath multiPath))
            (IPath.path (medResPath multiPath)) callerPos
            (Square (Float.mul MIN_ESTIMATE_DISTANCE SQUARE_SIZE))
       then LowRes2MedRes multiPath callerPos owner synced
       else ret multiPath) ;;
    UnBlock (caller multiPath) ;;
    multiPath <- MedRes2MaxRes multiPath callerPos owner synced ;;
    Block (caller multiPath) ;;
    ret multiPath
  else ret multiPath.

(** How the [do ... while] loop of lines 350-373 is left: with a waypoint, or
    through the recursive call. *)
Inductive LoopExit := Waypoint (w : float3) | Retry.

(** The loop pops waypoints off the fine tier; it yields how it is left and
    what remains of the tier. *)
Fixpoint NextWayPoint_loop (multiPath : MultiPath) (callerPos : float3)
    (minDistance : float) (maxPts : list float3) : LoopExit * list float3 :=
  match maxPts with
  | [] =>
      if Vec.empty (IPath.path (lowResPath multiPath))
         && Vec.empty (IPath.path (medResPath multiPath))
      then
        if IPath.eqb (searchResult multiPath) IPath.Ok
        then (Waypoint (finalGoal multiPath), [])
        else (Waypoint noPathPoint, [])
      else (Retry, [])
  | waypoint :: rest =>
      if Float.ltb (SqDistance2D callerPos waypoint) (Square minDistance)
         && float3_ne waypoint (IPath.pathGoal (maxResPath multiPath))
      then NextWayPoint_loop multiPath callerPos minDistance rest
      else (Waypoint waypoint, rest)
  end.

(** The record lives in the registry and is changed in place. *)
Definition write_back (pathID : Z) (multiPath : MultiPath) : M unit :=
  fun st => (tt, set_pathMap (<[pathID := multiPath]> (pathMap st)) st).

(** [waypoint.y = 0.0f] *)
Definition ground (waypoint : float3) : float3 :=
  Float3 (f3x waypoint) Float.zero (f3z waypoint).

(** The body of [NextWayPoint]; [retry callerPos] is the recursive call
    [NextWayPoint(pathID, callerPos, minDistance, numRetries + 1, owner, synced)]. *)
Definition NextWayPoint_body (retry : float3 -> M float3)
    (pathID : Z) (callerPos : float3) (minDistance : float) (numRetries : Z)
    (owner : option CSolidObject) (synced : bool) : M float3 :=
  fun st =>
    if pathID =? 0 then (noPathPoint, st)
    else if numRetries >? 4 then (noPathPoint, st)
    else
      match GetMultiPath pathID st with
      | None => (noPathPoint, st)
      | Some multiPath =>
          (let callerPos := effective_callerPos multiPath callerPos in
           multiPath <- NextWayPoint_refine multiPath callerPos owner synced ;;
           let '(exit, rest) :=
             NextWayPoint_loop multiPath callerPos minDistance
               (IPath.path (maxResPath multiPath)) in
           write_back pathID
             (set_maxResPath (IPath.set_path rest (maxResPath multiPath)) multiPath) ;;
           waypoint <- match exit with
                       | Waypoint w => ret w
                       | Retry => retry callerPos
                       end ;;
           ret (ground waypoint)) st
      end.

(** The recursion is on the retries left: a call with [numRetries > 4]
    returns at once, so [4 - numRetries] nested calls can do more than
    that. *)
Fixpoint NextWayPoint_rec (retries : nat) (pathID : Z) (callerPos : float3)
    (minDistance : float) (numRetries : Z) (owner : option CSolidObject)
    (synced : bool) {struct retries} : M float3 :=
  NextWayPoint_body
    (fun callerPos' =>
       match retries with
       | O => ret noPathPoint
       | S retries' =>
           NextWayPoint_rec retries' pathID callerPos' minDistance
             (numRetries + 1) owner synced
       end)
    pathID callerPos minDistance numRetries owner synced.

(** Removes and returns the next waypoint in the multipath corresponding to
    the given id. *)
Definition NextWayPoint (pathID : Z) (callerPos : float3) (minDistance : float)
    (numRetries : Z) (owner : option CSolidObject) (synced : bool) : M float3 :=
  NextWayPoint_rec (Z.to_nat (4 - numRetries))
    pathID callerPos minDistance numRetries owner synced.

(** ** Heat deposit *)

Definition SetHeatOnSquare (x y value : Z) (owner : CSolidObject) : M unit :=
  emit (CallUpdateHeatValue x y value owner).

Definition GetDetailedPathSquares (pathID : Z) (st : State) : list int2 :=
  match GetMultiPath pathID st with
  | None => []
  | Some multiPath =>
      fold_left (fun points sq => Vec.push_back sq points)
        (Vec.rbegin_to_rend (IPath.squares (maxResPath multiPath))) []
  end.

(** The loop of lines 435-437 over the squares still to visit; [i] is the
    [unsigned int] counter. *)
Fixpoint UpdatePath_loop (owner : CSolidObject) (scale : float) (i : Z)
    (its : list int2) : M unit :=
  match its with
  | [] => ret tt
  | it :: its' =>
      SetHeatOnSquare (i2x it) (i2y it)
        (Float.to_int
           (Float.mul (Float.mul (Float.of_Z i) scale)
              (heatProduced (ownerMoveDef owner))))
        owner ;;
      UpdatePath_loop owner scale (wrap_uint (i - 1)) its'
  end.

(** Used to deposit heat on the heat-map as a unit moves along its path. *)
Definition UpdatePath (owner : CSolidObject) (pathID : Z) : M unit :=
  fun st =>
    if pathID =? 0 then (tt, st)
    else if negb (heatMapping (ownerMoveDef owner)) then (tt, st)
    else
      let points := GetDetailedPathSquares pathID st in
      if negb (Vec.empty points) then
        let scale := Float.div Float.one (Float.of_Z (Vec.size points)) in
        let i := wrap_uint (Vec.size points) in
        UpdatePath_loop owner scale i (Vec.begin_to_end points) st
      else (tt, st).

(** ** Extra-cost overlay *)

Definition SetNodeExtraCost (x z : Z) (cost : float) (synced : bool) : M bool :=
  if x >=? mapx then ret false
  else if z >=? mapy then ret false
  else
    emit (CallSetNodeExtraCost maxResBuf x z cost synced) ;;
    emit (CallSetNodeExtraCost medResBuf x z cost synced) ;;
    emit (CallSetNodeExtraCost lowResBuf x z cost synced) ;;
    ret true.

Definition GetNodeExtraCost (x z : Z) (synced : bool) (st : State) : float :=
  if x >=? mapx then Float.zero
  else if z >=? mapy then Float.zero
  else Buffer_GetNodeExtraCost (trace st) maxResBuf x z synced.

(** ** Vocabulary of the properties *)

(** The registry of a manager that has issued fewer than [2^32] handles: the
    counter is the last handle issued and every stored handle lies in
    [1 .. nextPathID]. *)
Definition registry_ok (st : State) : Prop :=
  0 <= nextPathID st < UINT_MOD /\
  forall id mp, pathMap st !! id = Some mp -> 0 < id <= nextPathID st.

(** The outcome and the record of a request after its searches (lines
    85-156), before the record is completed and stored. *)
Definition RequestPath_searched (md : MoveDef) (startPos goalPos : float3)
    (pfDef : Def) (caller : option CSolidObject) (synced : bool) (st : State)
  : IPath.SearchResult * MultiPath :=
  let moveDef := moveDefs (pathType md) in
  let newPath :=
    set_caller caller (set_finalGoal goalPos (new_MultiPath startPos pfDef moveDef)) in
  fst (RequestPath_search moveDef startPos goalPos caller synced newPath
         (snd (UnBlock caller st))).

Definition RequestPath_outcome (md : MoveDef) (startPos goalPos : float3)
    (pfDef : Def) (caller : option CSolidObject) (synced : bool) (st : State)
  : IPath.SearchResult :=
  fst (RequestPath_searched md startPos goalPos pfDef caller synced st).

Definition is_search (e : Event Def) : bool :=
  match e with
  | CallPFGetPath _ _ _ _ _ _ _ _ _ _ | CallPEGetPath _ _ _ _ _ _ _ => true
  | _ => false
  end.

Definition is_fine_search (e : Event Def) : bool :=
  match e with
  | CallPFGetPath _ _ _ _ _ _ _ _ _ _ => true
  | _ => false
  end.

(** Reads a trace with the entity [c] blocked or unblocked: [UnBlock] and
    [Block] of [c] must alternate, no other entity is touched, and a guarded
    call is only allowed while [c] is unblocked.  Yields the state of [c] at
    the end, or nothing when the discipline is broken. *)
Fixpoint bracket_run (guarded : Event Def -> bool) (c : CSolidObject)
    (unblocked : bool) (evs : list (Event Def)) : option bool :=
  match evs with
  | [] => Some unblocked
  | CallUnBlock o :: evs' =>
      if bool_decide (o = c) && negb unblocked
      then bracket_run guarded c true evs' else None
  | CallBlock o :: evs' =>
      if bool_decide (o = c) && unblocked
      then bracket_run guarded c false evs' else None
  | e :: evs' =>
      if guarded e && negb unblocked then None
      else bracket_run guarded c unblocked evs'
  end.

(** Every guarded call of [evs] lies between an [UnBlock] of [c] and the
    matching [Block], and [c] is blocked again at the end. *)
Definition bracketed (guarded : Event Def -> bool) (c : CSolidObject)
    (evs : list (Event Def)) : bool :=
  match bracket_run guarded c false evs with
  | Some false => true
  | _ => false
  end.

(** The heat handed to the heat map by the calls of a trace. *)
Definition heat_value (e : Event Def) : Z :=
  match e with
  | CallUpdateHeatValue _ _ value _ => value
  | _ => 0
  end.

Definition heat_total (evs : list (Event Def)) : Z :=
  foldr (fun e acc => heat_value e + acc) 0 evs.

(** The deposit on the [k]-th of [n] squares, counted from the start of the
    path: [(n - k) * (1.0f / n) * heatProduced], converted to [int]. *)
Definition heat_at (owner : CSolidObject) (n : Z) (k : Z) : Z :=
  Float.to_int
    (Float.mul
       (Float.mul (Float.of_Z (n - k)) (Float.div Float.one (Float.of_Z n)))
       (heatProduced (ownerMoveDef owner))).

Definition heat_events (owner : CSolidObject) (sqs : list int2) : list (Event Def) :=
  imap (fun k sq =>
          CallUpdateHeatValue (i2x sq) (i2y sq)
            (heat_at owner (Z.of_nat (length sqs)) (Z.of_nat k)) owner)
       sqs.

(** The squares of the fine tier of a stored record, from the path's start. *)
Definition fine_squares (pathID : Z) (st : State) : list int2 :=
  match GetMultiPath pathID st with
  | None => []
  | Some multiPath => IPath.squares (maxResPath multiPath)
  end.

(** Calls of the manager's interface, to speak of sequences of them. *)
Inductive Op :=
| DoRequestPath (md : MoveDef) (startPos goalPos : float3) (goalRadius : float)
    (caller : option CSolidObject) (synced : bool)
| DoRequestPath_pfDef (md : MoveDef) (startPos goalPos : float3) (pfDef : Def)
    (caller : option CSolidObject) (synced : bool)
| DoNextWayPoint (pathID : Z) (callerPos : float3) (minDistance : float)
    (numRetries : Z) (owner : option CSolidObject) (synced : bool)
| DoDeletePath (pathID : Z)
| DoUpdatePath (owner : CSolidObject) (pathID : Z)
| DoSetNodeExtraCost (x z : Z) (cost : float) (synced : bool).

(** Runs one call; yields the handle a request returns. *)
Definition do_op (op : Op) : M (list Z) :=
  match op with
  | DoRequestPath md startPos goalPos goalRadius caller synced =>
      h <- RequestPath md startPos goalPos goalRadius caller synced ;; ret [h]
  | DoRequestPath_pfDef md startPos goalPos pfDef caller synced =>
      h <- RequestPath_pfDef md startPos goalPos pfDef caller synced ;; ret [h]
  | DoNextWayPoint pathID callerPos minDistance numRetries owner synced =>
      NextWayPoint pathID callerPos minDistance numRetries owner synced ;; ret []
  | DoDeletePath pathID => DeletePath pathID ;; ret []
  | DoUpdatePath owner pathID => UpdatePath owner pathID ;; ret []
  | DoSetNodeExtraCost x z cost synced =>
      SetNodeExtraCost x z cost synced ;; ret []
  end.

(** Runs a sequence of calls; yields the handles returned, in order. *)
Fixpoint do_ops (ops : list Op) : M (list Z) :=
  match ops with
  | [] => ret []
  | op :: ops' =>
      hs <- do_op op ;;
      hs' <- do_ops ops' ;;
      ret (hs ++ hs')
  end.

(** The handles that stand for a path: [0] means "no path". *)
Definition issued (hs : list Z) : list Z := filter (fun h => h ≠ 0) hs.

(** [emits Q m]: running [m] changes the state only by appending calls to
    the trace, and each of them satisfies [Q]. *)
Definition emits {A : Type} (Q : Event Def -> Prop) (m : M A) : Prop :=
  forall st, exists evs, snd (m st) = add_trace evs st /\ Forall Q evs.

Definition estimator_search (e : Event Def) : Prop :=
  is_search e = true /\ is_fine_search e = false.
Definition fine_search (e : Event Def) : Prop :=
  is_search e = true /\ is_fine_search e = true.
Definition any_search (e : Event Def) : Prop := is_search e = true.

(** The calls of [UnBlock] and [Block] on an entity that may be absent. *)
Definition unblock_calls (c : option CSolidObject) : list (Event Def) :=
  match c with Some o => [CallUnBlock o] | None => [] end.
Definition block_calls (c : option CSolidObject) : list (Event Def) :=
  match c with Some o => [CallBlock o] | None => [] end.

(** The record a successful request stores: the searched record completed by
    the refinements or by the dummy waypoint, with its outcome. *)
Definition completed (result : IPath.SearchResult) (startPos : float3)
    (caller : option CSolidObject) (synced : bool) (newPath : MultiPath)
    (st : State) : MultiPath :=
  set_searchResult result
    (if negb (IPath.eqb result IPath.CantGetCloser) then
       fst (bind (LowRes2MedRes newPath startPos caller synced)
              (fun newPath => MedRes2MaxRes newPath startPos caller synced) st)
     else add_dummy_waypoint startPos newPath).

(** [st'] holds the same handles as [st], and the same counter. *)
Definition same_handles (st st' : State) : Prop :=
  nextPathID st' = nextPathID st /\
  forall id, pathMap st' !! id = None <-> pathMap st !! id = None.

(** [NextWayPoint] decides to refine. *)
Definition refines (mp : MultiPath) (callerPos : float3) : bool :=
  needs_bettering (IPath.path (medResPath mp)) (IPath.path (maxResPath mp))
    callerPos (Square (Float.mul MIN_DETAILED_DISTANCE SQUARE_SIZE)).

(** ** Export of the waypoints *)

(** [starts.push_back(points.size())]: a [size_t] stored in a
    [std::vector<int>]. *)
Definition int_of_size (n : Z) : Z := (n + 2 ^ 31) mod 2 ^ 32 - 2 ^ 31.

(** The elements of [v], from [rbegin] to [rend], are pushed onto [points]. *)
Definition push_back_reversed {A : Type} (v points : list A) : list A :=
  fold_left (fun points a => Vec.push_back a points) (Vec.rbegin_to_rend v) points.

(** Get the waypoints in world-coordinates. *)
Definition GetDetailedPath (pathID : Z) (st : State) : list float3 :=
  match GetMultiPath pathID st with
  | None => []
  | Some multiPath => push_back_reversed (IPath.path (maxResPath multiPath)) []
  end.

(** Yields the vectors [points] and [starts]. *)
Definition GetPathWayPoints (pathID : Z) (st : State) : list float3 * list Z :=
  match GetMultiPath pathID st with
  | None => ([], [])
  | Some multiPath =>
      let maxResPoints := IPath.path (maxResPath multiPath) in
      let medResPoints := IPath.path (medResPath multiPath) in
      let lowResPoints := IPath.path (lowResPath multiPath) in
      let points : list float3 := [] in
      let starts := Vec.push_back (int_of_size (Vec.size points)) [] in
      let points := push_back_reversed maxResPoints points in
      let starts := Vec.push_back (int_of_size (Vec.size points)) starts in
      let points := push_back_reversed medResPoints points in
      let starts := Vec.push_back (int_of_size (Vec.size points)) starts in
      let points := push_back_reversed lowResPoints points in
      (points, starts)
  end.

(** ** More vocabulary *)

(** The searches among the calls of a trace. *)
Definition search_count (evs : list (Event Def)) : nat :=
  length (List.filter is_search evs).

(** [calls_between lo hi Q m]: running [m] changes the state only by
    appending between [lo] and [hi] calls, each satisfying [Q]. *)
Definition calls_between {A : Type} (lo hi : nat) (Q : Event Def -> Prop)
    (m : M A) : Prop :=
  forall st, exists evs,
    snd (m st) = add_trace evs st /\ Forall Q evs /\ (lo <= length evs <= hi)%nat.

(** What a record is a record of: everything but its three tiers. *)
Definition same_request (mp mp' : MultiPath) : Prop :=
  start mp' = start mp /\ finalGoal mp' = finalGoal mp /\ caller mp' = caller mp
  /\ peDef mp' = peDef mp /\ moveDef mp' = moveDef mp
  /\ searchResult mp' = searchResult mp.

(** The same, up to the goal definition, which a request may relax. *)
Definition same_request_but_peDef (mp mp' : MultiPath) : Prop :=
  start mp' = start mp /\ finalGoal mp' = finalGoal mp /\ caller mp' = caller mp
  /\ moveDef mp' = moveDef mp /\ searchResult mp' = searchResult mp.

(** No stored record has the outcome [Error]. *)
Definition no_error_records (st : State) : Prop :=
  forall id mp, pathMap st !! id = Some mp -> searchResult mp <> IPath.Error.

(** A waypoint is within the squared distance [limit] of [pos]. *)
Definition near (limit : float) (pos : float3) (b : float3) : bool :=
  Float.ltb (SqDistance2D b pos) limit.

(** [st'] differs from [st] at most in the trace and in the tiers of the
    record of [pathID]. *)
Definition touches_only (pathID : Z) (st st' : State) : Prop :=
  nextPathID st' = nextPathID st
  /\ (forall id, id <> pathID -> GetMultiPath id st' = GetMultiPath id st)
  /\ match GetMultiPath pathID st with
     | None => GetMultiPath pathID st' = None
     | Some mp =>
         exists mp', GetMultiPath pathID st' = Some mp' /\ same_request mp mp'
     end.
End PathManager.

(** * A concrete world

    One instance of the interfaces, to run the manager on: a 512 x 512 map
    of squares of size 8, exact component-wise vector operations, and search
    engines that follow a script. *)
Module Demo.

Definition fl (n : Z) : float := Float.of_Z n.

Definition consts : PathConstants := {|
  SQUARE_SIZE := fl 8;
  DETAILED_DISTANCE := fl 25;
  ESTIMATE_DISTANCE := fl 55;
  MIN_DETAILED_DISTANCE := fl 12;
  MIN_ESTIMATE_DISTANCE := fl 40;
  MAX_SEARCHED_NODES_PF := 65536;
  MAX_SEARCHED_NODES_PE := 65536;
  MAX_SEARCHED_NODES_ON_REFINE := 2000;
  mapx := 512;
  mapy := 512
|}.

Definition vec (x y z : Z) : float3 := Float3 (fl x) (fl y) (fl z).

Definition clamp (lo hi a : float) : float :=
  if Float.ltb a lo then lo else if Float.ltb hi a then hi else a.

Definition sq (a : float) : float := Float.mul a a.

Definition vecOps : Float3Ops := {|
  ZeroVector := vec 0 0 0;
  float3_eq a b :=
    SFeqb (f3x a) (f3x b) && SFeqb (f3y a) (f3y b) && SFeqb (f3z a) (f3z b);
  float3_ne a b :=
    negb (SFeqb (f3x a) (f3x b) && SFeqb (f3y a) (f3y b) && SFeqb (f3z a) (f3z b));
  float3_minus a b :=
    Float3 (Float.sub (f3x a) (f3x b)) (Float.sub (f3y a) (f3y b))
           (Float.sub (f3z a) (f3z b));
  SqDistance2D a b :=
    Float.add (sq (Float.sub (f3x a) (f3x b))) (sq (Float.sub (f3z a) (f3z b)));
  SqLength2D a := Float.add (sq (f3x a)) (sq (f3z a));
  ClampInBounds a :=
    Float3 (clamp (fl 0) (fl 4095) (f3x a)) (f3y a) (clamp (fl 0) (fl 4095) (f3z a));
  Square := sq
|}.

(** A goal: the target, the squared radius, and whether the bounding
    constraint is in force. *)
Record Goal := mkGoal {
  target : float3;
  sqRadius : float;
  constrained : bool
}.

Definition defOps : GoalDefOps Goal := {|
  CRangedGoalWithCircularConstraint _ goalPos goalRadius _ _ :=
    mkGoal goalPos (sq goalRadius) true;
  Heuristic d x z :=
    Float.add (Float.fabs (Float.sub x (Float.div (f3x (target d)) (fl 8))))
              (Float.fabs (Float.sub z (Float.div (f3z (target d)) (fl 8))));
  sqGoalRadius := sqRadius;
  DisableConstraint b d := mkGoal (target d) (sqRadius d) (negb b)
|}.

Definition square_of (p : float3) : int2 :=
  Int2 (Float.to_int (Float.div (f3x p) (fl 8)))
       (Float.to_int (Float.div (f3z p) (fl 8))).

Definition count_searches (tr : list (Event Goal)) : nat :=
  length (List.filter is_search tr).

Definition last_cost (buf : Buffer) (x z : Z) (synced : bool)
    (tr : list (Event Goal)) : float :=
  foldl (fun acc e =>
           match e with
           | CallSetNodeExtraCost b x' z' cost s =>
               if bool_decide (b = buf) && (x' =? x) && (z' =? z)
                  && bool_decide (s = synced)
               then cost else acc
           | _ => acc
           end) Float.zero tr.

(** The [n]-th search of a run answers [script n]: an outcome and the
    waypoints it leaves in the path. *)
Definition Script : Type := nat -> IPath.SearchResult * list float3.

Definition answer (script : Script) (tr : list (Event Goal)) (d : Goal)
  : IPath.SearchResult * IPath.Path :=
  let '(result, pts) := script (count_searches tr) in
  (result, IPath.mkPath pts (map square_of pts) (target d)).

Definition engines (script : Script) : Engines Goal := {|
  PF_GetPath tr _ _ d _ _ _ _ _ _ _ := answer script tr d;
  PE_GetPath tr _ _ _ d _ _ _ := answer script tr d;
  Buffer_GetNodeExtraCost tr buf x z synced := last_cost buf x z synced tr;
  moveDefs n := mkMoveDef n true (fl 10);
  newPathGoal := vec 0 0 0
|}.

Definition always (result : IPath.SearchResult) (pts : list float3) : Script :=
  fun _ => (result, pts).

Definition tank : MoveDef := mkMoveDef 0 true (fl 10).
Definition hover : MoveDef := mkMoveDef 1 false (fl 10).
Definition unit1 : CSolidObject := mkSolidObject 1 tank.
Definition unit2 : CSolidObject := mkSolidObject 2 hover.

(** Engines that always fail to get closer, that always find the goal out
    of range and leave the path empty, and that always succeed. *)
Definition stuck : Engines Goal := engines (always IPath.CantGetCloser []).
Definition out_of_range : Engines Goal := engines (always IPath.GoalOutOfRange []).
Definition success : Engines Goal :=
  engines (always IPath.Ok [vec 16 0 16; vec 80 0 80]).

Definition path_of (pts : list float3) (goal : float3) : IPath.Path :=
  IPath.mkPath pts (map square_of pts) goal.

(** A record of [caller] on its way from (8, 8) to (800, 800), with the
    given waypoints left in its tiers (nearest first). *)
Definition record (caller : option CSolidObject) (fine med low : list float3)
  : @MultiPath Goal :=
  mkMultiPath (vec 8 0 8) (vec 800 0 800) caller
    (mkGoal (vec 800 0 800) (fl 0) true) tank IPath.Ok
    (path_of fine (vec 800 0 800)) (path_of med (vec 800 0 800))
    (path_of low (vec 800 0 800)).

(** A manager that has issued handle 1, for the record [r]. *)
Definition holding (r : @MultiPath Goal) : @State Goal :=
  mkState 1 {[1 := r]} [].

(** A record of [unit1] with all three tiers in use, the finer two almost
    used up. *)
Definition long_way : @MultiPath Goal :=
  record (Some unit1) [vec 16 0 16]
    [vec 80 0 80; vec 160 0 160] [vec 300 0 300; vec 600 0 600].

(** A record with two squares left in its fine tier. *)
Definition two_squares : @MultiPath Goal :=
  record (Some unit1) [vec 16 0 16; vec 24 0 24] [] [].

(** A record whose three tiers are used up. *)
Definition used_up : @MultiPath Goal := record (Some unit1) [] [] [].

(** A fresh manager. *)
Definition fresh : @State Goal := CPathManager_new.

(** A manager that has issued every handle but the last. *)
Definition worn : @State Goal := mkState (UINT_MOD - 1) ∅ [].

(** The same, with the record of handle 1 still in the registry. *)
Definition worn_holding (r : @MultiPath Goal) : @State Goal :=
  mkState (UINT_MOD - 1) {[1 := r]} [].

End Demo.

(** * The sync checker

    A shallow embedding of [CSyncChecker]: the running checksum over all
    assignments to synced variables, as it is compiled with [SYNCCHECK] and
    without [TRACE_SYNC_HEAVY].  The static member [g_checksum] is the
    state; an [unsigned] is 32 bits wide. *)
Module SyncChecker.

(** How the bytes of an [unsigned short] and of an [unsigned int] lie in
    memory. *)
Inductive ByteOrder := LittleEndian | BigEndian.

Definition byte_value (b : Byte.byte) : Z := Z.of_N (Byte.to_N b).

(** The number whose bytes are [bs], the least significant first. *)
Fixpoint little_endian (bs : list Byte.byte) : Z :=
  match bs with
  | [] => 0
  | b :: bs => byte_value b + 2 ^ 8 * little_endian bs
  end.

(** A read of the [n]-byte unsigned number at [p], where [p] is the object
    the pointer points to; there is nothing to read past the end of the
    object. *)
Definition load (o : ByteOrder) (n : nat) (p : list Byte.byte) : option Z :=
  if (n <=? length p)%nat then
    Some (little_endian
            (match o with
             | LittleEndian => take n p
             | BigEndian => rev (take n p)
             end))
  else None.

Definition GetChecksum (g_checksum : Z) : Z := g_checksum.

Definition NewFrame (g_checksum : Z) : Z := 0xfade1eaf.

(** [g_checksum += v; g_checksum ^= g_checksum << l;
    g_checksum += g_checksum >> r;] *)
Definition mix (l r : Z) (v : Z) (g_checksum : Z) : Z :=
  let g_checksum := wrap_uint (g_checksum + v) in
  let g_checksum := Z.lxor g_checksum (wrap_uint (Z.shiftl g_checksum l)) in
  wrap_uint (g_checksum + Z.shiftr g_checksum r).

(** [for (; i < (size & ~3); i += 4)]: each round reads the [unsigned int]
    at [p] and adds [i] to it.  Yields [i] and the checksum; [None] when a
    read fails or the fuel is used up. *)
Fixpoint Sync_words (fuel : nat) (o : ByteOrder) (p : list Byte.byte)
    (size i g_checksum : Z) : option (Z * Z) :=
  if i <? Z.land size (wrap_uint (Z.lnot 3)) then
    match fuel with
    | O => None
    | S fuel =>
        match load o 4 p with
        | None => None
        | Some w =>
            Sync_words fuel o p size (wrap_uint (i + 4))
              (mix 16 11 (wrap_uint (w + i)) g_checksum)
        end
    end
  else Some (i, g_checksum).

(** [for (; i < size; ++i)]: each round reads the [unsigned char] at [p] and
    adds [i] to it. *)
Fixpoint Sync_bytes (fuel : nat) (o : ByteOrder) (p : list Byte.byte)
    (size i g_checksum : Z) : option Z :=
  if i <? size then
    match fuel with
    | O => None
    | S fuel =>
        match load o 1 p with
        | None => None
        | Some b =>
            Sync_bytes fuel o p size (wrap_uint (i + 1))
              (mix 10 1 (wrap_uint (b + i)) g_checksum)
        end
    end
  else Some g_checksum.

(** [Sync(p, size)]: the new checksum. *)
Definition Sync (fuel : nat) (o : ByteOrder) (p : list Byte.byte) (size : Z)
    (g_checksum : Z) : option Z :=
  if size =? 1 then
    match load o 1 p with
    | None => None
    | Some v => Some (mix 10 1 v g_checksum)
    end
  else if size =? 2 then
    match load o 2 p with
    | None => None
    | Some v => Some (mix 11 17 v g_checksum)
    end
  else if size =? 4 then
    match load o 4 p with
    | None => None
    | Some v => Some (mix 16 11 v g_checksum)
    end
  else
    match Sync_words fuel o p size 0 g_checksum with
    | None => None
    | Some (i, g_checksum) => Sync_bytes fuel o p size i g_checksum
    end.

(** The rounds of the two loops of the default case, for the word [w] and
    the byte [b] at [p]. *)
Definition word_rounds (w size g_checksum : Z) : Z :=
  fold_left (fun g k => mix 16 11 (wrap_uint (w + 4 * k)) g)
    (seqZ 0 (size / 4)) g_checksum.

Definition byte_rounds (b size g_checksum : Z) : Z :=
  fold_left (fun g i => mix 10 1 (wrap_uint (b + i)) g)
    (seqZ (4 * (size / 4)) (size mod 4)) g_checksum.

(** Two objects of eight bytes that agree on the first four. *)
Definition eight : list Byte.byte :=
  [Byte.x01; Byte.x02; Byte.x03; Byte.x04;
   Byte.x05; Byte.x06; Byte.x07; Byte.x08].
Definition eight' : list Byte.byte :=
  [Byte.x01; Byte.x02; Byte.x03; Byte.x04;
   Byte.xff; Byte.xfe; Byte.xfd; Byte.xfc].

End SyncChecker.

(** * Properties *)

Section Properties.

Context {Def : Type}.
Context {consts : PathConstants} {vecOps : Float3Ops}.
Context {defOps : GoalDefOps Def} {engines : Engines Def}.

Local Open Scope pm_scope.

Implicit Types (st : @State Def) (mp multiPath : @MultiPath Def).
Implicit Types (evs pre mid searches : list (Event Def)).
Implicit Types (Q : Event Def -> Prop) (e : Event Def).

(** ** The trace only grows *)

Lemma add_trace_nil st : add_trace [] st = st.
Proof. destruct st; unfold add_trace; simpl. now rewrite app_nil_r. Qed.

Lemma add_trace_app evs1 evs2 st :
  add_trace evs2 (add_trace evs1 st) = add_trace (evs1 ++ evs2) st.
Proof. unfold add_trace; simpl. now rewrite app_assoc. Qed.

Lemma UnBlock_trace (c : option CSolidObject) st :
  UnBlock c st =
  (tt, add_trace (match c with Some o => [CallUnBlock o] | None => [] end) st).
Proof. destruct c; simpl; [reflexivity|]. now rewrite add_trace_nil. Qed.

Lemma Block_trace (c : option CSolidObject) st :
  Block c st =
  (tt, add_trace (match c with Some o => [CallBlock o] | None => [] end) st).
Proof. destruct c; simpl; [reflexivity|]. now rewrite add_trace_nil. Qed.

(** ** The registry *)

Lemma GetMultiPath_DeletePath (pathID : Z) st :
  pathID = 0 \/ GetMultiPath pathID (snd (DeletePath pathID st)) = None.
Proof.
  unfold DeletePath, GetMultiPath.
  destruct (Z.eqb_spec pathID 0) as [->|Hne]; [now left|right].
  destruct (pathMap st !! pathID) eqn:E; simpl; [|exact E].
  apply lookup_delete_eq.
Qed.

(** ** Next-waypoint delivery: the sentinel *)

Lemma NextWayPoint_rec_no_path (n : nat) (pathID : Z) (callerPos : float3)
    (minDistance : float) (numRetries : Z) (owner : option CSolidObject)
    (synced : bool) st :
  pathID = 0 \/ GetMultiPath pathID st = None \/ 4 < numRetries ->
  NextWayPoint_rec n pathID callerPos minDistance numRetries owner synced st
  = (noPathPoint, st).
Proof.
  intros H. destruct n; simpl; unfold NextWayPoint_body;
    (destruct (Z.eqb_spec pathID 0); [reflexivity|]);
    (destruct (Z.gtb_spec numRetries 4); [reflexivity|]);
    (destruct H as [H|[H|H]]; [contradiction| |lia]);
    now rewrite H.
Qed.

(** C4.  A call of [NextWayPoint] with handle 0, with a handle that is not in
    the registry, or with more than 4 retries returns the no-path point
    (-1, 0, -1) and leaves the state, hence every stored record, as it was;
    a handle that [DeletePath] has just removed is such a handle. *)
Theorem NextWayPoint_no_path (pathID : Z) (callerPos : float3)
    (minDistance : float) (numRetries : Z) (owner : option CSolidObject)
    (synced : bool) st
    (H : pathID = 0 \/ GetMultiPath pathID st = None \/ 4 < numRetries) :
  NextWayPoint pathID callerPos minDistance numRetries owner synced st
  = (noPathPoint, st)
  /\ noPathPoint = Float3 (S754_finite true 8388608 (-23)) (S754_zero false)
                          (S754_finite true 8388608 (-23))
  /\ forall st0,
       let st' := snd (DeletePath pathID st0) in
       NextWayPoint pathID callerPos minDistance numRetries owner synced st'
       = (noPathPoint, st').
Proof.
  split; [|split].
  - now apply NextWayPoint_rec_no_path.
  - reflexivity.
  - intros st0 st'. apply NextWayPoint_rec_no_path.
    destruct (GetMultiPath_DeletePath pathID st0); auto.
Qed.

(** ** Next-waypoint delivery: a zero caller position *)

(** C10.  When [callerPos] equals the zero vector and the fine tier of the
    record is not empty, the call proceeds with the fine tier's tail waypoint
    in place of [callerPos]: it is the call made from that waypoint. *)
Theorem NextWayPoint_zero_callerPos (pathID : Z) (callerPos : float3)
    (minDistance : float) (numRetries : Z) (owner : option CSolidObject)
    (synced : bool) st multiPath (tail : float3) (waypoints : list float3)
    (Hrecord : GetMultiPath pathID st = Some multiPath)
    (Hzero : float3_eq callerPos ZeroVector = true)
    (Hfine : IPath.path (maxResPath multiPath) = tail :: waypoints) :
  effective_callerPos multiPath callerPos = tail
  /\ NextWayPoint pathID callerPos minDistance numRetries owner synced st
     = NextWayPoint pathID tail minDistance numRetries owner synced st.
Proof.
  assert (E1 : effective_callerPos multiPath callerPos = tail).
  { unfold effective_callerPos. now rewrite Hzero, Hfine. }
  assert (E2 : effective_callerPos multiPath tail = tail).
  { unfold effective_callerPos. rewrite Hfine. simpl.
    now destruct (float3_eq tail ZeroVector). }
  split; [exact E1|].
  unfold NextWayPoint.
  destruct (Z.to_nat (4 - numRetries)); simpl; unfold NextWayPoint_body;
    rewrite Hrecord, E1, E2; reflexivity.
Qed.

(** ** Requests: clamping *)

(** C9.  [RequestPath] clamps the start and the goal into the map before it
    builds the goal definition and before any search runs: the request is the
    well-defined request made at the clamped positions, and (clamping a
    clamped position changes nothing) the request made from the clamped
    positions themselves. *)
Theorem RequestPath_clamps (md : MoveDef) (startPos goalPos : float3)
    (goalRadius : float) (caller : option CSolidObject) (synced : bool) st
    (Hstart : ClampInBounds (ClampInBounds startPos) = ClampInBounds startPos)
    (Hgoal : ClampInBounds (ClampInBounds goalPos) = ClampInBounds goalPos) :
  RequestPath md startPos goalPos goalRadius caller synced st
  = RequestPath_pfDef md (ClampInBounds startPos) (ClampInBounds goalPos)
      (CRangedGoalWithCircularConstraint (ClampInBounds startPos)
         (ClampInBounds goalPos) goalRadius (Float.of_Z 3) 2000)
      caller synced st
  /\ RequestPath md startPos goalPos goalRadius caller synced st
     = RequestPath md (ClampInBounds startPos) (ClampInBounds goalPos)
         goalRadius caller synced st.
Proof.
  split; [reflexivity|].
  unfold RequestPath. now rewrite Hstart, Hgoal.
Qed.

(** ** The extra-cost overlay *)

(** C7.  [SetNodeExtraCost] with [x >= mapx] or [z >= mapy] returns [false]
    and calls no buffer; otherwise it hands the same cost to the node-state
    buffers of the three tiers and returns [true].  [GetNodeExtraCost] out of
    bounds is [0.0]. *)
Theorem NodeExtraCost_bounds (x z : Z) (cost : float) (synced : bool) st :
  SetNodeExtraCost x z cost synced st
  = (if (x <? mapx) && (z <? mapy)
     then (true, add_trace [CallSetNodeExtraCost maxResBuf x z cost synced;
                            CallSetNodeExtraCost medResBuf x z cost synced;
                            CallSetNodeExtraCost lowResBuf x z cost synced] st)
     else (false, st))
  /\ GetNodeExtraCost x z synced st
     = (if (x <? mapx) && (z <? mapy)
        then Buffer_GetNodeExtraCost (trace st) maxResBuf x z synced
        else Float.zero).
Proof.
  unfold SetNodeExtraCost, GetNodeExtraCost.
  rewrite !Z.geb_leb.
  destruct (Z.leb_spec mapx x), (Z.ltb_spec x mapx); try lia;
    destruct (Z.leb_spec mapy z), (Z.ltb_spec z mapy); try lia; simpl;
    split; try reflexivity.
  unfold bind, emit, ret; simpl. now rewrite !add_trace_app.
Qed.

(** ** Next-waypoint delivery: the recursion of the source *)

Lemma NextWayPoint_body_ext (retry1 retry2 : float3 -> M float3)
    pathID callerPos minDistance numRetries owner synced st :
  (forall pos s, retry1 pos s = retry2 pos s) ->
  NextWayPoint_body retry1 pathID callerPos minDistance numRetries owner synced st
  = NextWayPoint_body retry2 pathID callerPos minDistance numRetries owner synced st.
Proof.
  intros H. unfold NextWayPoint_body.
  destruct (pathID =? 0); [reflexivity|].
  destruct (numRetries >? 4); [reflexivity|].
  destruct (GetMultiPath pathID st) as [mp|]; [|reflexivity].
  unfold bind.
  destruct (NextWayPoint_refine mp _ owner synced st) as [mp1 st1].
  destruct (NextWayPoint_loop mp1 _ minDistance _) as [exit rest].
  destruct (write_back pathID _ st1) as [[] st2].
  destruct exit; [reflexivity|]. now rewrite H.
Qed.

(** [NextWayPoint] satisfies the equation the source defines it by: its body,
    with the call [NextWayPoint(pathID, callerPos, minDistance,
    numRetries + 1, owner, synced)] for the retry.  It is total: the
    recursion ends after at most [5 - numRetries] calls. *)
Lemma NextWayPoint_unfold pathID callerPos minDistance numRetries owner synced st :
  NextWayPoint pathID callerPos minDistance numRetries owner synced st
  = NextWayPoint_body
      (fun pos => NextWayPoint pathID pos minDistance (numRetries + 1) owner synced)
      pathID callerPos minDistance numRetries owner synced st.
Proof.
  unfold NextWayPoint.
  destruct (Z.to_nat (4 - numRetries)) as [|k] eqn:E; simpl.
  - apply NextWayPoint_body_ext. intros pos s.
    destruct (Z.gtb_spec numRetries 4) as [Hgt|Hle].
    + symmetry. apply NextWayPoint_rec_no_path. right; right; lia.
    + assert (numRetries = 4) by lia. subst numRetries.
      symmetry. apply NextWayPoint_rec_no_path. right; right; lia.
  - apply NextWayPoint_body_ext. intros pos s.
    f_equal. lia.
Qed.

(** ** Functions that only call collaborators *)

Lemma emits_ret {A} Q (a : A) : emits Q (ret a : M A).
Proof. intros st. exists []. simpl. now rewrite add_trace_nil. Qed.

Lemma emits_bind {A B} Q (m : M A) (k : A -> M B) :
  emits Q m -> (forall a, emits Q (k a)) -> emits Q (bind m k).
Proof.
  intros Hm Hk st. unfold bind.
  destruct (Hm st) as (evs1 & E1 & F1).
  destruct (m st) as [a st1]; simpl in E1; subst st1.
  destruct (Hk a (add_trace evs1 st)) as (evs2 & E2 & F2).
  exists (evs1 ++ evs2). rewrite E2, add_trace_app.
  split; [reflexivity|]. now apply Forall_app.
Qed.

Lemma emits_weaken {A} (Q Q' : Event Def -> Prop) (m : M A) :
  (forall e, Q e -> Q' e) -> emits Q m -> emits Q' m.
Proof.
  intros HQ Hm st. destruct (Hm st) as (evs & E & F).
  exists evs. split; [exact E|]. eapply Forall_impl; eauto.
Qed.

Lemma emits_emit Q (e : Event Def) : Q e -> emits Q (emit e).
Proof. intros He st. exists [e]. simpl. auto. Qed.

Lemma emits_if {A} Q (b : bool) (m1 m2 : M A) :
  emits Q m1 -> emits Q m2 -> emits Q (if b then m1 else m2).
Proof. now destruct b. Qed.

Lemma maxResPF_GetPath_emits md startPos def owner synced mp :
  emits fine_search (maxResPF_GetPath md startPos def owner synced mp).
Proof.
  intros st. unfold maxResPF_GetPath.
  destruct (PF_GetPath _ _ _ _ _ _ _ _ _ _ _) as [result p].
  eexists [_]. split; [reflexivity|]. repeat constructor.
Qed.

Lemma medResPE_GetPath_emits md startPos def maxNodes synced mp :
  emits estimator_search (medResPE_GetPath md startPos def maxNodes synced mp).
Proof.
  intros st. unfold medResPE_GetPath.
  destruct (PE_GetPath _ _ _ _ _ _ _ _) as [result p].
  eexists [_]. split; [reflexivity|]. repeat constructor.
Qed.

Lemma lowResPE_GetPath_emits md startPos def maxNodes synced mp :
  emits estimator_search (lowResPE_GetPath md startPos def maxNodes synced mp).
Proof.
  intros st. unfold lowResPE_GetPath.
  destruct (PE_GetPath _ _ _ _ _ _ _ _) as [result p].
  eexists [_]. split; [reflexivity|]. repeat constructor.
Qed.

Lemma fine_is_search e : fine_search e -> any_search e.
Proof. now intros []. Qed.
Lemma estimator_is_search e : estimator_search e -> any_search e.
Proof. now intros []. Qed.

Lemma MedRes2MaxRes_emits mp startPos owner synced :
  emits fine_search (MedRes2MaxRes mp startPos owner synced).
Proof.
  unfold MedRes2MaxRes.
  destruct (Vec.empty (IPath.path (medResPath mp))); [apply emits_ret|].
  apply emits_bind.
  - apply emits_if; apply maxResPF_GetPath_emits.
  - intros [result mp']. apply emits_if; apply emits_ret.
Qed.

Lemma LowRes2MedRes_emits mp startPos owner synced :
  emits estimator_search (LowRes2MedRes mp startPos owner synced).
Proof.
  unfold LowRes2MedRes.
  destruct (Vec.empty (IPath.path (lowResPath mp))); [apply emits_ret|].
  apply emits_bind.
  - apply emits_if; apply medResPE_GetPath_emits.
  - intros [result mp']. apply emits_if; apply emits_ret.
Qed.

Lemma unless_Ok_emits Q result mp search :
  (forall mp', emits Q (search mp')) -> emits Q (unless_Ok result mp search).
Proof. intros H. unfold unless_Ok. apply emits_if; [apply H|apply emits_ret]. Qed.

Ltac emits_search :=
  first [ apply emits_ret
        | eapply emits_weaken; [apply fine_is_search|apply maxResPF_GetPath_emits]
        | eapply emits_weaken; [apply estimator_is_search|apply medResPE_GetPath_emits]
        | eapply emits_weaken; [apply estimator_is_search|apply lowResPE_GetPath_emits] ].

Lemma RequestPath_search_emits md startPos goalPos caller synced mp :
  emits any_search (RequestPath_search md startPos goalPos caller synced mp).
Proof.
  unfold RequestPath_search.
  repeat apply emits_if.
  - unfold RequestPath_short.
    apply emits_bind; [emits_search|intros [r1 mp1]].
    apply emits_bind; [apply unless_Ok_emits; intros; emits_search|intros [r2 mp2]].
    apply unless_Ok_emits; intros; emits_search.
  - unfold RequestPath_medium.
    apply emits_bind; [emits_search|intros [r1 mp1]].
    apply emits_bind; [apply emits_if; emits_search|intros [r2 mp2]].
    apply unless_Ok_emits; intros; emits_search.
  - unfold RequestPath_long.
    apply emits_bind; [emits_search|intros [r1 mp1]].
    apply emits_bind; [|intros [r2 mp2]; apply unless_Ok_emits; intros; emits_search].
    apply emits_if; [|emits_search].
    apply emits_bind; [emits_search|intros [r2 mp2]].
    apply emits_if; emits_search.
Qed.

(** ** Requests: the outcome decides what is stored *)

(** A request, unfolded along its phases: unblock, search, complete and
    store, block. *)
Lemma RequestPath_pfDef_phases md startPos goalPos pfDef caller synced st :
  exists evs,
    Forall any_search evs
    /\ RequestPath_pfDef md startPos goalPos pfDef caller synced st
       = let (result, newPath) :=
           RequestPath_searched md startPos goalPos pfDef caller synced st in
         let (pathID, st') :=
           RequestPath_finish result startPos caller synced newPath
             (add_trace (unblock_calls caller ++ evs) st) in
         (pathID, snd (Block caller st')).
Proof.
  unfold RequestPath_pfDef, RequestPath_searched, bind.
  rewrite (UnBlock_trace caller st). simpl.
  set (newPath := set_caller _ _).
  destruct (RequestPath_search_emits (moveDefs (pathType md)) startPos goalPos
              caller synced newPath (add_trace
                (match caller with Some o => [CallUnBlock o] | None => [] end) st))
    as (evs & E & F).
  destruct (RequestPath_search _ _ _ _ _ _ _) as [[result np] st2].
  simpl in E. subst st2. rewrite add_trace_app.
  exists evs. split; [exact F|]. simpl.
  destruct (RequestPath_finish _ _ _ _ _ _) as [pathID st3].
  now destruct (Block caller st3) as [[] st4].
Qed.

Lemma RequestPath_finish_spec result startPos caller synced newPath st :
  exists evs,
    Forall any_search evs
    /\ RequestPath_finish result startPos caller synced newPath st
       = if IPath.eqb result IPath.Error then (0, st)
         else
           let pathID := wrap_uint (nextPathID st + 1) in
           (pathID,
            mkState pathID
              (<[pathID := completed result startPos caller synced newPath st]>
                 (pathMap st))
              (trace st ++ evs)).
Proof.
  unfold RequestPath_finish, completed.
  destruct (IPath.eqb result IPath.Error); simpl; [now exists []|].
  destruct (IPath.eqb result IPath.CantGetCloser); simpl.
  - exists []. split; [constructor|].
    unfold bind, ret, Store; simpl. now rewrite app_nil_r.
  - assert (H : emits any_search
                  (bind (LowRes2MedRes newPath startPos caller synced)
                     (fun newPath => MedRes2MaxRes newPath startPos caller synced))).
    { apply emits_bind.
      - eapply emits_weaken; [apply estimator_is_search|apply LowRes2MedRes_emits].
      - intros. eapply emits_weaken; [apply fine_is_search|apply MedRes2MaxRes_emits]. }
    destruct (H st) as (evs & E & F). exists evs. split; [exact F|].
    unfold bind at 1.
    destruct (bind (LowRes2MedRes newPath startPos caller synced) _ st)
      as [np st'] eqn:Eb.
    simpl in E. subst st'. reflexivity.
Qed.

Lemma RequestPath_pfDef_spec md startPos goalPos pfDef caller synced st :
  exists searches evs',
    Forall any_search searches
    /\ RequestPath_pfDef md startPos goalPos pfDef caller synced st
       = let evs := unblock_calls caller ++ searches ++ block_calls caller in
         let (result, newPath) :=
           RequestPath_searched md startPos goalPos pfDef caller synced st in
         if IPath.eqb result IPath.Error then (0, add_trace evs st)
         else
           let pathID := wrap_uint (nextPathID st + 1) in
           (pathID,
            mkState pathID
              (<[pathID := completed result startPos caller synced newPath
                             (add_trace evs' st)]> (pathMap st))
              (trace st ++ evs)).
Proof.
  destruct (RequestPath_pfDef_phases md startPos goalPos pfDef caller synced st)
    as (evs1 & F1 & ->).
  destruct (RequestPath_searched _ _ _ _ _ _ _) as [result newPath].
  destruct (RequestPath_finish_spec result startPos caller synced newPath
              (add_trace (unblock_calls caller ++ evs1) st)) as (evs2 & F2 & ->).
  destruct (IPath.eqb result IPath.Error); simpl; rewrite Block_trace; simpl.
  - exists evs1, []. split; [exact F1|].
    rewrite add_trace_app. now rewrite <- app_assoc.
  - exists (evs1 ++ evs2), (unblock_calls caller ++ evs1).
    split; [now apply Forall_app|].
    unfold add_trace at 1; simpl. now rewrite <- !app_assoc.
Qed.

(** What a request does to the registry and the counter, by its outcome. *)
Lemma RequestPath_pfDef_handle (md : MoveDef) (startPos goalPos : float3)
    (pfDef : Def) (caller : option CSolidObject) (synced : bool) st :
  let result := RequestPath_outcome md startPos goalPos pfDef caller synced st in
  let pathID := fst (RequestPath_pfDef md startPos goalPos pfDef caller synced st) in
  let st' := snd (RequestPath_pfDef md startPos goalPos pfDef caller synced st) in
  (result = IPath.Error ->
     pathID = 0 /\ pathMap st' = pathMap st /\ nextPathID st' = nextPathID st)
  /\ (result <> IPath.Error ->
        pathID = wrap_uint (nextPathID st + 1) /\ nextPathID st' = pathID /\
        exists record,
          pathMap st' = <[pathID := record]> (pathMap st) /\
          searchResult record = result)
  /\ (result <> IPath.Error -> registry_ok st -> nextPathID st < UINT_MOD - 1 ->
        pathID = nextPathID st + 1 /\ pathID <> 0 /\ pathMap st !! pathID = None).
Proof.
  intros result pathID st'. subst result pathID st'.
  unfold RequestPath_outcome.
  destruct (RequestPath_pfDef_spec md startPos goalPos pfDef caller synced st)
    as (evs & evs' & _ & ->).
  destruct (RequestPath_searched _ _ _ _ _ _ _) as [result newPath]. simpl.
  destruct (IPath.eqb result IPath.Error) eqn:E; simpl.
  - apply SearchResult_eqb_eq in E. subst result.
    split; [auto|]. split; intros H; now contradiction H.
  - assert (Hne : result <> IPath.Error).
    { intros ->. now rewrite SearchResult_eqb_refl in E. }
    split; [intros ->; now contradiction Hne|].
    split.
    + intros _. split; [reflexivity|]. split; [reflexivity|].
      eexists. split; [reflexivity|]. reflexivity.
    + intros _ [Hc Hkeys] Hroom.
      assert (Ew : wrap_uint (nextPathID st + 1) = nextPathID st + 1).
      { unfold wrap_uint. apply Z.mod_small. lia. }
      rewrite Ew. split; [reflexivity|]. split; [lia|].
      destruct (pathMap st !! (nextPathID st + 1)) eqn:El; [|reflexivity].
      apply Hkeys in El. lia.
Qed.

(** C2.  When the outcome of the searches is [Error], a request returns 0
    and leaves the registry and the counter as they were.  Otherwise the
    record is stored, with its outcome, under the handle
    [nextPathID + 1 (mod 2^32)], which is returned; that handle is new and
    not 0 as long as the counter has not reached [2^32 - 1].  (The
    help-function [RequestPath] is [RequestPath_pfDef] at the clamped
    positions, so this holds of both overloads.) *)
Theorem RequestPath_error_or_stored (md : MoveDef) (startPos goalPos : float3)
    (pfDef : Def) (caller : option CSolidObject) (synced : bool) st :
  let result := RequestPath_outcome md startPos goalPos pfDef caller synced st in
  let pathID := fst (RequestPath_pfDef md startPos goalPos pfDef caller synced st) in
  let st' := snd (RequestPath_pfDef md startPos goalPos pfDef caller synced st) in
  (result = IPath.Error ->
     pathID = 0 /\ pathMap st' = pathMap st /\ nextPathID st' = nextPathID st)
  /\ (result <> IPath.Error ->
        pathID = wrap_uint (nextPathID st + 1) /\ nextPathID st' = pathID /\
        exists record,
          pathMap st' = <[pathID := record]> (pathMap st) /\
          searchResult record = result)
  /\ (result <> IPath.Error -> registry_ok st -> nextPathID st < UINT_MOD - 1 ->
        pathID = nextPathID st + 1 /\ pathID <> 0 /\ pathMap st !! pathID = None).
Proof.
  intros result pathID st'. subst result pathID st'.
  unfold RequestPath_outcome.
  destruct (RequestPath_pfDef_spec md startPos goalPos pfDef caller synced st)
    as (evs & evs' & _ & ->).
  destruct (RequestPath_searched _ _ _ _ _ _ _) as [result newPath]. simpl.
  destruct (IPath.eqb result IPath.Error) eqn:E; simpl.
  - apply SearchResult_eqb_eq in E. subst result.
    split; [auto|]. split; intros H; now contradiction H.
  - assert (Hne : result <> IPath.Error).
    { intros ->. now rewrite SearchResult_eqb_refl in E. }
    split; [intros ->; now contradiction Hne|].
    split.
    + intros _. split; [reflexivity|]. split; [reflexivity|].
      eexists. split; [reflexivity|]. reflexivity.
    + intros _ [Hc Hkeys] Hroom.
      assert (Ew : wrap_uint (nextPathID st + 1) = nextPathID st + 1).
      { unfold wrap_uint. apply Z.mod_small. lia. }
      rewrite Ew. split; [reflexivity|]. split; [lia|].
      destruct (pathMap st !! (nextPathID st + 1)) eqn:El; [|reflexivity].
      apply Hkeys in El. lia.
Qed.

(** C1.  When the outcome of the searches is [CantGetCloser], the record a
    request stores has a fine tier that is not empty: a fine tier the
    searches left empty holds the start position alone, with its square
    pushed on the cell sequence, and one they filled is kept.  (The
    help-function [RequestPath] is [RequestPath_pfDef] at the clamped
    positions, so this holds of both overloads.) *)
Theorem RequestPath_CantGetCloser_has_waypoint (md : MoveDef)
    (startPos goalPos : float3) (pfDef : Def) (caller : option CSolidObject)
    (synced : bool) st
    (Hout : RequestPath_outcome md startPos goalPos pfDef caller synced st
            = IPath.CantGetCloser) :
  let searched :=
    snd (RequestPath_searched md startPos goalPos pfDef caller synced st) in
  let pathID := fst (RequestPath_pfDef md startPos goalPos pfDef caller synced st) in
  let st' := snd (RequestPath_pfDef md startPos goalPos pfDef caller synced st) in
  exists record,
    GetMultiPath pathID st' = Some record
    /\ searchResult record = IPath.CantGetCloser
    /\ IPath.path (maxResPath record) <> []
    /\ (IPath.path (maxResPath searched) = [] ->
          IPath.path (maxResPath record) = [startPos]
          /\ IPath.squares (maxResPath record)
             = Int2 (Float.to_int (Float.div (f3x startPos) SQUARE_SIZE))
                    (Float.to_int (Float.div (f3z startPos) SQUARE_SIZE))
               :: IPath.squares (maxResPath searched))
    /\ (IPath.path (maxResPath searched) <> [] ->
          maxResPath record = maxResPath searched).
Proof.
  intros searched pathID st'. subst searched pathID st'.
  unfold RequestPath_outcome in Hout.
  destruct (RequestPath_pfDef_spec md startPos goalPos pfDef caller synced st)
    as (evs & evs' & _ & ->).
  destruct (RequestPath_searched _ _ _ _ _ _ _) as [result newPath].
  simpl in Hout. subst result. simpl.
  eexists. split; [unfold GetMultiPath; simpl; apply lookup_insert_eq|].
  unfold completed, add_dummy_waypoint. simpl.
  destruct (IPath.path (maxResPath newPath)) as [|w ws] eqn:Ep; simpl.
  - split; [reflexivity|]. split; [discriminate|].
    split; [intros _; now split|]. intros H. now exfalso.
  - rewrite Ep. split; [reflexivity|]. split; [discriminate|].
    split; [discriminate|]. reflexivity.
Qed.

(** ** Handles *)

Lemma same_handles_refl st : same_handles st st.
Proof. now split. Qed.

Lemma same_handles_trans st1 st2 st3 :
  same_handles st1 st2 -> same_handles st2 st3 -> same_handles st1 st3.
Proof.
  intros [E1 K1] [E2 K2]. split; [congruence|].
  intros id. now rewrite K2, K1.
Qed.

Lemma same_handles_add_trace evs st : same_handles st (add_trace evs st).
Proof. now split. Qed.

Lemma same_handles_emits {A} Q (m : M A) st :
  emits Q m -> same_handles st (snd (m st)).
Proof. intros H. destruct (H st) as (evs & -> & _). apply same_handles_add_trace. Qed.

Lemma same_handles_write_back pathID mp mp' st :
  pathMap st !! pathID = Some mp ->
  same_handles st (snd (write_back pathID mp' st)).
Proof.
  intros Hl. split; [reflexivity|]. intros id. simpl.
  destruct (decide (pathID = id)) as [<-|Hne].
  - rewrite lookup_insert_eq, Hl. split; discriminate.
  - now rewrite lookup_insert_ne.
Qed.

Lemma registry_ok_same_handles st st' :
  same_handles st st' -> registry_ok st -> registry_ok st'.
Proof.
  intros [E K] [Hc Hk]. split; [now rewrite E|].
  intros id mp Hl. rewrite E.
  destruct (pathMap st !! id) as [mp0|] eqn:E0; [eauto|].
  apply K in E0. congruence.
Qed.

Lemma NextWayPoint_refine_emits mp callerPos owner synced :
  emits (Def := Def) (fun _ => True) (NextWayPoint_refine mp callerPos owner synced).
Proof.
  unfold NextWayPoint_refine.
  apply emits_if; [|apply emits_ret].
  apply emits_bind.
  { apply emits_if; [|apply emits_ret].
    eapply emits_weaken; [|apply LowRes2MedRes_emits]. auto. }
  intros mp1. apply emits_bind.
  { destruct (caller mp1); [now apply emits_emit|apply emits_ret]. }
  intros _. apply emits_bind.
  { eapply emits_weaken; [|apply MedRes2MaxRes_emits]. auto. }
  intros mp2. apply emits_bind; [|intros; apply emits_ret].
  destruct (caller mp2); [now apply emits_emit|apply emits_ret].
Qed.

Lemma NextWayPoint_rec_same_handles (n : nat) pathID callerPos minDistance
    numRetries owner synced st :
  same_handles st
    (snd (NextWayPoint_rec n pathID callerPos minDistance numRetries owner synced st)).
Proof.
  revert callerPos numRetries st.
  induction n as [|n IH]; intros callerPos numRetries st; simpl;
    unfold NextWayPoint_body;
    (destruct (pathID =? 0); [apply same_handles_refl|]);
    (destruct (numRetries >? 4); [apply same_handles_refl|]);
    (destruct (GetMultiPath pathID st) as [mp|] eqn:El; [|apply same_handles_refl]);
    unfold bind;
    pose proof (NextWayPoint_refine_emits mp (effective_callerPos mp callerPos)
                  owner synced st) as (evs & E & _);
    (destruct (NextWayPoint_refine mp _ owner synced st) as [mp1 st1]);
    simpl in E; subst st1;
    (destruct (NextWayPoint_loop mp1 _ minDistance _) as [exit rest]);
    (eapply same_handles_trans; [apply (same_handles_add_trace evs)|]);
    (eapply same_handles_trans;
       [eapply (same_handles_write_back pathID mp); exact El|]);
    simpl; destruct exit; simpl; try apply same_handles_refl.
  match goal with
  | |- context [NextWayPoint_rec n ?a ?b ?c ?d ?e ?f ?s] =>
      pose proof (IH b d s) as H;
      destruct (NextWayPoint_rec n a b c d e f s) as [w s']
  end.
  exact H.
Qed.

Lemma UpdatePath_loop_emits owner scale i its :
  emits (Def := Def) (fun _ => True) (UpdatePath_loop owner scale i its).
Proof.
  revert i. induction its as [|it its IH]; intros i; simpl.
  - apply emits_ret.
  - apply emits_bind; [now apply emits_emit|]. intros _. apply IH.
Qed.

Lemma UpdatePath_emits owner pathID :
  emits (Def := Def) (fun _ => True) (UpdatePath owner pathID).
Proof.
  intros st. unfold UpdatePath.
  destruct (pathID =? 0); [exists []; now rewrite add_trace_nil|].
  destruct (negb _); [exists []; now rewrite add_trace_nil|].
  destruct (negb _); [|exists []; now rewrite add_trace_nil].
  apply UpdatePath_loop_emits.
Qed.

Lemma SetNodeExtraCost_emits x z cost synced :
  emits (Def := Def) (fun _ => True) (SetNodeExtraCost x z cost synced).
Proof.
  unfold SetNodeExtraCost. repeat apply emits_if; try apply emits_ret.
  repeat (apply emits_bind; [now apply emits_emit|intros _]).
  apply emits_ret.
Qed.

Lemma DeletePath_registry_ok pathID st :
  registry_ok st ->
  registry_ok (snd (DeletePath pathID st))
  /\ nextPathID (snd (DeletePath pathID st)) = nextPathID st.
Proof.
  intros [Hc Hk]. unfold DeletePath.
  destruct (pathID =? 0); [split; [now split|reflexivity]|].
  destruct (pathMap st !! pathID) eqn:E; [|split; [now split|reflexivity]].
  simpl. split; [|reflexivity]. split; [exact Hc|].
  intros id mp. simpl. intros Hl.
  apply lookup_delete_Some in Hl as [_ Hl]. eauto.
Qed.

Lemma issued_zero : issued [0] = [].
Proof. reflexivity. Qed.

Lemma issued_nonzero (h : Z) : h <> 0 -> issued [h] = [h].
Proof.
  intros H. unfold issued. rewrite filter_cons_True by exact H.
  now rewrite filter_nil.
Qed.

Lemma issued_app (hs hs' : list Z) : issued (hs ++ hs') = issued hs ++ issued hs'.
Proof. apply filter_app. Qed.

(** What one call does to the counter: a stored request issues
    [nextPathID + 1], every other call issues nothing. *)
Lemma do_op_handles (op : Op) st :
  registry_ok st -> nextPathID st < UINT_MOD - 1 ->
  let hs := fst (do_op op st) in
  let st' := snd (do_op op st) in
  registry_ok st'
  /\ nextPathID st <= nextPathID st' <= nextPathID st + 1
  /\ issued hs = seqZ (nextPathID st + 1) (nextPathID st' - nextPathID st).
Proof.
  intros Hok Hroom.
  assert (Hsame : forall st', same_handles st st' ->
            registry_ok st'
            /\ nextPathID st <= nextPathID st' <= nextPathID st + 1
            /\ issued [] = seqZ (nextPathID st + 1) (nextPathID st' - nextPathID st)).
  { intros st' Hs. split; [now apply (registry_ok_same_handles st)|].
    destruct Hs as [-> _]. split; [lia|].
    rewrite Z.sub_diag. reflexivity. }
  assert (Hreq : forall md startPos goalPos pfDef caller synced,
            let r := RequestPath_pfDef md startPos goalPos pfDef caller synced st in
            registry_ok (snd r)
            /\ nextPathID st <= nextPathID (snd r) <= nextPathID st + 1
            /\ issued [fst r]
               = seqZ (nextPathID st + 1) (nextPathID (snd r) - nextPathID st)).
  { intros md startPos goalPos pfDef caller synced r. subst r.
    pose proof (RequestPath_pfDef_handle md startPos goalPos pfDef caller
                  synced st) as (HE & HS & HF).
    simpl in HE, HS, HF.
    destruct (decide (RequestPath_outcome md startPos goalPos pfDef caller synced st
                      = IPath.Error)) as [E|E].
    - destruct (HE E) as (-> & Hm & Hn).
      rewrite Hn, Z.sub_diag, issued_zero.
      split; [|split; [lia|reflexivity]].
      destruct Hok as [Hc Hk]. split; [now rewrite Hn|].
      intros id mp. rewrite Hm, Hn. apply Hk.
    - destruct (HS E) as (_ & Hn & record & Hm & _).
      destruct (HF E Hok Hroom) as (Hid & Hnz & Hfresh).
      rewrite Hid in *. rewrite Hn.
      replace (nextPathID st + 1 - nextPathID st) with 1 by lia.
      rewrite issued_nonzero by exact Hnz.
      split; [|split; [lia|reflexivity]].
      destruct Hok as [Hc Hk]. split; [rewrite Hn; lia|].
      intros id mp. rewrite Hm, Hn.
      destruct (decide (nextPathID st + 1 = id)) as [<-|Hne].
      + intros _. lia.
      + rewrite lookup_insert_ne by exact Hne. intros Hl.
        apply Hk in Hl. lia. }
  destruct op; simpl; unfold bind, ret, RequestPath.
  1,2: match goal with
       | |- context [RequestPath_pfDef ?a ?b ?c ?d ?e ?f ?s] =>
           pose proof (Hreq a b c d e f) as H; cbv zeta in H;
           destruct (RequestPath_pfDef a b c d e f s) as [h st1]; simpl in *; exact H
       end.
  - pose proof (NextWayPoint_rec_same_handles (Z.to_nat (4 - numRetries)) pathID
                  callerPos minDistance numRetries owner synced st) as H.
    unfold NextWayPoint.
    destruct (NextWayPoint_rec _ _ _ _ _ _ _ _) as [w st1]. simpl in *.
    now apply Hsame.
  - destruct (DeletePath_registry_ok pathID st Hok) as [H1 H2].
    destruct (DeletePath pathID st) as [[] st1]. simpl in *.
    split; [exact H1|]. rewrite H2, Z.sub_diag. split; [lia|reflexivity].
  - pose proof (same_handles_emits _ (UpdatePath owner pathID) st
                  (UpdatePath_emits owner pathID)) as H.
    destruct (UpdatePath owner pathID st) as [[] st1]. now apply Hsame.
  - pose proof (same_handles_emits _ (SetNodeExtraCost x z cost synced) st
                  (SetNodeExtraCost_emits x z cost synced)) as H.
    destruct (SetNodeExtraCost x z cost synced st) as [b st1]. now apply Hsame.
Qed.

(** C3.  [Store] issues [nextPathID + 1 (mod 2^32)].  As long as the counter
    stays below [2^32], the handles a sequence of calls issues (whatever is
    deleted in between) are the consecutive numbers after the counter: not 0,
    pairwise distinct, and larger than every handle issued before. *)
Theorem handles_issued_in_sequence (ops : list Op) st
    (Hok : registry_ok st)
    (Hroom : nextPathID st + Z.of_nat (length ops) < UINT_MOD) :
  let hs := fst (do_ops ops st) in
  let st' := snd (do_ops ops st) in
  (forall p, fst (Store p st) = wrap_uint (nextPathID st + 1)
             /\ nextPathID (snd (Store p st)) = fst (Store p st))
  /\ issued hs = seqZ (nextPathID st + 1) (nextPathID st' - nextPathID st)
  /\ NoDup (issued hs)
  /\ Forall (fun h => h <> 0 /\ nextPathID st < h <= nextPathID st') (issued hs)
  /\ registry_ok st'.
Proof.
  intros hs st'. subst hs st'.
  split; [now intros p|].
  assert (H : issued (fst (do_ops ops st))
              = seqZ (nextPathID st + 1)
                  (nextPathID (snd (do_ops ops st)) - nextPathID st)
              /\ nextPathID st <= nextPathID (snd (do_ops ops st))
                 <= nextPathID st + Z.of_nat (length ops)
              /\ registry_ok (snd (do_ops ops st))).
  { revert st Hok Hroom.
    induction ops as [|op ops IH]; intros st Hok Hroom.
    - simpl. rewrite Z.sub_diag. split; [reflexivity|]. split; [lia|exact Hok].
    - simpl (length _) in Hroom.
      destruct (do_op_handles op st Hok ltac:(lia)) as (Hok1 & Hn1 & Hs1).
      simpl. unfold bind, ret.
      destruct (do_op op st) as [hs1 st1]. simpl in Hok1, Hn1, Hs1.
      destruct (IH st1 Hok1 ltac:(lia)) as (Hs2 & Hn2 & Hok2).
      destruct (do_ops ops st1) as [hs2 st2]. simpl in *.
      rewrite issued_app, Hs1, Hs2.
      split; [|split; [lia|exact Hok2]].
      replace (nextPathID st2 - nextPathID st)
        with ((nextPathID st1 - nextPathID st) + (nextPathID st2 - nextPathID st1))
        by lia.
      rewrite seqZ_app by lia. do 2 f_equal. lia. }
  destruct H as (Hs & Hn & Hok').
  split; [exact Hs|]. split; [rewrite Hs; apply NoDup_seqZ|].
  split; [|exact Hok'].
  rewrite Hs. apply Forall_seqZ. intros h Hh.
  destruct Hok as [Hc _]. lia.
Qed.

(** ** Requests: the medium band *)

Lemma SFcompare_opp (a b : spec_float) :
  SFcompare b a = option_map CompOpp (SFcompare a b).
Proof.
  destruct a as [s1|s1| |s1 m1 e1], b as [s2|s2| |s2 m2 e2]; simpl;
    try reflexivity;
    try (destruct s1; reflexivity); try (destruct s2; reflexivity);
    try (destruct s1, s2; reflexivity).
  pose proof (Pos.compare_cont_antisym m1 m2 Eq) as H. simpl in H.
  destruct s1, s2; simpl; try reflexivity;
    rewrite (Z.compare_antisym e1 e2); destruct (e1 ?= e2); simpl;
    try reflexivity; now rewrite <- H.
Qed.

Lemma Float_leb_not_ltb (a b : float) :
  Float.leb a b = true -> Float.ltb b a = false.
Proof.
  unfold Float.leb, Float.ltb, SFleb, SFltb.
  rewrite (SFcompare_opp a b).
  now destruct (SFcompare a b) as [[]|].
Qed.

(** C5.  In the medium band ([DETAILED_DISTANCE <= goalDist2D <
    ESTIMATE_DISTANCE]) the searches of a request are, in this order: the
    medium-resolution estimator; then the fine search engine, if and only if
    that outcome is [CantGetCloser] and the squared 2D distance from start to
    goal exceeds the squared goal radius; then, if the result is not [Ok],
    the medium-resolution estimator again, with the constraint of the goal
    definition disabled.  The result of the last search made is the outcome
    and no other search is made. *)
Theorem RequestPath_medium_band (md : MoveDef) (startPos goalPos : float3)
    (caller : option CSolidObject) (synced : bool) (newPath : MultiPath) st
    (Hlo : Float.leb DETAILED_DISTANCE
             (goalDist2D (peDef newPath) startPos goalPos) = true)
    (Hhi : Float.ltb (goalDist2D (peDef newPath) startPos goalPos)
             ESTIMATE_DISTANCE = true) :
  let pfDef := peDef newPath in
  let budget := Z.shiftr MAX_SEARCHED_NODES_PE 3 in
  let budgetPF := Z.shiftr MAX_SEARCHED_NODES_PF 3 in
  let call1 :=
    CallPEGetPath medResPE md startPos pfDef (medResPath newPath) budget synced in
  let answer1 :=
    PE_GetPath (trace st) medResPE md startPos pfDef (medResPath newPath)
      budget synced in
  let fine := IPath.eqb (fst answer1) IPath.CantGetCloser
              && beyond_goalRadius pfDef startPos goalPos in
  let call2 :=
    CallPFGetPath md startPos pfDef (maxResPath newPath) true false budgetPF
      true caller synced in
  let answer2 :=
    PF_GetPath (trace st ++ [call1]) md startPos pfDef (maxResPath newPath)
      true false budgetPF true caller synced in
  let result2 := if fine then fst answer2 else fst answer1 in
  let calls2 := call1 :: (if fine then [call2] else []) in
  let relaxed := DisableConstraint true pfDef in
  let call3 :=
    CallPEGetPath medResPE md startPos relaxed (snd answer1) budget synced in
  let answer3 :=
    PE_GetPath (trace st ++ calls2) medResPE md startPos relaxed (snd answer1)
      budget synced in
  let retry := negb (IPath.eqb result2 IPath.Ok) in
  let r := RequestPath_search md startPos goalPos caller synced newPath st in
  snd r = add_trace (calls2 ++ (if retry then [call3] else [])) st
  /\ fst (fst r) = (if retry then fst answer3 else IPath.Ok)
  /\ peDef (snd (fst r)) = relaxed
  /\ medResPath (snd (fst r)) = (if retry then snd answer3 else snd answer1)
  /\ maxResPath (snd (fst r)) = (if fine then snd answer2 else maxResPath newPath)
  /\ lowResPath (snd (fst r)) = lowResPath newPath.
Proof.
  cbv zeta. unfold RequestPath_search.
  rewrite (Float_leb_not_ltb _ _ Hlo), Hhi.
  unfold RequestPath_medium, bind, medResPE_GetPath, maxResPF_GetPath,
    unless_Ok, disable_constraint, ret.
  destruct (PE_GetPath (trace st) medResPE md startPos (peDef newPath)
              (medResPath newPath) (Z.shiftr MAX_SEARCHED_NODES_PE 3) synced)
    as [r1 p1].
  cbn [fst snd peDef set_medResPath set_maxResPath set_peDef trace add_trace
       maxResPath medResPath lowResPath].
  destruct (IPath.eqb r1 IPath.CantGetCloser
            && beyond_goalRadius (peDef newPath) startPos goalPos) eqn:Efine.
  - destruct (PF_GetPath _ _ _ _ _ _ _ _ _ _ _) as [r2 p2].
    cbn [fst snd peDef set_medResPath set_maxResPath set_peDef trace add_trace
         maxResPath medResPath lowResPath].
    rewrite <- ?app_assoc. cbn [app].
    destruct (IPath.eqb r2 IPath.Ok) eqn:E2; cbn [negb].
    + apply SearchResult_eqb_eq in E2. subst r2. cbn.
      rewrite add_trace_app. repeat split; reflexivity.
    + cbn [trace add_trace]. rewrite <- ?app_assoc. cbn [app].
      destruct (PE_GetPath _ _ _ _ _ _ _ _) as [r3 p3]. cbn.
      rewrite !add_trace_app. repeat split; reflexivity.
  - cbn [fst snd peDef set_medResPath set_maxResPath set_peDef trace add_trace
         maxResPath medResPath lowResPath].
    destruct (IPath.eqb r1 IPath.Ok) eqn:E1; cbn [negb].
    + apply SearchResult_eqb_eq in E1. subst r1. cbn.
      repeat split; reflexivity.
    + destruct (PE_GetPath _ _ _ _ _ _ _ _) as [r3 p3]. cbn.
      rewrite !add_trace_app. repeat split; reflexivity.
Qed.

(** ** Heat deposit *)

Lemma fold_left_push_back {A} (l acc : list A) :
  fold_left (fun points a => Vec.push_back a points) l acc = rev l ++ acc.
Proof.
  revert acc. induction l as [|a l IH]; intros acc; simpl; [reflexivity|].
  rewrite IH. unfold Vec.push_back. now rewrite <- app_assoc.
Qed.

Lemma GetDetailedPathSquares_rev pathID st :
  GetDetailedPathSquares pathID st = rev (fine_squares pathID st).
Proof.
  unfold GetDetailedPathSquares, fine_squares, Vec.rbegin_to_rend.
  destruct (GetMultiPath pathID st); [|reflexivity].
  now rewrite fold_left_push_back, app_nil_r.
Qed.

(** The loop hands square [k] of those left the amount for the counter
    [i - k]: the counter does not wrap while it counts squares. *)
Lemma UpdatePath_loop_spec owner scale (its : list int2) :
  forall (i : Z) st,
    Z.of_nat (length its) <= i < UINT_MOD ->
    UpdatePath_loop owner scale i its st
    = (tt, add_trace
             (imap (fun k it =>
                      CallUpdateHeatValue (i2x it) (i2y it)
                        (Float.to_int
                           (Float.mul (Float.mul (Float.of_Z (i - Z.of_nat k)) scale)
                              (heatProduced (ownerMoveDef owner))))
                        owner) its)
             st).
Proof.
  induction its as [|it its IH]; intros i st Hi; simpl.
  - now rewrite add_trace_nil.
  - unfold bind, SetHeatOnSquare, emit. simpl length in Hi.
    assert (Ew : wrap_uint (i - 1) = i - 1).
    { unfold wrap_uint. apply Z.mod_small. lia. }
    rewrite Ew, IH by lia.
    rewrite add_trace_app. simpl. rewrite Z.sub_0_r.
    do 3 f_equal. apply imap_ext. intros k x _. simpl.
    do 5 f_equal. lia.
Qed.

(** C6.  [UpdatePath] deposits nothing for handle 0 and for an owner whose
    movement class opts out of heat mapping.  Otherwise it hands each of the
    [n] squares of the fine tier ([n < 2^32]) to the heat map, from the
    path's start on: square [k] with the amount
    [(n - k) * (1.0f / n) * heatProduced] converted to [int]. *)
Theorem UpdatePath_deposits (owner : CSolidObject) (pathID : Z) st
    (Hsize : Z.of_nat (length (fine_squares pathID st)) < UINT_MOD) :
  UpdatePath owner pathID st
  = (tt, if (pathID =? 0) || negb (heatMapping (ownerMoveDef owner)) then st
         else add_trace (heat_events owner (fine_squares pathID st)) st).
Proof.
  unfold UpdatePath.
  destruct (pathID =? 0); [reflexivity|].
  destruct (negb (heatMapping (ownerMoveDef owner))); [reflexivity|].
  rewrite GetDetailedPathSquares_rev. simpl.
  destruct (fine_squares pathID st) as [|sq sqs] eqn:E.
  - simpl. now rewrite add_trace_nil.
  - assert (Hne : Vec.empty (rev (sq :: sqs)) = false).
    { destruct (rev (sq :: sqs)) eqn:Er; [|reflexivity].
      apply (f_equal (@length _)) in Er. rewrite length_rev in Er. discriminate. }
    rewrite Hne. simpl negb. cbv iota.
    unfold Vec.begin_to_end, Vec.size. rewrite rev_involutive, length_rev.
    assert (Ew : wrap_uint (Z.of_nat (length (sq :: sqs)))
                 = Z.of_nat (length (sq :: sqs))).
    { unfold wrap_uint. apply Z.mod_small. lia. }
    rewrite Ew, UpdatePath_loop_spec by lia.
    reflexivity.
Qed.

(** ** The unblock/reblock discipline *)

Lemma bracket_run_app guarded (c : CSolidObject) evs1 evs2 (b : bool) :
  bracket_run guarded c b (evs1 ++ evs2)
  = match bracket_run guarded c b evs1 with
    | Some b' => bracket_run guarded c b' evs2
    | None => None
    end.
Proof.
  revert b. induction evs1 as [|e evs1 IH]; intros b; simpl; [reflexivity|].
  destruct e; simpl;
    repeat match goal with
           | |- context [if ?x then _ else _] => destruct x
           end; auto.
Qed.

(** Calls that are not guarded, and are neither [UnBlock] nor [Block], leave
    the reading where it is. *)
Lemma bracket_run_unguarded guarded (c : CSolidObject) evs (b : bool) :
  Forall (fun e => is_search e = true /\ guarded e = false) evs ->
  bracket_run guarded c b evs = Some b.
Proof.
  induction 1 as [|e evs [Hs Hg] _ IH]; simpl; [reflexivity|].
  destruct e; try discriminate; rewrite Hg; simpl; exact IH.
Qed.

(** Searches are allowed while the entity is unblocked. *)
Lemma bracket_run_unblocked guarded (c : CSolidObject) evs :
  Forall any_search evs ->
  bracket_run guarded c true evs = Some true.
Proof.
  induction 1 as [|e evs Hs _ IH]; simpl; [reflexivity|].
  unfold any_search in Hs.
  destruct e; try discriminate; rewrite andb_false_r; exact IH.
Qed.

Lemma bracketed_bracket guarded (c : CSolidObject) pre mid :
  Forall (fun e => is_search e = true /\ guarded e = false) pre ->
  Forall any_search mid ->
  bracket_run guarded c false (pre ++ [CallUnBlock c] ++ mid ++ [CallBlock c])
  = Some false.
Proof.
  intros Hpre Hmid.
  rewrite bracket_run_app, (bracket_run_unguarded _ _ _ _ Hpre).
  simpl. rewrite bool_decide_eq_true_2 by reflexivity. simpl.
  rewrite bracket_run_app, (bracket_run_unblocked _ _ _ Hmid).
  simpl. now rewrite bool_decide_eq_true_2 by reflexivity.
Qed.

Lemma MedRes2MaxRes_caller mp startPos owner synced st :
  caller (fst (MedRes2MaxRes mp startPos owner synced st)) = caller mp.
Proof.
  unfold MedRes2MaxRes, bind, maxResPF_GetPath, ret.
  destruct (Vec.empty (IPath.path (medResPath mp))); [reflexivity|].
  destruct (_ && _);
    destruct (PF_GetPath _ _ _ _ _ _ _ _ _ _ _) as [result p];
    destruct (no_refined_path result); reflexivity.
Qed.

Lemma LowRes2MedRes_caller mp startPos owner synced st :
  caller (fst (LowRes2MedRes mp startPos owner synced st)) = caller mp.
Proof.
  unfold LowRes2MedRes, bind, medResPE_GetPath, ret.
  destruct (Vec.empty (IPath.path (lowResPath mp))); [reflexivity|].
  destruct (Vec.empty _);
    destruct (PE_GetPath _ _ _ _ _ _ _ _) as [result p];
    destruct (no_refined_path result); reflexivity.
Qed.

(** Lines 337-345, after whatever [low] did to the medium tier. *)
Lemma refine_bracket_calls (low : M (@MultiPath Def)) mp callerPos owner synced st :
  emits estimator_search low ->
  (forall s, caller (fst (low s)) = caller mp) ->
  exists pre mid,
    Forall estimator_search pre /\ Forall fine_search mid
    /\ snd ((multiPath <- low ;;
             UnBlock (caller multiPath) ;;
             multiPath <- MedRes2MaxRes multiPath callerPos owner synced ;;
             Block (caller multiPath) ;;
             ret multiPath) st)
       = add_trace (pre ++ unblock_calls (caller mp) ++ mid
                        ++ block_calls (caller mp)) st
    /\ caller (fst ((multiPath <- low ;;
                     UnBlock (caller multiPath) ;;
                     multiPath <- MedRes2MaxRes multiPath callerPos owner synced ;;
                     Block (caller multiPath) ;;
                     ret multiPath) st)) = caller mp.
Proof.
  intros Hlow Hcal. unfold bind.
  destruct (Hlow st) as (pre & E1 & F1). specialize (Hcal st).
  destruct (low st) as [mp1 st1]. simpl in E1, Hcal. subst st1.
  rewrite UnBlock_trace, add_trace_app.
  destruct (MedRes2MaxRes_emits mp1 callerPos owner synced
              (add_trace (pre ++ unblock_calls (caller mp1)) st))
    as (mid & E2 & F2).
  pose proof (MedRes2MaxRes_caller mp1 callerPos owner synced
                (add_trace (pre ++ unblock_calls (caller mp1)) st)) as Hcal2.
  fold (unblock_calls (Def := Def) (caller mp1)).
  destruct (MedRes2MaxRes mp1 callerPos owner synced _) as [mp2 st2].
  simpl in E2, Hcal2. subst st2.
  rewrite Block_trace, add_trace_app. fold (block_calls (Def := Def) (caller mp2)).
  exists pre, mid. split; [exact F1|]. split; [exact F2|].
  simpl. rewrite Hcal2, Hcal. split; [|reflexivity].
  rewrite add_trace_app. now rewrite <- !app_assoc.
Qed.

(** The calls of the refinement step: the estimator search of
    [LowRes2MedRes], then [UnBlock], the fine search of [MedRes2MaxRes] and
    [Block]. *)
Lemma NextWayPoint_refine_calls mp callerPos owner synced st :
  exists pre mid,
    Forall estimator_search pre /\ Forall fine_search mid
    /\ snd (NextWayPoint_refine mp callerPos owner synced st)
       = add_trace
           (if refines mp callerPos
            then pre ++ unblock_calls (caller mp) ++ mid ++ block_calls (caller mp)
            else []) st
    /\ caller (fst (NextWayPoint_refine mp callerPos owner synced st)) = caller mp.
Proof.
  unfold NextWayPoint_refine, refines.
  destruct (needs_bettering (IPath.path (medResPath mp)) _ _ _).
  2:{ exists [], []. simpl. rewrite add_trace_nil. auto. }
  destruct (needs_bettering (IPath.path (lowResPath mp)) _ _ _).
  - apply refine_bracket_calls;
      [apply LowRes2MedRes_emits|apply LowRes2MedRes_caller].
  - apply refine_bracket_calls; [apply emits_ret|reflexivity].
Qed.

Lemma bracketed_refine_calls (c : CSolidObject) pre mid :
  Forall estimator_search pre -> Forall fine_search mid ->
  bracket_run is_fine_search c false
    (pre ++ [CallUnBlock c] ++ mid ++ [CallBlock c]) = Some false.
Proof.
  intros Hpre Hmid. apply bracketed_bracket.
  - exact Hpre.
  - eapply Forall_impl; [exact Hmid|]. apply fine_is_search.
Qed.

Lemma NextWayPoint_rec_bracketed (n : nat) pathID minDistance owner synced
    (c : CSolidObject) :
  forall callerPos numRetries st mp,
    GetMultiPath pathID st = Some mp -> caller mp = Some c ->
    exists evs,
      trace (snd (NextWayPoint_rec n pathID callerPos minDistance numRetries
                    owner synced st)) = trace st ++ evs
      /\ bracket_run is_fine_search c false evs = Some false.
Proof.
  induction n as [|n IH]; intros callerPos numRetries st mp Hrec Hc; simpl;
    unfold NextWayPoint_body;
    (destruct (pathID =? 0);
       [exists []; split; [now rewrite app_nil_r|reflexivity]|]);
    (destruct (numRetries >? 4);
       [exists []; split; [now rewrite app_nil_r|reflexivity]|]);
    rewrite Hrec; unfold bind;
    destruct (NextWayPoint_refine_calls mp (effective_callerPos mp callerPos)
                owner synced st) as (pre & mid & F1 & F2 & E & Hcal);
    (destruct (NextWayPoint_refine mp _ owner synced st) as [mp1 st1]);
    simpl in E, Hcal; rewrite Hc in E; subst st1;
    (destruct (NextWayPoint_loop mp1 _ minDistance _) as [exit rest]);
    simpl;
    set (evs0 := if refines mp (effective_callerPos mp callerPos)
                 then pre ++ unblock_calls (Some c) ++ mid ++ block_calls (Some c)
                 else []) in *;
    assert (B0 : bracket_run is_fine_search c false evs0 = Some false)
      by (subst evs0; destruct (refines mp _);
          [now apply bracketed_refine_calls|reflexivity]).
  - exists evs0. destruct exit; simpl; split; auto.
  - destruct exit; simpl; [exists evs0; split; auto|].
    match goal with
    | |- context [NextWayPoint_rec n ?a ?b ?d ?e ?f ?g ?s] =>
        assert (Et : trace s = trace st ++ evs0) by reflexivity;
        destruct (IH b e s
                    (set_maxResPath (IPath.set_path rest (maxResPath mp1)) mp1))
          as (evs1 & E1 & B1);
          [ unfold GetMultiPath; simpl; apply lookup_insert_eq
          | simpl; congruence
          | destruct (NextWayPoint_rec n a b d e f g s) as [w st3] ]
    end.
    simpl in *. exists (evs0 ++ evs1). rewrite E1, Et.
    split; [now rewrite app_assoc|].
    now rewrite bracket_run_app, B0.
Qed.

(** C8.  In a call of [NextWayPoint] on a record whose calling entity is
    [c], every search of the fine engine lies between [UnBlock] and [Block]
    of [c], and [c] is blocked again at the end.  The refinement step first
    runs the estimator search of [LowRes2MedRes], with [c] still blocked,
    then unblocks [c], runs the fine search of [MedRes2MaxRes] and blocks [c]
    again.  In [RequestPath] every search lies between [UnBlock] and [Block]
    of the caller. *)
Theorem NextWayPoint_fine_search_bracketed (pathID : Z) (callerPos : float3)
    (minDistance : float) (numRetries : Z) (owner : option CSolidObject)
    (synced : bool) st mp (c : CSolidObject)
    (Hrecord : GetMultiPath pathID st = Some mp)
    (Hcaller : caller mp = Some c) :
  (exists evs,
     trace (snd (NextWayPoint pathID callerPos minDistance numRetries owner
                   synced st)) = trace st ++ evs
     /\ bracketed is_fine_search c evs = true)
  /\ (forall pos st0,
        exists pre mid,
          Forall estimator_search pre /\ Forall fine_search mid
          /\ snd (NextWayPoint_refine mp pos owner synced st0)
             = add_trace
                 (if refines mp pos
                  then pre ++ [CallUnBlock c] ++ mid ++ [CallBlock c]
                  else []) st0)
  /\ (forall md startPos goalPos pfDef synced' st0,
        exists evs,
          trace (snd (RequestPath_pfDef md startPos goalPos pfDef (Some c)
                        synced' st0)) = trace st0 ++ evs
          /\ bracketed is_search c evs = true).
Proof.
  split; [|split].
  - destruct (NextWayPoint_rec_bracketed (Z.to_nat (4 - numRetries)) pathID
                minDistance owner synced c callerPos numRetries st mp
                Hrecord Hcaller) as (evs & E & B).
    exists evs. split; [exact E|]. unfold bracketed. now rewrite B.
  - intros pos st0.
    destruct (NextWayPoint_refine_calls mp pos owner synced st0)
      as (pre & mid & F1 & F2 & E & _).
    rewrite Hcaller in E. now exists pre, mid.
  - intros md startPos goalPos pfDef synced' st0.
    destruct (RequestPath_pfDef_spec md startPos goalPos pfDef (Some c) synced' st0)
      as (searches & evs' & F & ->).
    exists ([CallUnBlock c] ++ searches ++ [CallBlock c]).
    split.
    + cbv zeta. destruct (RequestPath_searched _ _ _ _ _ _ _) as [result np].
      now destruct (IPath.eqb result IPath.Error).
    + unfold bracketed.
      pose proof (bracketed_bracket is_search c [] searches (Forall_nil_2 _) F) as B.
      simpl in B |- *. now rewrite B.
Qed.

(** ** More on the registry *)

(** X1.  [DeletePath] removes the record of its handle and nothing else: the
    counter, the trace and every other record stay; handle 0 is never
    deleted, not even when a record is stored under it; deleting twice is
    deleting once. *)
Theorem DeletePath_removes_only (pathID : Z) st :
  let st' := snd (DeletePath pathID st) in
  nextPathID st' = nextPathID st
  /\ trace st' = trace st
  /\ (forall id, id <> pathID -> GetMultiPath id st' = GetMultiPath id st)
  /\ (pathID <> 0 -> GetMultiPath pathID st' = None)
  /\ (pathID = 0 -> st' = st)
  /\ DeletePath pathID st' = (tt, st').
Proof.
  unfold DeletePath, GetMultiPath.
  destruct (Z.eqb_spec pathID 0) as [->|Hne]; simpl.
  - repeat split; auto. intros H. now contradiction H.
  - destruct (pathMap st !! pathID) as [mp|] eqn:E; simpl.
    + split; [reflexivity|]. split; [reflexivity|].
      split; [intros id Hid; now apply lookup_delete_ne|].
      split; [intros _; apply lookup_delete_eq|].
      split; [intros H; now contradiction Hne|].
      now rewrite lookup_delete_eq.
    + repeat split; auto; try (intros H; now contradiction Hne).
      now rewrite E.
Qed.

(** X2.  A request followed by [DeletePath] of the handle it returned leaves
    the registry as it was before the request, whatever the outcome; only
    the counter remembers a successful request.  (The counter is below
    [2^32 - 1].) *)
Theorem RequestPath_then_DeletePath (md : MoveDef) (startPos goalPos : float3)
    (pfDef : Def) (caller : option CSolidObject) (synced : bool) st
    (Hok : registry_ok st) (Hroom : nextPathID st < UINT_MOD - 1) :
  let r := RequestPath_pfDef md startPos goalPos pfDef caller synced st in
  let st' := snd (DeletePath (fst r) (snd r)) in
  pathMap st' = pathMap st
  /\ nextPathID st'
     = (if IPath.eqb (RequestPath_outcome md startPos goalPos pfDef caller synced st)
             IPath.Error
        then nextPathID st else nextPathID st + 1)
  /\ GetMultiPath (fst r) st' = None.
Proof.
  intros r st'. subst r st'.
  pose proof (RequestPath_pfDef_handle md startPos goalPos pfDef caller synced st)
    as (HE & HS & HF). cbv zeta in HE, HS, HF.
  destruct (RequestPath_pfDef md startPos goalPos pfDef caller synced st)
    as [h st1]. simpl in HE, HS, HF |- *.
  destruct (IPath.eqb _ IPath.Error) eqn:E.
  - apply SearchResult_eqb_eq in E. destruct (HE E) as (-> & Hm & Hn).
    simpl. split; [exact Hm|]. split; [exact Hn|].
    unfold GetMultiPath. rewrite Hm.
    destruct (pathMap st !! 0) eqn:El; [|reflexivity].
    destruct Hok as [_ Hk]. apply Hk in El. lia.
  - assert (Hne : RequestPath_outcome md startPos goalPos pfDef caller synced st
                  <> IPath.Error).
    { intros H. rewrite H in E. discriminate. }
    destruct (HS Hne) as (_ & Hn & record & Hm & _).
    destruct (HF Hne Hok Hroom) as (Hid & Hnz & Hfresh).
    unfold DeletePath, GetMultiPath.
    destruct (Z.eqb_spec h 0) as [H0|_]; [contradiction|].
    rewrite Hm, lookup_insert_eq. simpl.
    rewrite delete_insert_eq, (delete_id _ _ Hfresh).
    split; [reflexivity|]. split; [congruence|exact Hfresh].
Qed.

(** ** More on the refinement *)

Lemma pop_while_near_suffix limit pos (v : list float3) :
  suffix (pop_while_near limit pos v) v.
Proof.
  induction v as [|b v IH]; simpl; [reflexivity|].
  destruct (Float.ltb _ _); [now apply suffix_cons_r|reflexivity].
Qed.

(** X3.  The loop that drops waypoints near the current position stops at
    the first waypoint that is not near: what it drops is a prefix of
    waypoints that are all within the limit, and what it leaves starts with
    a waypoint that is not (or is empty). *)
Theorem pop_while_near_spec (limit : float) (pos : float3) (v : list float3) :
  exists dropped,
    v = dropped ++ pop_while_near limit pos v
    /\ Forall (fun b => near limit pos b = true) dropped
    /\ match pop_while_near limit pos v with
       | [] => True
       | b :: _ => near limit pos b = false
       end.
Proof.
  induction v as [|b v (dropped & E & F & H)]; simpl.
  - exists []. repeat split. constructor.
  - destruct (Float.ltb (SqDistance2D b pos) limit) eqn:Eb.
    + exists (b :: dropped). simpl. split; [now f_equal|].
      split; [now constructor|exact H].
    + exists []. simpl. split; [reflexivity|]. split; [constructor|exact Eb].
Qed.

Lemma tail_shorter {A} (v : list A) (l : list A) :
  v <> [] -> suffix l (tail v) -> (length l < length v)%nat.
Proof.
  destruct v as [|a v]; [congruence|]. simpl. intros _ H.
  apply suffix_length in H. lia.
Qed.

(** X4.  [MedRes2MaxRes] does nothing on an empty medium tier.  Otherwise it
    drops at least one waypoint of the medium tier (its nearest, then those
    near [startPos]), makes exactly one search, of the fine engine (toward
    the nearest waypoint left, or with the record's own goal definition when
    the medium and the coarse tier are both used up), and puts the answer in
    the fine tier; when no refined path was found the fine tier's path goal
    is the target.  The cell sequence of the medium tier is not shortened
    with its waypoints, and the coarse tier and the rest of the record are
    untouched. *)
Theorem MedRes2MaxRes_step (mp : MultiPath) (startPos : float3)
    (owner : option CSolidObject) (synced : bool) st :
  let med := IPath.path (medResPath mp) in
  let left :=
    pop_while_near (Square (Float.mul DETAILED_DISTANCE SQUARE_SIZE)) startPos
      (tail med) in
  let goalPos :=
    match left with [] => IPath.pathGoal (medResPath mp) | b :: _ => b end in
  let def :=
    if Vec.empty left && Vec.empty (IPath.path (lowResPath mp)) then peDef mp
    else CRangedGoalWithCircularConstraint startPos goalPos Float.zero
           (Float.of_Z 2) 1000 in
  let budget := Z.shiftr MAX_SEARCHED_NODES_PF 3 in
  let call :=
    CallPFGetPath (moveDef mp) startPos def (maxResPath mp) true false budget
      true owner synced in
  let answer :=
    PF_GetPath (trace st) (moveDef mp) startPos def (maxResPath mp) true false
      budget true owner synced in
  let r := MedRes2MaxRes mp startPos owner synced st in
  if Vec.empty med then r = (mp, st)
  else
    snd r = add_trace [call] st
    /\ medResPath (fst r)
       = IPath.mkPath left (IPath.squares (medResPath mp))
           (IPath.pathGoal (medResPath mp))
    /\ (length left < length med)%nat /\ suffix left med
    /\ maxResPath (fst r)
       = (if no_refined_path (fst answer)
          then IPath.set_pathGoal goalPos (snd answer) else snd answer)
    /\ lowResPath (fst r) = lowResPath mp
    /\ same_request mp (fst r).
Proof.
  cbv zeta. unfold MedRes2MaxRes.
  destruct (IPath.path (medResPath mp)) as [|m med] eqn:Emed; [reflexivity|].
  cbn [Vec.empty Vec.pop_back tail].
  set (left := pop_while_near _ startPos med).
  assert (Hsuf : suffix left med) by apply pop_while_near_suffix.
  assert (Hgoal : refine_goal
                    (medResPath (set_medResPath
                                   (IPath.set_path left (medResPath mp)) mp))
                  = match left with
                    | [] => IPath.pathGoal (medResPath mp)
                    | b :: _ => b
                    end).
  { unfold refine_goal, Vec.back. simpl. now destruct left. }
  rewrite Hgoal.
  unfold bind, maxResPF_GetPath, ret.
  cbn [medResPath lowResPath maxResPath set_medResPath moveDef peDef
       IPath.path IPath.set_path].
  destruct (Vec.empty left && Vec.empty (IPath.path (lowResPath mp)));
    destruct (PF_GetPath _ _ _ _ _ _ _ _ _ _ _) as [result p];
    cbn [fst snd]; destruct (no_refined_path result); cbn;
    (split; [reflexivity|]); (split; [reflexivity|]);
    (split; [apply suffix_length in Hsuf; simpl; lia|]);
    (split; [now apply suffix_cons_r|]);
    repeat split; reflexivity.
Qed.

(** X5.  [LowRes2MedRes] does nothing on an empty coarse tier.  Otherwise it
    drops at least one waypoint of the coarse tier, makes exactly one search,
    of the medium estimator with the refinement budget (toward the nearest
    waypoint left, or with the record's own goal definition when the coarse
    tier is used up), and puts the answer in the medium tier; when no refined
    path was found the medium tier's path goal is the target.  The fine tier
    and the rest of the record are untouched. *)
Theorem LowRes2MedRes_step (mp : MultiPath) (startPos : float3)
    (owner : option CSolidObject) (synced : bool) st :
  let low := IPath.path (lowResPath mp) in
  let left :=
    pop_while_near (Square (Float.mul ESTIMATE_DISTANCE SQUARE_SIZE)) startPos
      (tail low) in
  let goalPos :=
    match left with [] => IPath.pathGoal (lowResPath mp) | b :: _ => b end in
  let def :=
    if Vec.empty left then peDef mp
    else CRangedGoalWithCircularConstraint startPos goalPos Float.zero
           (Float.of_Z 2) 20 in
  let call :=
    CallPEGetPath medResPE (moveDef mp) startPos def (medResPath mp)
      MAX_SEARCHED_NODES_ON_REFINE synced in
  let answer :=
    PE_GetPath (trace st) medResPE (moveDef mp) startPos def (medResPath mp)
      MAX_SEARCHED_NODES_ON_REFINE synced in
  let r := LowRes2MedRes mp startPos owner synced st in
  if Vec.empty low then r = (mp, st)
  else
    snd r = add_trace [call] st
    /\ lowResPath (fst r)
       = IPath.mkPath left (IPath.squares (lowResPath mp))
           (IPath.pathGoal (lowResPath mp))
    /\ (length left < length low)%nat /\ suffix left low
    /\ medResPath (fst r)
       = (if no_refined_path (fst answer)
          then IPath.set_pathGoal goalPos (snd answer) else snd answer)
    /\ maxResPath (fst r) = maxResPath mp
    /\ same_request mp (fst r).
Proof.
  cbv zeta. unfold LowRes2MedRes.
  destruct (IPath.path (lowResPath mp)) as [|m low] eqn:Elow; [reflexivity|].
  cbn [Vec.empty Vec.pop_back tail].
  set (left := pop_while_near _ startPos low).
  assert (Hsuf : suffix left low) by apply pop_while_near_suffix.
  assert (Hgoal : refine_goal
                    (lowResPath (set_lowResPath
                                   (IPath.set_path left (lowResPath mp)) mp))
                  = match left with
                    | [] => IPath.pathGoal (lowResPath mp)
                    | b :: _ => b
                    end).
  { unfold refine_goal, Vec.back. simpl. now destruct left. }
  rewrite Hgoal.
  unfold bind, medResPE_GetPath, ret.
  cbn [medResPath lowResPath maxResPath set_lowResPath moveDef peDef
       IPath.path IPath.set_path].
  destruct (Vec.empty left);
    destruct (PE_GetPath _ _ _ _ _ _ _ _) as [result p];
    cbn [fst snd]; destruct (no_refined_path result); cbn;
    (split; [reflexivity|]); (split; [reflexivity|]);
    (split; [apply suffix_length in Hsuf; simpl; lia|]);
    (split; [now apply suffix_cons_r|]);
    repeat split; reflexivity.
Qed.

Lemma same_request_refl mp : same_request mp mp.
Proof. repeat split. Qed.

Lemma same_request_trans mp1 mp2 mp3 :
  same_request mp1 mp2 -> same_request mp2 mp3 -> same_request mp1 mp3.
Proof.
  intros (A1 & A2 & A3 & A4 & A5 & A6) (B1 & B2 & B3 & B4 & B5 & B6).
  repeat split; congruence.
Qed.

Lemma MedRes2MaxRes_same_request mp startPos owner synced st :
  same_request mp (fst (MedRes2MaxRes mp startPos owner synced st)).
Proof.
  unfold MedRes2MaxRes, bind, maxResPF_GetPath, ret.
  destruct (Vec.empty (IPath.path (medResPath mp))); [apply same_request_refl|].
  destruct (_ && _);
    destruct (PF_GetPath _ _ _ _ _ _ _ _ _ _ _) as [result p];
    destruct (no_refined_path result); repeat split.
Qed.

Lemma LowRes2MedRes_same_request mp startPos owner synced st :
  same_request mp (fst (LowRes2MedRes mp startPos owner synced st)).
Proof.
  unfold LowRes2MedRes, bind, medResPE_GetPath, ret.
  destruct (Vec.empty (IPath.path (lowResPath mp))); [apply same_request_refl|].
  destruct (Vec.empty _);
    destruct (PE_GetPath _ _ _ _ _ _ _ _) as [result p];
    destruct (no_refined_path result); repeat split.
Qed.

Lemma refine_bracket_same_request (low : M (@MultiPath Def)) mp callerPos
    owner synced st :
  (forall s, same_request mp (fst (low s))) ->
  same_request mp
    (fst ((multiPath <- low ;;
           UnBlock (caller multiPath) ;;
           multiPath <- MedRes2MaxRes multiPath callerPos owner synced ;;
           Block (caller multiPath) ;;
           ret multiPath) st)).
Proof.
  intros Hlow. unfold bind. specialize (Hlow st).
  destruct (low st) as [mp1 st1]. simpl in Hlow.
  destruct (UnBlock (caller mp1) st1) as [[] st2].
  pose proof (MedRes2MaxRes_same_request mp1 callerPos owner synced st2) as H2.
  destruct (MedRes2MaxRes mp1 callerPos owner synced st2) as [mp2 st3].
  destruct (Block (caller mp2) st3) as [[] st4]. simpl in *.
  eapply same_request_trans; eauto.
Qed.

Lemma NextWayPoint_refine_same_request mp callerPos owner synced st :
  same_request mp (fst (NextWayPoint_refine mp callerPos owner synced st)).
Proof.
  unfold NextWayPoint_refine.
  destruct (needs_bettering (IPath.path (medResPath mp)) _ _ _);
    [|apply same_request_refl].
  destruct (needs_bettering (IPath.path (lowResPath mp)) _ _ _);
    apply refine_bracket_same_request; intros s;
    [apply LowRes2MedRes_same_request|apply same_request_refl].
Qed.

(** ** More on next-waypoint delivery *)

(** X6.  Every position [NextWayPoint] returns, the no-path point included,
    has the vertical component [0.0f]. *)
Theorem NextWayPoint_on_the_ground (pathID : Z) (callerPos : float3)
    (minDistance : float) (numRetries : Z) (owner : option CSolidObject)
    (synced : bool) st :
  f3y (fst (NextWayPoint pathID callerPos minDistance numRetries owner synced st))
  = Float.zero.
Proof.
  unfold NextWayPoint.
  destruct (Z.to_nat (4 - numRetries)); simpl; unfold NextWayPoint_body;
    (destruct (pathID =? 0); [reflexivity|]);
    (destruct (numRetries >? 4); [reflexivity|]);
    (destruct (GetMultiPath pathID st) as [mp|]; [|reflexivity]);
    unfold bind;
    (destruct (NextWayPoint_refine mp _ owner synced st) as [mp1 st1]);
    (destruct (NextWayPoint_loop mp1 _ minDistance _) as [exit rest]);
    simpl; destruct exit; simpl; try reflexivity.
  now destruct (NextWayPoint_rec _ _ _ _ _ _ _ _).
Qed.

Lemma touches_only_refl pathID st : touches_only pathID st st.
Proof.
  split; [reflexivity|]. split; [reflexivity|].
  destruct (GetMultiPath pathID st) as [mp|] eqn:E; [|reflexivity].
  exists mp. split; [reflexivity|apply same_request_refl].
Qed.

Lemma touches_only_trans pathID st1 st2 st3 :
  touches_only pathID st1 st2 -> touches_only pathID st2 st3 ->
  touches_only pathID st1 st3.
Proof.
  intros (A1 & A2 & A3) (B1 & B2 & B3).
  split; [congruence|]. split; [intros id H; rewrite B2, A2; auto|].
  destruct (GetMultiPath pathID st1) as [mp1|].
  - destruct A3 as (mp2 & E2 & S2). rewrite E2 in B3.
    destruct B3 as (mp3 & E3 & S3). exists mp3.
    split; [exact E3|]. eapply same_request_trans; eauto.
  - now rewrite A3 in B3.
Qed.

Lemma touches_only_add_trace pathID evs st :
  touches_only pathID st (add_trace evs st).
Proof.
  split; [reflexivity|]. split; [reflexivity|].
  unfold GetMultiPath. simpl.
  destruct (pathMap st !! pathID) as [mp|] eqn:E; [|reflexivity].
  exists mp. split; [reflexivity|]. repeat split.
Qed.

Lemma touches_only_write_back pathID mp mp' st :
  GetMultiPath pathID st = Some mp -> same_request mp mp' ->
  touches_only pathID st (snd (write_back pathID mp' st)).
Proof.
  intros E S. split; [reflexivity|].
  split; [intros id H; unfold GetMultiPath; simpl; now apply lookup_insert_ne|].
  rewrite E. exists mp'. split; [|exact S].
  unfold GetMultiPath. simpl. apply lookup_insert_eq.
Qed.

Lemma NextWayPoint_rec_touches_only (n : nat) pathID minDistance owner synced :
  forall callerPos numRetries st,
    touches_only pathID st
      (snd (NextWayPoint_rec n pathID callerPos minDistance numRetries owner
              synced st)).
Proof.
  induction n as [|n IH]; intros callerPos numRetries st; simpl;
    unfold NextWayPoint_body;
    (destruct (pathID =? 0); [apply touches_only_refl|]);
    (destruct (numRetries >? 4); [apply touches_only_refl|]);
    (destruct (GetMultiPath pathID st) as [mp|] eqn:El; [|apply touches_only_refl]);
    unfold bind;
    pose proof (NextWayPoint_refine_emits mp (effective_callerPos mp callerPos)
                  owner synced st) as (evs & E & _);
    pose proof (NextWayPoint_refine_same_request mp
                  (effective_callerPos mp callerPos) owner synced st) as Hs;
    (destruct (NextWayPoint_refine mp _ owner synced st) as [mp1 st1]);
    simpl in E, Hs; subst st1;
    (destruct (NextWayPoint_loop mp1 _ minDistance _) as [exit rest]);
    (eapply touches_only_trans; [apply (touches_only_add_trace pathID evs)|]);
    (eapply touches_only_trans;
       [eapply (touches_only_write_back pathID mp
                  (set_maxResPath (IPath.set_path rest (maxResPath mp1)) mp1));
        [exact El|destruct Hs as (?&?&?&?&?&?); repeat split; assumption]|]);
    simpl; destruct exit; simpl; try apply touches_only_refl.
  match goal with
  | |- context [NextWayPoint_rec n ?a ?b ?c ?d ?e ?f ?s] =>
      pose proof (IH b d s) as H;
      destruct (NextWayPoint_rec n a b c d e f s) as [w s']
  end.
  exact H.
Qed.

(** X7.  [NextWayPoint] changes the registry at most in the three tiers of
    the record of its handle: the counter, every other record, and that
    record's start, goal, caller, goal definition, movement class and outcome
    stay as they are; no record is added or removed. *)
Theorem NextWayPoint_touches_only (pathID : Z) (callerPos : float3)
    (minDistance : float) (numRetries : Z) (owner : option CSolidObject)
    (synced : bool) st :
  touches_only pathID st
    (snd (NextWayPoint pathID callerPos minDistance numRetries owner synced st)).
Proof. apply NextWayPoint_rec_touches_only. Qed.

Lemma registry_same pathID mp st (rest : list float3) :
  GetMultiPath pathID st = Some mp ->
  IPath.path (maxResPath mp) = rest ->
  set_pathMap
    (<[pathID := set_maxResPath (IPath.set_path rest (maxResPath mp)) mp]>
       (pathMap st)) st = st.
Proof.
  intros E <-. unfold set_pathMap.
  destruct mp as [s g c d m r [p sq pg] med low]. simpl.
  unfold GetMultiPath in E. rewrite (insert_id _ _ _ E). now destruct st.
Qed.

Lemma needs_bettering_nil finer callerPos limit :
  needs_bettering [] finer callerPos limit = false.
Proof. reflexivity. Qed.

Lemma NextWayPoint_refine_without_medium mp callerPos owner synced st :
  IPath.path (medResPath mp) = [] ->
  NextWayPoint_refine mp callerPos owner synced st = (mp, st).
Proof. intros H. unfold NextWayPoint_refine. now rewrite H. Qed.

Lemma NextWayPoint_loop_suffix mp callerPos minDistance (pts : list float3) :
  suffix (snd (NextWayPoint_loop mp callerPos minDistance pts)) pts.
Proof.
  induction pts as [|w pts IH]; simpl.
  - destruct (_ && _); [destruct (IPath.eqb _ _)|]; reflexivity.
  - destruct (_ && _); [now apply suffix_cons_r|].
    simpl. now apply suffix_cons_r.
Qed.

Lemma NextWayPoint_loop_Retry mp callerPos minDistance (pts : list float3) :
  fst (NextWayPoint_loop mp callerPos minDistance pts) = Retry ->
  snd (NextWayPoint_loop mp callerPos minDistance pts) = []
  /\ Vec.empty (IPath.path (lowResPath mp))
     && Vec.empty (IPath.path (medResPath mp)) = false.
Proof.
  induction pts as [|w pts IH]; simpl.
  - destruct (_ && _); [destruct (IPath.eqb _ _); discriminate|auto].
  - destruct (Float.ltb _ _ && _); [exact IH|discriminate].
Qed.

(** A record with nothing in its fine tier and something in a coarser tier,
    which is not refined: every level of the recursion retries, the last one
    gives up. *)
Lemma NextWayPoint_rec_gives_up (n : nat) pathID minDistance owner synced :
  forall callerPos numRetries st mp,
    GetMultiPath pathID st = Some mp ->
    IPath.path (maxResPath mp) = [] ->
    IPath.path (medResPath mp) = [] ->
    Vec.empty (IPath.path (lowResPath mp)) = false ->
    NextWayPoint_rec n pathID callerPos minDistance numRetries owner synced st
    = (noPathPoint, st).
Proof.
  induction n as [|n IH]; intros callerPos numRetries st mp El Hmax Hmed Hlow;
    simpl; unfold NextWayPoint_body;
    (destruct (pathID =? 0); [reflexivity|]);
    (destruct (numRetries >? 4); [reflexivity|]);
    rewrite El; unfold bind;
    rewrite (NextWayPoint_refine_without_medium _ _ _ _ _ Hmed);
    rewrite Hmax; simpl; rewrite Hlow; simpl;
    rewrite (registry_same _ _ _ _ El Hmax).
  - reflexivity.
  - now rewrite (IH _ _ _ mp El Hmax Hmed Hlow).
Qed.

(** X8.  On a record whose three tiers are all used up [NextWayPoint] returns
    the final goal (on the ground) when the record's outcome is [Ok] and the
    no-path point otherwise; it calls nobody and changes nothing. *)
Theorem NextWayPoint_exhausted (pathID : Z) (callerPos : float3)
    (minDistance : float) (numRetries : Z) (owner : option CSolidObject)
    (synced : bool) st mp
    (Hid : pathID <> 0) (Hretries : numRetries <= 4)
    (Hrecord : GetMultiPath pathID st = Some mp)
    (Hmax : IPath.path (maxResPath mp) = [])
    (Hmed : IPath.path (medResPath mp) = [])
    (Hlow : IPath.path (lowResPath mp) = []) :
  NextWayPoint pathID callerPos minDistance numRetries owner synced st
  = (if IPath.eqb (searchResult mp) IPath.Ok then ground (finalGoal mp)
     else noPathPoint, st).
Proof.
  unfold NextWayPoint.
  destruct (Z.to_nat (4 - numRetries)); simpl; unfold NextWayPoint_body;
    (destruct (Z.eqb_spec pathID 0); [contradiction|]);
    (destruct (Z.gtb_spec numRetries 4); [lia|]);
    rewrite Hrecord; unfold bind;
    rewrite (NextWayPoint_refine_without_medium _ _ _ _ _ Hmed);
    rewrite Hmax; simpl; rewrite Hlow, Hmed; simpl;
    destruct (IPath.eqb (searchResult mp) IPath.Ok); simpl;
    now rewrite (registry_same _ _ _ _ Hrecord Hmax).
Qed.

(** X9.  On a record whose medium tier is empty [NextWayPoint] never refines:
    it calls nobody, pops waypoints off the fine tier by one pass of its
    loop, and returns the waypoint the loop ends with, on the ground; when
    the loop uses the fine tier up while the coarse tier still has waypoints,
    all retries fail and the result is the no-path point.  Only the
    waypoints of the fine tier are popped: its cell sequence stays as it
    was. *)
Theorem NextWayPoint_without_medium_tier (pathID : Z) (callerPos : float3)
    (minDistance : float) (numRetries : Z) (owner : option CSolidObject)
    (synced : bool) st mp
    (Hid : pathID <> 0) (Hretries : numRetries <= 4)
    (Hrecord : GetMultiPath pathID st = Some mp)
    (Hmed : IPath.path (medResPath mp) = []) :
  let pos := effective_callerPos mp callerPos in
  let popped :=
    NextWayPoint_loop mp pos minDistance (IPath.path (maxResPath mp)) in
  let st' :=
    set_pathMap
      (<[pathID := set_maxResPath
                     (IPath.set_path (snd popped) (maxResPath mp)) mp]>
         (pathMap st)) st in
  NextWayPoint pathID callerPos minDistance numRetries owner synced st
  = (ground (match fst popped with Waypoint w => w | Retry => noPathPoint end),
     st')
  /\ trace st' = trace st
  /\ suffix (snd popped) (IPath.path (maxResPath mp))
  /\ fine_squares pathID st' = fine_squares pathID st.
Proof.
  intros pos popped st'.
  split; [|split; [reflexivity|split; [apply NextWayPoint_loop_suffix|]]].
  2:{ unfold fine_squares, GetMultiPath, st'. simpl.
      rewrite lookup_insert_eq. unfold GetMultiPath in Hrecord.
      now rewrite Hrecord. }
  assert (Hstep : forall retry,
            (fst popped = Retry -> retry pos st' = (noPathPoint, st')) ->
            NextWayPoint_body retry pathID callerPos minDistance numRetries
              owner synced st
            = (ground (match fst popped with
                       | Waypoint w => w
                       | Retry => noPathPoint
                       end), st')).
  { intros retry Hretry. unfold NextWayPoint_body.
    destruct (Z.eqb_spec pathID 0); [contradiction|].
    destruct (Z.gtb_spec numRetries 4); [lia|].
    rewrite Hrecord. unfold bind.
    rewrite (NextWayPoint_refine_without_medium _ _ _ _ _ Hmed).
    fold pos. fold popped. destruct popped as [exit rest] eqn:Ep.
    subst st'. simpl in Hretry |- *. destruct exit; [reflexivity|].
    now rewrite (Hretry eq_refl). }
  assert (Hstuck : forall n nr,
            fst popped = Retry ->
            NextWayPoint_rec n pathID pos minDistance nr owner synced st'
            = (noPathPoint, st')).
  { intros n nr HR.
    destruct (NextWayPoint_loop_Retry _ _ _ _ HR) as [Hrest Hcoarse].
    fold popped in Hrest. rewrite Hmed in Hcoarse. simpl in Hcoarse.
    rewrite andb_true_r in Hcoarse.
    apply (NextWayPoint_rec_gives_up n pathID minDistance owner synced pos nr st'
             (set_maxResPath (IPath.set_path (snd popped) (maxResPath mp)) mp)).
    - unfold GetMultiPath, st'. simpl. apply lookup_insert_eq.
    - simpl. exact Hrest.
    - simpl. exact Hmed.
    - simpl. exact Hcoarse. }
  unfold NextWayPoint.
  destruct (Z.to_nat (4 - numRetries)); simpl; apply Hstep; intros HR.
  - reflexivity.
  - now apply Hstuck.
Qed.

(** X22.  The loop of [NextWayPoint] skips the waypoints of the fine tier
    that are closer to the caller than [minDistance] and are not the tier's
    path goal, and delivers the first waypoint that is far enough or is the
    path goal, leaving the waypoints behind it in the tier.  When it skips
    the whole tier, it delivers the final goal (outcome [Ok]) or the no-path
    point (any other outcome) if the other two tiers are empty as well, and
    goes on to the recursive call if not. *)
Theorem NextWayPoint_loop_spec (mp : @MultiPath Def) (callerPos : float3)
    (minDistance : float) (pts : list float3) :
  let skip (w : float3) :=
    Float.ltb (SqDistance2D callerPos w) (Square minDistance)
    && float3_ne w (IPath.pathGoal (maxResPath mp)) in
  let r := NextWayPoint_loop mp callerPos minDistance pts in
  exists skipped,
    Forall (fun w => skip w = true) skipped
    /\ (match fst r with
        | Waypoint w =>
            (pts = skipped ++ w :: snd r /\ skip w = false)
            \/ (pts = skipped /\ snd r = []
                /\ IPath.path (lowResPath mp) = []
                /\ IPath.path (medResPath mp) = []
                /\ w = if IPath.eqb (searchResult mp) IPath.Ok
                       then finalGoal mp else noPathPoint)
        | Retry =>
            pts = skipped /\ snd r = []
            /\ (IPath.path (lowResPath mp) <> []
                \/ IPath.path (medResPath mp) <> [])
        end).
Proof.
  cbv zeta. induction pts as [|w pts (skipped & F & H)]; cbn [NextWayPoint_loop].
  - exists []. split; [constructor|].
    destruct (IPath.path (lowResPath mp)) as [|l ls];
      destruct (IPath.path (medResPath mp)) as [|m ms];
      cbn [Vec.empty andb].
    + destruct (IPath.eqb _ _); cbn [fst snd]; right; repeat split.
    + cbn [fst snd]. repeat split. now right.
    + cbn [fst snd]. repeat split. now left.
    + cbn [fst snd]. repeat split. now left.
  - destruct (Float.ltb (SqDistance2D callerPos w) (Square minDistance)
              && float3_ne w (IPath.pathGoal (maxResPath mp))) eqn:E.
    + exists (w :: skipped). split; [now constructor|].
      destruct (NextWayPoint_loop mp callerPos minDistance pts) as [exit rest].
      cbn [fst snd] in H |- *. destruct exit as [w0|].
      * destruct H as [[-> Hs]|(-> & Hr & Hl & Hm & Hw)];
          [left; split; [reflexivity|exact Hs]|right; repeat split; assumption].
      * destruct H as (-> & Hr & Ht). repeat split; assumption.
    + exists []. split; [constructor|]. cbn. left. split; [reflexivity|exact E].
Qed.

(** ** How many searches a call makes *)

Lemma search_count_app evs1 evs2 :
  search_count (evs1 ++ evs2) = (search_count evs1 + search_count evs2)%nat.
Proof.
  unfold search_count. induction evs1 as [|e evs1 IH]; simpl; [reflexivity|].
  destruct (is_search e); simpl; now rewrite IH.
Qed.

Lemma search_count_le evs : (search_count evs <= length evs)%nat.
Proof.
  unfold search_count. induction evs as [|e evs IH]; simpl; [lia|].
  destruct (is_search e); simpl; lia.
Qed.

Lemma search_count_unblock (c : option CSolidObject) :
  search_count (unblock_calls (Def := Def) c) = 0%nat.
Proof. now destruct c. Qed.

Lemma search_count_block (c : option CSolidObject) :
  search_count (block_calls (Def := Def) c) = 0%nat.
Proof. now destruct c. Qed.

Lemma calls_between_ret {A} Q (a : A) : calls_between 0 0 Q (ret a : M A).
Proof.
  intros st. exists []. simpl. rewrite add_trace_nil.
  split; [reflexivity|]. split; [constructor|lia].
Qed.

Lemma calls_between_bind {A B} (l1 h1 l2 h2 l h : nat) Q (m : M A)
    (k : A -> M B) :
  l = (l1 + l2)%nat -> h = (h1 + h2)%nat ->
  calls_between l1 h1 Q m -> (forall a, calls_between l2 h2 Q (k a)) ->
  calls_between l h Q (bind m k).
Proof.
  intros -> -> Hm Hk st. unfold bind.
  destruct (Hm st) as (evs1 & E1 & F1 & B1).
  destruct (m st) as [a st1]; simpl in E1; subst st1.
  destruct (Hk a (add_trace evs1 st)) as (evs2 & E2 & F2 & B2).
  exists (evs1 ++ evs2). rewrite E2, add_trace_app.
  split; [reflexivity|]. split; [now apply Forall_app|].
  rewrite length_app. lia.
Qed.

Lemma calls_between_weaken {A} (l h l' h' : nat) (Q Q' : Event Def -> Prop)
    (m : M A) :
  (l' <= l)%nat -> (h <= h')%nat -> (forall e, Q e -> Q' e) ->
  calls_between l h Q m -> calls_between l' h' Q' m.
Proof.
  intros Hl Hh HQ Hm st. destruct (Hm st) as (evs & E & F & B).
  exists evs. split; [exact E|]. split; [eapply Forall_impl; eauto|lia].
Qed.

Lemma calls_between_if {A} (l h : nat) Q (b : bool) (m1 m2 : M A) :
  calls_between l h Q m1 -> calls_between l h Q m2 ->
  calls_between l h Q (if b then m1 else m2).
Proof. now destruct b. Qed.

Lemma maxResPF_GetPath_calls md startPos def owner synced mp :
  calls_between 1 1 fine_search (maxResPF_GetPath md startPos def owner synced mp).
Proof.
  intros st. unfold maxResPF_GetPath.
  destruct (PF_GetPath _ _ _ _ _ _ _ _ _ _ _) as [result p].
  eexists [_]. split; [reflexivity|]. split; [repeat constructor|simpl; lia].
Qed.

Lemma medResPE_GetPath_calls md startPos def maxNodes synced mp :
  calls_between 1 1 estimator_search
    (medResPE_GetPath md startPos def maxNodes synced mp).
Proof.
  intros st. unfold medResPE_GetPath.
  destruct (PE_GetPath _ _ _ _ _ _ _ _) as [result p].
  eexists [_]. split; [reflexivity|]. split; [repeat constructor|simpl; lia].
Qed.

Lemma lowResPE_GetPath_calls md startPos def maxNodes synced mp :
  calls_between 1 1 estimator_search
    (lowResPE_GetPath md startPos def maxNodes synced mp).
Proof.
  intros st. unfold lowResPE_GetPath.
  destruct (PE_GetPath _ _ _ _ _ _ _ _) as [result p].
  eexists [_]. split; [reflexivity|]. split; [repeat constructor|simpl; lia].
Qed.

Ltac one_search :=
  first
    [ eapply calls_between_weaken;
      [| |apply fine_is_search|apply maxResPF_GetPath_calls]; lia
    | eapply calls_between_weaken;
      [| |apply estimator_is_search|apply medResPE_GetPath_calls]; lia
    | eapply calls_between_weaken;
      [| |apply estimator_is_search|apply lowResPE_GetPath_calls]; lia ].

Lemma calls_between_none {A} (h : nat) Q (a : A) :
  calls_between 0 h Q (ret a : M A).
Proof.
  eapply (calls_between_weaken 0 0 0 h Q Q); [lia|lia|auto|apply calls_between_ret].
Qed.

Ltac no_search := apply calls_between_none.

Lemma MedRes2MaxRes_calls mp startPos owner synced :
  calls_between 0 1 any_search (MedRes2MaxRes mp startPos owner synced).
Proof.
  unfold MedRes2MaxRes.
  destruct (Vec.empty (IPath.path (medResPath mp))); [no_search|].
  cbv zeta; apply (calls_between_bind 0 1 0 0 _ _ _ _ _ eq_refl eq_refl).
  - apply calls_between_if; one_search.
  - intros [result mp']. apply calls_between_if; no_search.
Qed.

Lemma LowRes2MedRes_calls mp startPos owner synced :
  calls_between 0 1 any_search (LowRes2MedRes mp startPos owner synced).
Proof.
  unfold LowRes2MedRes.
  destruct (Vec.empty (IPath.path (lowResPath mp))); [no_search|].
  cbv zeta; apply (calls_between_bind 0 1 0 0 _ _ _ _ _ eq_refl eq_refl).
  - apply calls_between_if; one_search.
  - intros [result mp']. apply calls_between_if; no_search.
Qed.

Lemma unless_Ok_calls result mp search :
  (forall mp', calls_between 1 1 any_search (search mp')) ->
  calls_between 0 1 any_search (unless_Ok result mp search).
Proof.
  intros H. unfold unless_Ok. apply calls_between_if; [|no_search].
  eapply (calls_between_weaken 1 1 0 1 any_search any_search);
    [lia|lia|auto|apply H].
Qed.

Lemma RequestPath_search_calls md startPos goalPos caller synced mp :
  calls_between 1 4 any_search
    (RequestPath_search md startPos goalPos caller synced mp).
Proof.
  unfold RequestPath_search.
  repeat apply calls_between_if.
  - unfold RequestPath_short.
    cbv zeta; apply (calls_between_bind 1 1 0 3 _ _ _ _ _ eq_refl eq_refl); [one_search|intros [r1 mp1]].
    cbv zeta; apply (calls_between_bind 0 1 0 2 _ _ _ _ _ eq_refl eq_refl);
      [apply unless_Ok_calls; intros; one_search|intros [r2 mp2]].
    eapply (calls_between_weaken 0 1 0 _ any_search any_search);
      [lia|lia|auto|apply unless_Ok_calls; intros; one_search].
  - unfold RequestPath_medium.
    cbv zeta; apply (calls_between_bind 1 1 0 3 _ _ _ _ _ eq_refl eq_refl); [one_search|intros [r1 mp1]].
    cbv zeta; apply (calls_between_bind 0 1 0 2 _ _ _ _ _ eq_refl eq_refl);
      [apply calls_between_if; [one_search|no_search]|intros [r2 mp2]].
    eapply (calls_between_weaken 0 1 0 _ any_search any_search);
      [lia|lia|auto|apply unless_Ok_calls; intros; one_search].
  - unfold RequestPath_long.
    cbv zeta; apply (calls_between_bind 1 1 0 3 _ _ _ _ _ eq_refl eq_refl); [one_search|intros [r1 mp1]].
    cbv zeta; apply (calls_between_bind 0 2 0 1 _ _ _ _ _ eq_refl eq_refl);
      [|intros [r2 mp2]; apply unless_Ok_calls; intros; one_search].
    apply calls_between_if; [|no_search].
    cbv zeta; apply (calls_between_bind 0 1 0 1 _ _ _ _ _ eq_refl eq_refl); [one_search|intros [r2 mp2]].
    apply calls_between_if; [one_search|no_search].
Qed.

(** What completing and storing the record adds to the trace: the two
    refinements, unless the outcome is [Error] or [CantGetCloser]. *)
Lemma RequestPath_finish_calls result startPos caller synced newPath st :
  exists evs,
    trace (snd (RequestPath_finish result startPos caller synced newPath st))
    = trace st ++ evs
    /\ Forall any_search evs
    /\ (length evs <= 2)%nat
    /\ (IPath.eqb result IPath.Error || IPath.eqb result IPath.CantGetCloser = true
        -> evs = []).
Proof.
  unfold RequestPath_finish.
  destruct (IPath.eqb result IPath.Error); simpl.
  { exists []. rewrite app_nil_r. repeat split; auto. }
  destruct (IPath.eqb result IPath.CantGetCloser); simpl.
  { exists []. unfold bind, ret, Store. simpl. rewrite app_nil_r.
    repeat split; auto. }
  assert (H : calls_between 0 2 any_search
                (bind (LowRes2MedRes newPath startPos caller synced)
                   (fun newPath => MedRes2MaxRes newPath startPos caller synced))).
  { cbv zeta; apply (calls_between_bind 0 1 0 1 _ _ _ _ _ eq_refl eq_refl);
      [apply LowRes2MedRes_calls|intros; apply MedRes2MaxRes_calls]. }
  destruct (H st) as (evs & E & F & B). exists evs.
  unfold bind at 1.
  destruct (bind (LowRes2MedRes newPath startPos caller synced) _ st)
    as [np st'].
  simpl in E. subst st'. simpl.
  split; [reflexivity|]. split; [exact F|]. split; [lia|discriminate].
Qed.

(** X10.  A request makes at least one search and at most six: up to four
    while it looks for a path and up to two refinements; when the outcome is
    [Error] or [CantGetCloser] nothing is refined and there are at most four.
    Its calls are [UnBlock] of the caller, the searches, and [Block] of the
    caller, in this order, whatever the outcome. *)
Theorem RequestPath_search_count (md : MoveDef) (startPos goalPos : float3)
    (pfDef : Def) (caller : option CSolidObject) (synced : bool) st :
  exists searches,
    trace (snd (RequestPath_pfDef md startPos goalPos pfDef caller synced st))
    = trace st ++ unblock_calls caller ++ searches ++ block_calls caller
    /\ Forall any_search searches
    /\ (1 <= length searches <= 6)%nat
    /\ (let outcome :=
          RequestPath_outcome md startPos goalPos pfDef caller synced st in
        IPath.eqb outcome IPath.Error || IPath.eqb outcome IPath.CantGetCloser
        = true -> (length searches <= 4)%nat).
Proof.
  unfold RequestPath_outcome, RequestPath_searched, RequestPath_pfDef, bind.
  rewrite (UnBlock_trace caller st). simpl.
  fold (unblock_calls (Def := Def) caller).
  set (newPath := set_caller _ _).
  destruct (RequestPath_search_calls (moveDefs (pathType md)) startPos goalPos
              caller synced newPath (add_trace (unblock_calls caller) st))
    as (evs1 & E1 & F1 & B1).
  destruct (RequestPath_search _ _ _ _ _ _ _) as [[result np] st1].
  simpl in E1. subst st1. simpl.
  destruct (RequestPath_finish_calls result startPos caller synced np
              (add_trace evs1 (add_trace (unblock_calls caller) st)))
    as (evs2 & E2 & F2 & B2 & N2).
  destruct (RequestPath_finish _ _ _ _ _ _) as [pathID st2].
  cbn [snd] in E2. rewrite (Block_trace caller st2).
  fold (block_calls (Def := Def) caller).
  exists (evs1 ++ evs2). cbn [snd ret add_trace trace]. rewrite E2.
  cbn [add_trace trace].
  split; [now rewrite <- !app_assoc|].
  split; [now apply Forall_app|].
  rewrite length_app. split; [lia|].
  intros H. rewrite (N2 H). simpl. lia.
Qed.

Lemma refine_bracket_count (low : M (@MultiPath Def)) callerPos owner synced st :
  calls_between 0 1 any_search low ->
  exists evs,
    snd ((multiPath <- low ;;
          UnBlock (caller multiPath) ;;
          multiPath <- MedRes2MaxRes multiPath callerPos owner synced ;;
          Block (caller multiPath) ;;
          ret multiPath) st) = add_trace evs st
    /\ (search_count evs <= 2)%nat.
Proof.
  intros Hlow. unfold bind.
  destruct (Hlow st) as (pre & E1 & _ & B1).
  destruct (low st) as [mp1 st1]. simpl in E1. subst st1.
  rewrite UnBlock_trace, add_trace_app.
  fold (unblock_calls (Def := Def) (caller mp1)).
  destruct (MedRes2MaxRes_calls mp1 callerPos owner synced
              (add_trace (pre ++ unblock_calls (caller mp1)) st))
    as (mid & E2 & _ & B2).
  destruct (MedRes2MaxRes mp1 callerPos owner synced _) as [mp2 st2].
  simpl in E2. subst st2.
  rewrite Block_trace, !add_trace_app.
  fold (block_calls (Def := Def) (caller mp2)).
  eexists. split; [reflexivity|].
  rewrite !search_count_app, search_count_unblock, search_count_block.
  pose proof (search_count_le pre). pose proof (search_count_le mid). lia.
Qed.

Lemma NextWayPoint_refine_count mp callerPos owner synced st :
  exists evs,
    snd (NextWayPoint_refine mp callerPos owner synced st) = add_trace evs st
    /\ (search_count evs <= 2)%nat.
Proof.
  unfold NextWayPoint_refine.
  destruct (needs_bettering (IPath.path (medResPath mp)) _ _ _).
  2:{ exists []. simpl. rewrite add_trace_nil. split; [reflexivity|cbv; lia]. }
  destruct (needs_bettering (IPath.path (lowResPath mp)) _ _ _);
    apply refine_bracket_count;
    [apply LowRes2MedRes_calls|no_search].
Qed.

Lemma NextWayPoint_rec_count (n : nat) pathID minDistance owner synced :
  forall callerPos numRetries st,
    exists evs,
      trace (snd (NextWayPoint_rec n pathID callerPos minDistance numRetries
                    owner synced st)) = trace st ++ evs
      /\ (search_count evs <= 2 * S n)%nat.
Proof.
  induction n as [|n IH]; intros callerPos numRetries st; simpl;
    unfold NextWayPoint_body;
    (destruct (pathID =? 0);
       [exists []; split; [now rewrite app_nil_r|cbv; lia]|]);
    (destruct (numRetries >? 4);
       [exists []; split; [now rewrite app_nil_r|cbv; lia]|]);
    (destruct (GetMultiPath pathID st) as [mp|];
       [|exists []; split; [now rewrite app_nil_r|cbv; lia]]);
    unfold bind;
    destruct (NextWayPoint_refine_count mp (effective_callerPos mp callerPos)
                owner synced st) as (evs0 & E & B0);
    (destruct (NextWayPoint_refine mp _ owner synced st) as [mp1 st1]);
    simpl in E; subst st1;
    (destruct (NextWayPoint_loop mp1 _ minDistance _) as [exit rest]);
    simpl.
  - exists evs0. destruct exit; simpl; split; auto; lia.
  - destruct exit; simpl; [exists evs0; split; [reflexivity|lia]|].
    match goal with
    | |- context [NextWayPoint_rec n ?a ?b ?d ?e ?f ?g ?s] =>
        assert (Et : trace s = trace st ++ evs0) by reflexivity;
        destruct (IH b e s) as (evs1 & E1 & B1);
        destruct (NextWayPoint_rec n a b d e f g s) as [w st3]
    end.
    cbn [snd] in E1 |- *. exists (evs0 ++ evs1).
    cbn [snd ret]. rewrite E1, Et.
    split; [now rewrite app_assoc|].
    rewrite search_count_app. lia.
Qed.

(** X11.  A call of [NextWayPoint] makes at most two searches for each level
    of its recursion, of which there are at most [5 - numRetries]: at most
    ten for a call that starts with [numRetries = 0], and none when
    [numRetries > 4]. *)
Theorem NextWayPoint_search_count (pathID : Z) (callerPos : float3)
    (minDistance : float) (numRetries : Z) (owner : option CSolidObject)
    (synced : bool) st :
  exists evs,
    trace (snd (NextWayPoint pathID callerPos minDistance numRetries owner
                  synced st)) = trace st ++ evs
    /\ (search_count evs <= 2 * Z.to_nat (5 - numRetries))%nat.
Proof.
  destruct (Z.gtb_spec numRetries 4) as [Hgt|Hle].
  - exists []. unfold NextWayPoint.
    rewrite NextWayPoint_rec_no_path by (right; right; lia).
    simpl. split; [now rewrite app_nil_r|unfold search_count; simpl; lia].
  - destruct (NextWayPoint_rec_count (Z.to_nat (4 - numRetries)) pathID
                minDistance owner synced callerPos numRetries st)
      as (evs & E & B).
    exists evs. split; [exact E|].
    replace (Z.to_nat (5 - numRetries)) with (S (Z.to_nat (4 - numRetries)))
      by lia.
    exact B.
Qed.

(** ** Requests: the short and the long band *)

Ltac band_step :=
  cbn [fst snd peDef set_medResPath set_maxResPath set_lowResPath set_peDef
       trace add_trace maxResPath medResPath lowResPath negb andb];
  rewrite <- ?app_assoc; cbn [app].

(** X12.  In the short band ([goalDist2D < DETAILED_DISTANCE]) the searches
    of a request are, in this order: the fine search engine; then, if its
    outcome is not [Ok], the medium-resolution estimator; then, if that
    outcome is not [Ok] either, the low-resolution estimator.  All three use
    the goal definition as it was given, and the constraint of the goal
    definition is left in place.  The result of the last search made is the
    outcome. *)
Theorem RequestPath_short_band (md : MoveDef) (startPos goalPos : float3)
    (caller : option CSolidObject) (synced : bool) (newPath : MultiPath) st
    (Hshort : Float.ltb (goalDist2D (peDef newPath) startPos goalPos)
                DETAILED_DISTANCE = true) :
  let pfDef := peDef newPath in
  let budget := Z.shiftr MAX_SEARCHED_NODES_PE 3 in
  let budgetPF := Z.shiftr MAX_SEARCHED_NODES_PF 3 in
  let call1 :=
    CallPFGetPath md startPos pfDef (maxResPath newPath) true false budgetPF
      true caller synced in
  let answer1 :=
    PF_GetPath (trace st) md startPos pfDef (maxResPath newPath) true false
      budgetPF true caller synced in
  let call2 :=
    CallPEGetPath medResPE md startPos pfDef (medResPath newPath) budget synced in
  let answer2 :=
    PE_GetPath (trace st ++ [call1]) medResPE md startPos pfDef
      (medResPath newPath) budget synced in
  let call3 :=
    CallPEGetPath lowResPE md startPos pfDef (lowResPath newPath) budget synced in
  let answer3 :=
    PE_GetPath (trace st ++ [call1; call2]) lowResPE md startPos pfDef
      (lowResPath newPath) budget synced in
  let retry1 := negb (IPath.eqb (fst answer1) IPath.Ok) in
  let retry2 := retry1 && negb (IPath.eqb (fst answer2) IPath.Ok) in
  let r := RequestPath_search md startPos goalPos caller synced newPath st in
  snd r = add_trace
            (call1 :: (if retry1
                       then call2 :: (if retry2 then [call3] else [])
                       else [])) st
  /\ fst (fst r) = (if retry2 then fst answer3 else IPath.Ok)
  /\ peDef (snd (fst r)) = pfDef
  /\ maxResPath (snd (fst r)) = snd answer1
  /\ medResPath (snd (fst r))
     = (if retry1 then snd answer2 else medResPath newPath)
  /\ lowResPath (snd (fst r))
     = (if retry2 then snd answer3 else lowResPath newPath).
Proof.
  cbv zeta. unfold RequestPath_search. rewrite Hshort.
  unfold RequestPath_short, bind, medResPE_GetPath, maxResPF_GetPath,
    lowResPE_GetPath, unless_Ok, ret.
  destruct (PF_GetPath (trace st) md startPos (peDef newPath)
              (maxResPath newPath) true false
              (Z.shiftr MAX_SEARCHED_NODES_PF 3) true caller synced)
    as [r1 p1].
  band_step.
  destruct (IPath.eqb r1 IPath.Ok) eqn:E1; band_step.
  { apply SearchResult_eqb_eq in E1. subst r1. repeat split; reflexivity. }
  destruct (PE_GetPath _ medResPE _ _ _ _ _ _) as [r2 p2]. band_step.
  destruct (IPath.eqb r2 IPath.Ok) eqn:E2; band_step.
  { apply SearchResult_eqb_eq in E2. subst r2.
    rewrite !add_trace_app. repeat split; reflexivity. }
  destruct (PE_GetPath _ lowResPE _ _ _ _ _ _) as [r3 p3]. band_step.
  rewrite !add_trace_app. repeat split; reflexivity.
Qed.

(** X13.  In the long band ([goalDist2D >= ESTIMATE_DISTANCE], that is,
    neither comparison of the first two bands holds) the searches of a
    request are, in this order: the low-resolution estimator; then the
    medium-resolution estimator, if and only if that outcome is
    [CantGetCloser] and the squared 2D distance from start to goal
    exceeds the squared goal radius; then the fine search engine, if and only
    if the medium-resolution estimator was asked and answered
    [CantGetCloser] too; then, if the result is not [Ok], the low-resolution
    estimator again, with the constraint of the goal definition disabled and
    on the path its first search left.  The result of the last search made
    is the outcome. *)
Theorem RequestPath_long_band (md : MoveDef) (startPos goalPos : float3)
    (caller : option CSolidObject) (synced : bool) (newPath : MultiPath) st
    (Hlo : Float.ltb (goalDist2D (peDef newPath) startPos goalPos)
             DETAILED_DISTANCE = false)
    (Hhi : Float.ltb (goalDist2D (peDef newPath) startPos goalPos)
             ESTIMATE_DISTANCE = false) :
  let pfDef := peDef newPath in
  let budget := Z.shiftr MAX_SEARCHED_NODES_PE 3 in
  let budgetPF := Z.shiftr MAX_SEARCHED_NODES_PF 3 in
  let call1 :=
    CallPEGetPath lowResPE md startPos pfDef (lowResPath newPath) budget synced in
  let answer1 :=
    PE_GetPath (trace st) lowResPE md startPos pfDef (lowResPath newPath)
      budget synced in
  let medium := IPath.eqb (fst answer1) IPath.CantGetCloser
                && beyond_goalRadius pfDef startPos goalPos in
  let call2 :=
    CallPEGetPath medResPE md startPos pfDef (medResPath newPath) budget synced in
  let answer2 :=
    PE_GetPath (trace st ++ [call1]) medResPE md startPos pfDef
      (medResPath newPath) budget synced in
  let fine := medium && IPath.eqb (fst answer2) IPath.CantGetCloser in
  let call3 :=
    CallPFGetPath md startPos pfDef (maxResPath newPath) true false budgetPF
      true caller synced in
  let answer3 :=
    PF_GetPath (trace st ++ [call1; call2]) md startPos pfDef
      (maxResPath newPath) true false budgetPF true caller synced in
  let result3 :=
    if fine then fst answer3 else if medium then fst answer2 else fst answer1 in
  let calls3 :=
    call1 :: (if medium then call2 :: (if fine then [call3] else []) else []) in
  let relaxed := DisableConstraint true pfDef in
  let call4 :=
    CallPEGetPath lowResPE md startPos relaxed (snd answer1) budget synced in
  let answer4 :=
    PE_GetPath (trace st ++ calls3) lowResPE md startPos relaxed (snd answer1)
      budget synced in
  let retry := negb (IPath.eqb result3 IPath.Ok) in
  let r := RequestPath_search md startPos goalPos caller synced newPath st in
  snd r = add_trace (calls3 ++ (if retry then [call4] else [])) st
  /\ fst (fst r) = (if retry then fst answer4 else IPath.Ok)
  /\ peDef (snd (fst r)) = relaxed
  /\ lowResPath (snd (fst r)) = (if retry then snd answer4 else snd answer1)
  /\ medResPath (snd (fst r))
     = (if medium then snd answer2 else medResPath newPath)
  /\ maxResPath (snd (fst r))
     = (if fine then snd answer3 else maxResPath newPath).
Proof.
  cbv zeta. unfold RequestPath_search. rewrite Hlo, Hhi.
  unfold RequestPath_long, bind, medResPE_GetPath, maxResPF_GetPath,
    lowResPE_GetPath, unless_Ok, disable_constraint, ret.
  destruct (PE_GetPath (trace st) lowResPE md startPos (peDef newPath)
              (lowResPath newPath) (Z.shiftr MAX_SEARCHED_NODES_PE 3) synced)
    as [r1 p1].
  band_step.
  destruct (IPath.eqb r1 IPath.CantGetCloser
            && beyond_goalRadius (peDef newPath) startPos goalPos) eqn:Emed;
    band_step.
  - destruct (PE_GetPath _ medResPE _ _ _ _ _ _) as [r2 p2]. band_step.
    destruct (IPath.eqb r2 IPath.CantGetCloser) eqn:E2; band_step.
    + destruct (PF_GetPath _ _ _ _ _ _ _ _ _ _ _) as [r3 p3]. band_step.
      destruct (IPath.eqb r3 IPath.Ok) eqn:E3; band_step.
      * apply SearchResult_eqb_eq in E3. subst r3.
        rewrite !add_trace_app. repeat split; reflexivity.
      * destruct (PE_GetPath _ lowResPE _ _ _ _ _ _) as [r4 p4]. band_step.
        rewrite !add_trace_app. repeat split; reflexivity.
    + destruct (IPath.eqb r2 IPath.Ok) eqn:E3; band_step.
      * apply SearchResult_eqb_eq in E3. subst r2.
        rewrite !add_trace_app. repeat split; reflexivity.
      * destruct (PE_GetPath _ lowResPE _ _ _ _ _ _) as [r4 p4]. band_step.
        rewrite !add_trace_app. repeat split; reflexivity.
  - destruct (IPath.eqb r1 IPath.Ok) eqn:E3; band_step.
    + apply SearchResult_eqb_eq in E3. subst r1. repeat split; reflexivity.
    + destruct (PE_GetPath _ lowResPE _ _ _ _ _ _) as [r4 p4]. band_step.
      rewrite !add_trace_app. repeat split; reflexivity.
Qed.

(** ** Export of the waypoints *)

Lemma push_back_reversed_spec {A} (v points : list A) :
  Vec.begin_to_end (push_back_reversed v points)
  = Vec.begin_to_end points ++ Vec.rbegin_to_rend v.
Proof.
  unfold push_back_reversed, Vec.begin_to_end, Vec.rbegin_to_rend.
  now rewrite fold_left_push_back, rev_app_distr, rev_involutive.
Qed.

Lemma push_back_reversed_size {A} (v points : list A) :
  Vec.size (push_back_reversed v points) = Vec.size points + Vec.size v.
Proof.
  unfold push_back_reversed, Vec.size, Vec.rbegin_to_rend.
  rewrite fold_left_push_back, length_app, length_rev. lia.
Qed.

Lemma int_of_size_small (n : Z) : 0 <= n < 2 ^ 31 -> int_of_size n = n.
Proof.
  intros H. unfold int_of_size. rewrite Z.mod_small; lia.
Qed.

(** X14.  For a stored record, [GetPathWayPoints] yields in [points] the
    waypoints of the fine tier, then those of the medium tier, then those of
    the coarse tier, each tier from the back of its vector to the front, and
    in [starts] three indices: where each tier begins in [points], as long
    as these indices fit an [int]. *)
Theorem GetPathWayPoints_tiers (pathID : Z) st mp
    (Hrecord : GetMultiPath pathID st = Some mp)
    (Hsize : Vec.size (IPath.path (maxResPath mp))
             + Vec.size (IPath.path (medResPath mp)) < 2 ^ 31) :
  let maxResPoints := IPath.path (maxResPath mp) in
  let medResPoints := IPath.path (medResPath mp) in
  let lowResPoints := IPath.path (lowResPath mp) in
  let r := GetPathWayPoints pathID st in
  Vec.begin_to_end (fst r)
  = Vec.rbegin_to_rend maxResPoints ++ Vec.rbegin_to_rend medResPoints
    ++ Vec.rbegin_to_rend lowResPoints
  /\ Vec.begin_to_end (snd r)
     = [0; Vec.size maxResPoints;
        Vec.size maxResPoints + Vec.size medResPoints].
Proof.
  cbv zeta. unfold GetPathWayPoints. rewrite Hrecord. cbv zeta.
  cbn [fst snd]. split.
  - rewrite !push_back_reversed_spec. cbn [Vec.begin_to_end rev app].
    now rewrite <- app_assoc.
  - rewrite !push_back_reversed_size.
    unfold Vec.size in *. cbn [length] in *.
    rewrite !int_of_size_small by lia.
    reflexivity.
Qed.

(** X15.  What [GetDetailedPath] yields is the beginning of what
    [GetPathWayPoints] yields for the same handle, whether the handle has a
    record or not; without a record both are empty. *)
Theorem GetDetailedPath_prefix (pathID : Z) st :
  Vec.begin_to_end (GetDetailedPath pathID st)
    `prefix_of` Vec.begin_to_end (fst (GetPathWayPoints pathID st))
  /\ (GetMultiPath pathID st = None ->
      GetDetailedPath pathID st = []
      /\ GetPathWayPoints pathID st = ([], [])).
Proof.
  unfold GetDetailedPath, GetPathWayPoints.
  destruct (GetMultiPath pathID st) as [mp|]; cbv zeta; cbn [fst].
  - split; [|discriminate].
    rewrite !push_back_reversed_spec. cbn [Vec.begin_to_end rev app].
    rewrite <- app_assoc. apply prefix_app_r. reflexivity.
  - split; [reflexivity|]. intros _. split; reflexivity.
Qed.

(** ** The record a request stores *)

Lemma RequestPath_search_request md startPos goalPos owner synced
    (newPath : @MultiPath Def) st :
  let r := RequestPath_search md startPos goalPos owner synced newPath st in
  same_request_but_peDef newPath (snd (fst r))
  /\ peDef (snd (fst r))
     = (if Float.ltb (goalDist2D (peDef newPath) startPos goalPos)
             DETAILED_DISTANCE
        then peDef newPath else DisableConstraint true (peDef newPath)).
Proof.
  cbv zeta.
  unfold RequestPath_search, RequestPath_short, RequestPath_medium,
    RequestPath_long, bind, medResPE_GetPath, maxResPF_GetPath,
    lowResPE_GetPath, unless_Ok, disable_constraint, ret,
    same_request_but_peDef.
  destruct (Float.ltb _ DETAILED_DISTANCE);
    [|destruct (Float.ltb _ ESTIMATE_DISTANCE)];
    repeat
      (cbn [fst snd peDef set_medResPath set_maxResPath set_lowResPath
            set_peDef start finalGoal caller moveDef searchResult negb];
       match goal with
       | |- context [PF_GetPath ?a ?b ?c ?d ?e ?f ?g ?h ?i ?j ?k] =>
           destruct (PF_GetPath a b c d e f g h i j k) as [? ?]
       | |- context [PE_GetPath ?a ?b ?c ?d ?e ?f ?g ?h] =>
           destruct (PE_GetPath a b c d e f g h) as [? ?]
       | |- context [if ?b then _ else _] => destruct b
       end);
    cbn [fst snd peDef set_medResPath set_maxResPath set_lowResPath
         set_peDef start finalGoal caller moveDef searchResult negb];
    repeat split; reflexivity.
Qed.

Lemma completed_request result startPos owner synced (newPath : @MultiPath Def)
    st :
  let mp := completed result startPos owner synced newPath st in
  same_request_but_peDef (set_searchResult result newPath) mp
  /\ peDef mp = peDef newPath.
Proof.
  cbv zeta. unfold completed.
  destruct (IPath.eqb result IPath.CantGetCloser); cbn [negb].
  - unfold add_dummy_waypoint.
    destruct (Vec.empty _); repeat split; reflexivity.
  - unfold bind.
    pose proof (LowRes2MedRes_same_request newPath startPos owner synced st)
      as H1.
    destruct (LowRes2MedRes newPath startPos owner synced st) as [mp1 st1].
    pose proof (MedRes2MaxRes_same_request mp1 startPos owner synced st1)
      as H2.
    destruct (MedRes2MaxRes mp1 startPos owner synced st1) as [mp2 st2].
    cbn [fst] in *.
    destruct H1 as (A1 & A2 & A3 & A4 & A5 & A6).
    destruct H2 as (B1 & B2 & B3 & B4 & B5 & B6).
    unfold same_request_but_peDef. cbn.
    repeat split; congruence.
Qed.

(** X16.  The record a request stores is found under the handle the request
    returns (also when that handle is 0 after the counter has wrapped); it
    holds the start, the goal and the caller of the request, the movement
    class looked up for the request, and the outcome of the searches; its
    goal definition is the one given in the short band, and the one given
    with its constraint disabled in the other two. *)
Theorem RequestPath_stored_record (md : MoveDef) (startPos goalPos : float3)
    (pfDef : Def) (caller0 : option CSolidObject) (synced : bool) st
    (Hstored : RequestPath_outcome md startPos goalPos pfDef caller0 synced st
               <> IPath.Error) :
  let r := RequestPath_pfDef md startPos goalPos pfDef caller0 synced st in
  exists mp,
    GetMultiPath (fst r) (snd r) = Some mp
    /\ start mp = startPos
    /\ finalGoal mp = goalPos
    /\ caller mp = caller0
    /\ moveDef mp = moveDefs (pathType md)
    /\ searchResult mp
       = RequestPath_outcome md startPos goalPos pfDef caller0 synced st
    /\ peDef mp
       = (if Float.ltb (goalDist2D pfDef startPos goalPos) DETAILED_DISTANCE
          then pfDef else DisableConstraint true pfDef).
Proof.
  cbv zeta. revert Hstored. unfold RequestPath_outcome.
  destruct (RequestPath_pfDef_spec md startPos goalPos pfDef caller0 synced st)
    as (evs & evs' & _ & ->).
  unfold RequestPath_searched.
  pose proof (RequestPath_search_request (moveDefs (pathType md)) startPos
                goalPos caller0 synced
                (set_caller caller0
                   (set_finalGoal goalPos
                      (new_MultiPath startPos pfDef (moveDefs (pathType md)))))
                (snd (UnBlock caller0 st))) as [Hs Hp].
  cbv zeta in Hs, Hp.
  destruct (RequestPath_search _ _ _ _ _ _ _) as [[result newPath] st1].
  cbn [fst snd] in *.
  intros Hne.
  destruct (IPath.eqb result IPath.Error) eqn:E.
  { apply SearchResult_eqb_eq in E. contradiction. }
  cbv zeta. cbn [fst snd]. unfold GetMultiPath. cbn [pathMap].
  rewrite lookup_insert_eq.
  pose proof (completed_request result startPos caller0 synced newPath
                (add_trace evs' st)) as [(C1 & C2 & C3 & C4 & C5) Cp].
  cbv zeta in C1, C2, C3, C4, C5, Cp.
  set (mp := completed result startPos caller0 synced newPath
               (add_trace evs' st)) in *.
  clearbody mp.
  destruct Hs as (S1 & S2 & S3 & S4 & S5).
  cbn in S1, S2, S3, S4, Hp, C1, C2, C3, C4, C5.
  exists mp. split; [reflexivity|].
  rewrite C1, C2, C3, C4, C5, Cp, S1, S2, S3, S4, Hp.
  repeat split; reflexivity.
Qed.

(** ** No failed request is stored *)

Lemma no_error_records_same_map st st' :
  pathMap st' = pathMap st -> no_error_records st -> no_error_records st'.
Proof. intros E H id mp. rewrite E. apply H. Qed.

Lemma no_error_records_emits {A} Q (m : M A) st :
  emits Q m -> no_error_records st -> no_error_records (snd (m st)).
Proof.
  intros Hm. destruct (Hm st) as (evs & -> & _).
  now apply no_error_records_same_map.
Qed.

Lemma RequestPath_pfDef_no_error_records md startPos goalPos pfDef caller synced
    st :
  no_error_records st ->
  no_error_records
    (snd (RequestPath_pfDef md startPos goalPos pfDef caller synced st)).
Proof.
  intros Hinv.
  pose proof (RequestPath_pfDef_handle md startPos goalPos pfDef caller synced
                st) as (HE & HS & _).
  cbv zeta in HE, HS.
  destruct (decide (RequestPath_outcome md startPos goalPos pfDef caller synced
                      st = IPath.Error)) as [E|E].
  - destruct (HE E) as (_ & Hm & _).
    now apply (no_error_records_same_map st).
  - destruct (HS E) as (_ & _ & record & Hm & Hr).
    intros id mp. rewrite Hm.
    destruct (decide (fst (RequestPath_pfDef md startPos goalPos pfDef caller
                             synced st) = id)) as [<-|Hid].
    + rewrite lookup_insert_eq. intros [= <-]. now rewrite Hr.
    + rewrite lookup_insert_ne by exact Hid. apply Hinv.
Qed.

Lemma do_op_no_error_records (op : Op) st :
  no_error_records st -> no_error_records (snd (do_op op st)).
Proof.
  intros Hinv. destruct op; simpl; unfold bind, ret, RequestPath.
  1,2: match goal with
       | |- context [RequestPath_pfDef ?a ?b ?c ?d ?e ?f ?s] =>
           pose proof (RequestPath_pfDef_no_error_records a b c d e f s Hinv)
             as H;
           destruct (RequestPath_pfDef a b c d e f s) as [h st1]; exact H
       end.
  - pose proof (NextWayPoint_rec_touches_only (Z.to_nat (4 - numRetries)) pathID
                  minDistance owner synced callerPos numRetries st)
      as (_ & Hother & Hthis).
    unfold NextWayPoint.
    destruct (NextWayPoint_rec _ _ _ _ _ _ _ _) as [w st1]. cbn [snd] in *.
    intros id mp Hl.
    destruct (decide (id = pathID)) as [->|Hid].
    + unfold GetMultiPath in Hthis.
      destruct (pathMap st !! pathID) as [mp0|] eqn:E0.
      * destruct Hthis as (mp' & Hl' & Hs). rewrite Hl in Hl'.
        injection Hl' as <-.
        destruct Hs as (_ & _ & _ & _ & _ & ->). now apply (Hinv pathID).
      * rewrite Hl in Hthis. discriminate.
    + apply (Hinv id). rewrite <- Hl. symmetry. now apply Hother.
  - unfold DeletePath.
    destruct (pathID =? 0); [exact Hinv|].
    destruct (pathMap st !! pathID); [|exact Hinv].
    cbn [snd]. intros id mp. cbn [set_pathMap pathMap].
    intros Hl. apply lookup_delete_Some in Hl as [_ Hl]. now apply (Hinv id).
  - pose proof (no_error_records_emits _ (UpdatePath owner pathID) st
                  (UpdatePath_emits owner pathID) Hinv) as H.
    destruct (UpdatePath owner pathID st) as [[] st1]. exact H.
  - pose proof (no_error_records_emits _ (SetNodeExtraCost x z cost synced) st
                  (SetNodeExtraCost_emits x z cost synced) Hinv) as H.
    destruct (SetNodeExtraCost x z cost synced st) as [b st1]. exact H.
Qed.

(** X17.  No sequence of calls of the manager leaves a record with the
    outcome [Error] in the registry, if there was none before; a fresh
    manager has none. *)
Theorem no_error_records_preserved (ops : list Op) st
    (Hinv : no_error_records st) :
  no_error_records (snd (do_ops ops st))
  /\ no_error_records (snd (do_ops ops CPathManager_new)).
Proof.
  assert (H : forall s, no_error_records s -> no_error_records (snd (do_ops ops s))).
  { induction ops as [|op ops IH]; intros s Hs; simpl; [exact Hs|].
    unfold bind, ret.
    pose proof (do_op_no_error_records op s Hs) as H1.
    destruct (do_op op s) as [hs s1]. cbn [snd] in H1.
    specialize (IH s1 H1).
    destruct (do_ops ops s1) as [hs' s2]. exact IH. }
  split; [now apply H|]. apply H.
  intros id mp Hl. unfold CPathManager_new in Hl. cbn in Hl.
  rewrite lookup_empty in Hl. discriminate.
Qed.

(** X18.  A request leaves every record but the one under the handle it
    returns as it was; as long as the counter has not reached [2^32 - 1]
    that handle was free before, so that no record is lost. *)
Theorem RequestPath_keeps_records (md : MoveDef) (startPos goalPos : float3)
    (pfDef : Def) (caller : option CSolidObject) (synced : bool) st :
  let r := RequestPath_pfDef md startPos goalPos pfDef caller synced st in
  (forall id, id <> fst r -> GetMultiPath id (snd r) = GetMultiPath id st)
  /\ (registry_ok st -> nextPathID st < UINT_MOD - 1 ->
      forall id mp,
        GetMultiPath id st = Some mp -> GetMultiPath id (snd r) = Some mp).
Proof.
  cbv zeta.
  pose proof (RequestPath_pfDef_handle md startPos goalPos pfDef caller synced
                st) as (HE & HS & HF).
  cbv zeta in HE, HS, HF. unfold GetMultiPath.
  destruct (decide (RequestPath_outcome md startPos goalPos pfDef caller synced
                      st = IPath.Error)) as [E|E].
  - destruct (HE E) as (_ & -> & _). split; [reflexivity|auto].
  - destruct (HS E) as (_ & _ & record & -> & _).
    split.
    + intros id Hid. now apply lookup_insert_ne.
    + intros Hok Hroom id mp Hl.
      destruct (HF E Hok Hroom) as (_ & _ & Hfresh).
      rewrite lookup_insert_ne; [exact Hl|].
      intros <-. rewrite Hfresh in Hl. discriminate.
Qed.

End Properties.

(** * Properties of the sync checker *)

Section SyncCheckerProperties.

Import SyncChecker.

Implicit Types (o : ByteOrder) (p : list Byte.byte) (fuel : nat).
Implicit Types (size i g w b : Z).

Lemma wrap_uint_range (n : Z) : 0 <= wrap_uint n < 2 ^ 32.
Proof. unfold wrap_uint, UINT_MOD. apply Z.mod_pos_bound. lia. Qed.

Lemma wrap_uint_small (n : Z) : 0 <= n < 2 ^ 32 -> wrap_uint n = n.
Proof. intros H. unfold wrap_uint, UINT_MOD. now apply Z.mod_small. Qed.

Lemma mix_range (l r v g : Z) : 0 <= mix l r v g < 2 ^ 32.
Proof. unfold mix. apply wrap_uint_range. Qed.

(** [size & ~3] is [size] rounded down to a multiple of four. *)
Lemma mask_words size :
  0 <= size < 2 ^ 32 -> Z.land size (wrap_uint (Z.lnot 3)) = 4 * (size / 4).
Proof.
  intros H.
  replace (wrap_uint (Z.lnot 3)) with (Z.land (Z.lnot 3) (Z.ones 32))
    by (now rewrite Z.land_ones by lia).
  rewrite (Z.land_comm (Z.lnot 3)), Z.land_assoc, Z.land_ones by lia.
  rewrite (Z.mod_small size) by lia.
  rewrite <- Z.ldiff_land.
  change 3 with (Z.ones 2). rewrite Z.ldiff_ones_r by lia.
  rewrite Z.shiftr_div_pow2, Z.shiftl_mul_pow2 by lia.
  change (2 ^ 2) with 4. lia.
Qed.

Lemma Sync_words_eq fuel o p size i g :
  Sync_words fuel o p size i g
  = if i <? Z.land size (wrap_uint (Z.lnot 3)) then
      match fuel with
      | O => None
      | S fuel =>
          match load o 4 p with
          | None => None
          | Some w =>
              Sync_words fuel o p size (wrap_uint (i + 4))
                (mix 16 11 (wrap_uint (w + i)) g)
          end
      end
    else Some (i, g).
Proof. destruct fuel; reflexivity. Qed.

Lemma Sync_bytes_eq fuel o p size i g :
  Sync_bytes fuel o p size i g
  = if i <? size then
      match fuel with
      | O => None
      | S fuel =>
          match load o 1 p with
          | None => None
          | Some b =>
              Sync_bytes fuel o p size (wrap_uint (i + 1))
                (mix 10 1 (wrap_uint (b + i)) g)
          end
      end
    else Some g.
Proof. destruct fuel; reflexivity. Qed.

(** The first loop, from its round [k] on. *)
Lemma Sync_words_rounds o p size w (Hsize : 0 <= size < 2 ^ 32) (n : nat) :
  forall k fuel g,
    0 <= k -> k + Z.of_nat n = size / 4 -> (n <= fuel)%nat ->
    n = 0%nat \/ load o 4 p = Some w ->
    Sync_words fuel o p size (4 * k) g
    = Some (4 * (size / 4),
            fold_left (fun g k => mix 16 11 (wrap_uint (w + 4 * k)) g)
              (seqZ k (Z.of_nat n)) g).
Proof.
  induction n as [|n IH]; intros k fuel g Hk Hn Hfuel Hload;
    rewrite Sync_words_eq, (mask_words size Hsize).
  - destruct (Z.ltb_spec (4 * k) (4 * (size / 4))); [lia|].
    simpl. do 2 f_equal. lia.
  - destruct (Z.ltb_spec (4 * k) (4 * (size / 4))); [|lia].
    destruct fuel as [|fuel]; [lia|].
    destruct Hload as [Hload|Hload]; [discriminate|]. rewrite Hload.
    assert (Hq : size / 4 < 2 ^ 30).
    { apply Z.div_lt_upper_bound; lia. }
    rewrite (wrap_uint_small (4 * k + 4)) by lia.
    replace (4 * k + 4) with (4 * (k + 1)) by lia.
    rewrite (IH (k + 1) fuel) by (try lia; now right).
    rewrite (seqZ_cons k (Z.of_nat (S n))) by lia.
    replace (Z.succ k) with (k + 1) by lia.
    replace (Z.pred (Z.of_nat (S n))) with (Z.of_nat n) by lia.
    reflexivity.
Qed.

(** The second loop, from the counter [i] on. *)
Lemma Sync_bytes_rounds o p size b (Hsize : 0 <= size < 2 ^ 32) (n : nat) :
  forall i fuel g,
    0 <= i -> i + Z.of_nat n = size -> (n <= fuel)%nat ->
    n = 0%nat \/ load o 1 p = Some b ->
    Sync_bytes fuel o p size i g
    = Some (fold_left (fun g i => mix 10 1 (wrap_uint (b + i)) g)
              (seqZ i (Z.of_nat n)) g).
Proof.
  induction n as [|n IH]; intros i fuel g Hi Hn Hfuel Hload;
    rewrite Sync_bytes_eq.
  - destruct (Z.ltb_spec i size); [lia|]. reflexivity.
  - destruct (Z.ltb_spec i size); [|lia].
    destruct fuel as [|fuel]; [lia|].
    destruct Hload as [Hload|Hload]; [discriminate|]. rewrite Hload.
    rewrite (wrap_uint_small (i + 1)) by lia.
    rewrite (IH (i + 1) fuel) by (try lia; now right).
    rewrite (seqZ_cons i (Z.of_nat (S n))) by lia.
    replace (Z.succ i) with (i + 1) by lia.
    replace (Z.pred (Z.of_nat (S n))) with (Z.of_nat n) by lia.
    reflexivity.
Qed.

Lemma load_Some o (n : nat) p :
  (n <= length p)%nat -> exists v, load o n p = Some v.
Proof.
  intros H. unfold load.
  destruct (Nat.leb_spec n (length p)); [eauto|lia].
Qed.

(** The default case, with enough fuel and on an object of [size] bytes or
    more. *)
Lemma Sync_default fuel o p size g :
  0 <= size < 2 ^ 32 -> size <> 1 -> size <> 2 -> size <> 4 ->
  size <= Z.of_nat (length p) -> (Z.to_nat size <= fuel)%nat ->
  Sync fuel o p size g
  = Some (byte_rounds (default 0 (load o 1 p)) size
            (word_rounds (default 0 (load o 4 p)) size g)).
Proof.
  intros Hsize H1 H2 H4 Hlen Hfuel. unfold Sync.
  destruct (Z.eqb_spec size 1); [contradiction|].
  destruct (Z.eqb_spec size 2); [contradiction|].
  destruct (Z.eqb_spec size 4); [contradiction|].
  pose proof (Z.div_mod size 4 ltac:(lia)) as Hdm.
  pose proof (Z.mod_pos_bound size 4 ltac:(lia)) as Hm.
  assert (Hq : 0 <= size / 4) by (apply Z.div_pos; lia).
  change 0 with (4 * 0) at 1.
  rewrite (Sync_words_rounds o p size (default 0 (load o 4 p)) Hsize
             (Z.to_nat (size / 4)) 0 fuel g); try lia.
  2:{ destruct (decide (size / 4 = 0)) as [E|E]; [left; lia|right].
      destruct (load_Some o 4 p) as [v ->]; [lia|reflexivity]. }
  rewrite (Sync_bytes_rounds o p size (default 0 (load o 1 p)) Hsize
             (Z.to_nat (size mod 4))); try lia.
  2:{ destruct (decide (size mod 4 = 0)) as [E|E]; [left; lia|right].
      destruct (load_Some o 1 p) as [v ->]; [lia|reflexivity]. }
  unfold byte_rounds, word_rounds. now rewrite !Z2Nat.id by lia.
Qed.

(** X19.  [Sync] on an object of [size] bytes makes no read past the end of
    the object and ends, whatever [size] is, and the checksum stays a 32-bit
    number. *)
Theorem Sync_in_bounds (fuel : nat) (o : ByteOrder) (p : list Byte.byte)
    (size g : Z)
    (Hsize : 0 <= size < 2 ^ 32) (Hlen : size <= Z.of_nat (length p))
    (Hfuel : (Z.to_nat size <= fuel)%nat) :
  exists g',
    Sync fuel o p size g = Some g'
    /\ (0 <= g < 2 ^ 32 -> 0 <= g' < 2 ^ 32).
Proof.
  destruct (decide (size = 1 \/ size = 2 \/ size = 4)) as [Hs|Hs].
  - unfold Sync.
    destruct Hs as [-> | [-> | ->]]; cbn [Z.eqb Pos.eqb].
    + destruct (load_Some o 1 p) as [v ->]; [lia|].
      eexists. split; [reflexivity|]. intros _. apply mix_range.
    + destruct (load_Some o 2 p) as [v ->]; [lia|].
      eexists. split; [reflexivity|]. intros _. apply mix_range.
    + destruct (load_Some o 4 p) as [v ->]; [lia|].
      eexists. split; [reflexivity|]. intros _. apply mix_range.
  - rewrite Sync_default by (try lia; tauto).
    eexists. split; [reflexivity|]. intros Hg.
    unfold byte_rounds, word_rounds.
    assert (Hw : forall l g0, 0 <= g0 < 2 ^ 32 ->
              0 <= fold_left (fun g k =>
                      mix 16 11 (wrap_uint (default 0 (load o 4 p) + 4 * k)) g)
                     l g0 < 2 ^ 32).
    { induction l as [|a l IH]; intros g0 H0; simpl; [exact H0|].
      apply IH, mix_range. }
    assert (Hb : forall l g0, 0 <= g0 < 2 ^ 32 ->
              0 <= fold_left (fun g i =>
                      mix 10 1 (wrap_uint (default 0 (load o 1 p) + i)) g)
                     l g0 < 2 ^ 32).
    { induction l as [|a l IH]; intros g0 H0; simpl; [exact H0|].
      apply IH, mix_range. }
    apply Hb, Hw, Hg.
Qed.

(** X20.  For a [size] other than 1, 2 and 4, [Sync] mixes into the checksum
    [size / 4] times the [unsigned int] at [p] plus 0, 4, 8, ..., and then
    [size mod 4] times the [unsigned char] at [p] plus the offsets that are
    left: the number at the start of the object plus a counter, not the
    words and bytes of the object one after the other. *)
Theorem Sync_default_closed_form (fuel : nat) (o : ByteOrder)
    (p : list Byte.byte) (size g : Z)
    (Hsize : 0 <= size < 2 ^ 32)
    (Hdefault : size <> 1 /\ size <> 2 /\ size <> 4)
    (Hlen : size <= Z.of_nat (length p))
    (Hfuel : (Z.to_nat size <= fuel)%nat) :
  Sync fuel o p size g
  = Some (byte_rounds (default 0 (load o 1 p)) size
            (word_rounds (default 0 (load o 4 p)) size g)).
Proof. apply Sync_default; tauto || lia. Qed.

Lemma load_take o (n : nat) p p' :
  (n <= 4)%nat -> take 4 p = take 4 p' -> load o n p = load o n p'.
Proof.
  intros Hn E. unfold load.
  assert (El : (length p `min` 4 = length p' `min` 4)%nat).
  { rewrite <- !(Nat.min_comm 4), <- !length_take. now rewrite E. }
  assert (Et : take n p = take n p').
  { replace n with (n `min` 4)%nat by lia.
    rewrite <- !take_take. now rewrite E. }
  rewrite Et.
  destruct (Nat.leb_spec n (length p)), (Nat.leb_spec n (length p'));
    try reflexivity; lia.
Qed.

(** X21.  Of the object at [p], [Sync] reads the first four bytes at most,
    whatever [size] is: two objects that agree there get the same checksum,
    however they differ behind. *)
Theorem Sync_reads_four_bytes (fuel : nat) (o : ByteOrder)
    (p p' : list Byte.byte) (size g : Z)
    (Hsame : take 4 p = take 4 p') :
  Sync fuel o p size g = Sync fuel o p' size g.
Proof.
  assert (H1 : load o 1 p = load o 1 p') by (apply load_take; [lia|exact Hsame]).
  assert (H2 : load o 2 p = load o 2 p') by (apply load_take; [lia|exact Hsame]).
  assert (H4 : load o 4 p = load o 4 p') by (apply load_take; [lia|exact Hsame]).
  assert (Hw : forall fuel0 i g0,
            Sync_words fuel0 o p size i g0 = Sync_words fuel0 o p' size i g0).
  { induction fuel0 as [|fuel0 IH]; intros i g0; [reflexivity|].
    rewrite !(Sync_words_eq (S fuel0)), <- H4.
    destruct (i <? _); [|reflexivity].
    destruct (load o 4 p); [apply IH|reflexivity]. }
  assert (Hb : forall fuel0 i g0,
            Sync_bytes fuel0 o p size i g0 = Sync_bytes fuel0 o p' size i g0).
  { induction fuel0 as [|fuel0 IH]; intros i g0; [reflexivity|].
    rewrite !(Sync_bytes_eq (S fuel0)), <- H1.
    destruct (i <? size); [|reflexivity].
    destruct (load o 1 p); [apply IH|reflexivity]. }
  unfold Sync. rewrite <- H1, <- H2, <- H4, Hw.
  destruct (size =? 1); [reflexivity|].
  destruct (size =? 2); [reflexivity|].
  destruct (size =? 4); [reflexivity|].
  destruct (Sync_words fuel o p' size 0 g) as [[i g1]|]; [apply Hb|reflexivity].
Qed.

End SyncCheckerProperties.

(** * The properties in the concrete world *)

Section Examples.

Import Demo.
#[local] Existing Instance Demo.consts.
#[local] Existing Instance Demo.vecOps.
#[local] Existing Instance Demo.defOps.

Lemma registry_ok_fresh : registry_ok fresh.
Proof.
  split; [vm_compute; split; [discriminate|reflexivity]|].
  intros id mp H. unfold fresh, CPathManager_new in H. simpl in H.
  rewrite lookup_empty in H. discriminate.
Qed.

(** Handle 0 on a fresh manager. *)
Lemma NextWayPoint_no_path_witness :
  (0 = 0 \/ GetMultiPath 0 fresh = None \/ 4 < 0)
  /\ NextWayPoint (engines := success) 0 (vec 8 0 8) (fl 1) 0 None true fresh
     = (noPathPoint, fresh).
Proof.
  split; [now left|].
  apply (NextWayPoint_no_path (engines := success) 0 (vec 8 0 8) (fl 1) 0
           None true fresh).
  now left.
Defined.

(** A zero caller position on a record whose fine tier ends in (16, 16). *)
Lemma NextWayPoint_zero_callerPos_witness :
  GetMultiPath 1 (holding two_squares) = Some two_squares
  /\ float3_eq (vec 0 0 0) ZeroVector = true
  /\ IPath.path (maxResPath two_squares) = [vec 16 0 16; vec 24 0 24]
  /\ NextWayPoint (engines := success) 1 (vec 0 0 0) (fl 1) 0 None true
       (holding two_squares)
     = NextWayPoint (engines := success) 1 (vec 16 0 16) (fl 1) 0 None true
         (holding two_squares).
Proof.
  split; [reflexivity|]. split; [reflexivity|]. split; [reflexivity|].
  apply (NextWayPoint_zero_callerPos (engines := success) 1 (vec 0 0 0) (fl 1) 0
           None true (holding two_squares) two_squares (vec 16 0 16)
           [vec 24 0 24]);
    reflexivity.
Defined.

(** A request from outside the map: (5000, 7, -3) is clamped to
    (4095, 7, 0). *)
Lemma RequestPath_clamps_witness :
  ClampInBounds (ClampInBounds (vec 5000 7 (-3))) = ClampInBounds (vec 5000 7 (-3))
  /\ ClampInBounds (ClampInBounds (vec 100 0 100)) = ClampInBounds (vec 100 0 100)
  /\ ClampInBounds (vec 5000 7 (-3)) = vec 4095 7 0
  /\ RequestPath (engines := success) tank (vec 5000 7 (-3)) (vec 100 0 100)
       (fl 0) None true fresh
     = RequestPath (engines := success) tank (ClampInBounds (vec 5000 7 (-3)))
         (ClampInBounds (vec 100 0 100)) (fl 0) None true fresh.
Proof.
  assert (H1 : ClampInBounds (ClampInBounds (vec 5000 7 (-3)))
               = ClampInBounds (vec 5000 7 (-3))) by (vm_compute; reflexivity).
  assert (H2 : ClampInBounds (ClampInBounds (vec 100 0 100))
               = ClampInBounds (vec 100 0 100)) by (vm_compute; reflexivity).
  split; [exact H1|]. split; [exact H2|].
  split; [vm_compute; reflexivity|].
  exact (proj2 (RequestPath_clamps (engines := success) tank (vec 5000 7 (-3))
                  (vec 100 0 100) (fl 0) None true fresh H1 H2)).
Defined.

(** A request whose searches cannot get closer and leave the fine tier
    empty. *)
Lemma RequestPath_CantGetCloser_has_waypoint_witness :
  RequestPath_outcome (engines := stuck) tank (vec 8 0 8) (vec 100 0 100)
    (mkGoal (vec 100 0 100) (fl 0) true) None true fresh = IPath.CantGetCloser
  /\ exists record,
       GetMultiPath 1
         (snd (RequestPath_pfDef (engines := stuck) tank (vec 8 0 8) (vec 100 0 100)
                 (mkGoal (vec 100 0 100) (fl 0) true) None true fresh))
       = Some record
       /\ IPath.path (maxResPath record) <> [].
Proof.
  split; [reflexivity|].
  destruct (RequestPath_CantGetCloser_has_waypoint (engines := stuck) tank
              (vec 8 0 8) (vec 100 0 100) (mkGoal (vec 100 0 100) (fl 0) true)
              None true fresh)
    as (record & H1 & _ & H3 & _); [reflexivity|].
  exists record. split; [exact H1|exact H3].
Defined.

(** A successful request on a fresh manager is stored under handle 1. *)
Lemma RequestPath_error_or_stored_witness :
  (RequestPath_outcome (engines := success) tank (vec 8 0 8) (vec 100 0 100)
     (mkGoal (vec 100 0 100) (fl 0) true) None true fresh <> IPath.Error
   /\ registry_ok fresh /\ nextPathID fresh < UINT_MOD - 1)
  /\ fst (RequestPath_pfDef (engines := success) tank (vec 8 0 8) (vec 100 0 100)
            (mkGoal (vec 100 0 100) (fl 0) true) None true fresh)
     = nextPathID fresh + 1.
Proof.
  assert (H : RequestPath_outcome (engines := success) tank (vec 8 0 8)
                (vec 100 0 100) (mkGoal (vec 100 0 100) (fl 0) true) None true fresh
              <> IPath.Error) by (vm_compute; discriminate).
  split; [split; [exact H|split; [exact registry_ok_fresh|reflexivity]]|].
  apply (RequestPath_error_or_stored (engines := success) tank (vec 8 0 8)
           (vec 100 0 100) (mkGoal (vec 100 0 100) (fl 0) true) None true fresh);
    [exact H|exact registry_ok_fresh|reflexivity].
Defined.

(** Two requests with a deletion in between: handles 1 and 2. *)
Lemma handles_issued_in_sequence_witness :
  registry_ok fresh
  /\ nextPathID fresh + Z.of_nat 3 < UINT_MOD
  /\ issued
       (fst (do_ops (engines := success)
               [DoRequestPath tank (vec 8 0 8) (vec 100 0 100) (fl 0) None true;
                DoDeletePath 1;
                DoRequestPath tank (vec 8 0 8) (vec 100 0 100) (fl 0) None true]
               fresh))
     = seqZ 1 2.
Proof.
  split; [exact registry_ok_fresh|]. split; [reflexivity|].
  destruct (handles_issued_in_sequence (engines := success)
              [DoRequestPath tank (vec 8 0 8) (vec 100 0 100) (fl 0) None true;
               DoDeletePath 1;
               DoRequestPath tank (vec 8 0 8) (vec 100 0 100) (fl 0) None true]
              fresh registry_ok_fresh)
    as (_ & H & _); [reflexivity|].
  exact H.
Defined.

(** A request 40 squares from its goal lies in the medium band. *)
Lemma RequestPath_medium_band_witness :
  Float.leb DETAILED_DISTANCE
    (goalDist2D (mkGoal (vec 320 0 0) (fl 0) true) (vec 0 0 0) (vec 320 0 0)) = true
  /\ Float.ltb
       (goalDist2D (mkGoal (vec 320 0 0) (fl 0) true) (vec 0 0 0) (vec 320 0 0))
       ESTIMATE_DISTANCE = true
  /\ peDef
       (snd (fst (RequestPath_search (engines := stuck) tank (vec 0 0 0)
                    (vec 320 0 0) None true
                    (new_MultiPath (engines := stuck) (vec 0 0 0)
                       (mkGoal (vec 320 0 0) (fl 0) true) tank)
                    fresh)))
     = DisableConstraint true (mkGoal (vec 320 0 0) (fl 0) true).
Proof.
  split; [reflexivity|]. split; [reflexivity|].
  apply (RequestPath_medium_band (engines := stuck) tank (vec 0 0 0)
           (vec 320 0 0) None true
           (new_MultiPath (engines := stuck) (vec 0 0 0)
              (mkGoal (vec 320 0 0) (fl 0) true) tank)
           fresh);
    reflexivity.
Defined.

(** A path of two squares. *)
Lemma UpdatePath_deposits_witness :
  Z.of_nat (length (fine_squares 1 (holding two_squares))) < UINT_MOD
  /\ UpdatePath unit1 1 (holding two_squares)
     = (tt, add_trace [CallUpdateHeatValue 2 2 10 unit1;
                       CallUpdateHeatValue 3 3 5 unit1]
              (holding two_squares)).
Proof.
  split; [reflexivity|].
  rewrite (UpdatePath_deposits unit1 1 (holding two_squares)); reflexivity.
Defined.

(** A record of [unit1] that needs both refinements. *)
Lemma NextWayPoint_fine_search_bracketed_witness :
  GetMultiPath 1 (holding long_way) = Some long_way
  /\ caller long_way = Some unit1
  /\ exists evs,
       trace (snd (NextWayPoint (engines := success) 1 (vec 8 0 8) (fl 1) 0
                     (Some unit2) true (holding long_way)))
       = trace (holding long_way) ++ evs
       /\ bracketed is_fine_search unit1 evs = true.
Proof.
  assert (H1 : GetMultiPath 1 (holding long_way) = Some long_way)
    by (vm_compute; reflexivity).
  assert (H2 : caller long_way = Some unit1) by reflexivity.
  split; [exact H1|]. split; [exact H2|].
  exact (proj1 (NextWayPoint_fine_search_bracketed (engines := success) 1
                  (vec 8 0 8) (fl 1) 0 (Some unit2) true (holding long_way)
                  long_way unit1 H1 H2)).
Defined.

(** ** Where the claims fail *)

(** C1, as stated, fails: a request whose outcome is [GoalOutOfRange], which
    is not [Ok], is stored with three empty tiers when the searches leave
    them empty. *)
Lemma RequestPath_GoalOutOfRange_stored_empty :
  let r := RequestPath (engines := out_of_range) tank (vec 8 0 8) (vec 100 0 100)
             (fl 0) None true fresh in
  fst r = 1
  /\ option_map (fun record =>
                   (searchResult record,
                    IPath.path (maxResPath record),
                    IPath.path (medResPath record),
                    IPath.path (lowResPath record)))
       (GetMultiPath 1 (snd r))
     = Some (IPath.GoalOutOfRange, [], [], []).
Proof. vm_compute. split; reflexivity. Qed.

(** C2, as stated, fails: with the counter at [2^32 - 1] a request whose
    outcome is [Ok] returns handle 0, the "no path" handle, and its record
    is stored under 0. *)
Lemma RequestPath_handle_zero_on_wrap :
  let r := RequestPath_pfDef (engines := success) tank (vec 8 0 8) (vec 100 0 100)
             (mkGoal (vec 100 0 100) (fl 0) true) None true worn in
  RequestPath_outcome (engines := success) tank (vec 8 0 8) (vec 100 0 100)
    (mkGoal (vec 100 0 100) (fl 0) true) None true worn = IPath.Ok
  /\ fst r = 0
  /\ option_map searchResult (GetMultiPath 0 (snd r)) = Some IPath.Ok.
Proof. vm_compute. repeat split; reflexivity. Qed.

(** The counter value of [worn] is reached: it is the counter after
    [2^32 - 1] records have been stored. *)
Lemma Store_iter_counter (p : @MultiPath Goal) (n : N) (st : @State Goal) :
  0 <= nextPathID st < UINT_MOD ->
  nextPathID (N.iter n (fun s => snd (Store p s)) st)
  = wrap_uint (nextPathID st + Z.of_N n).
Proof.
  intros Hc. induction n as [|n IH] using N.peano_ind.
  - simpl. rewrite Z.add_0_r. unfold wrap_uint. now rewrite Z.mod_small.
  - rewrite N.iter_succ. unfold Store at 1. cbn [snd nextPathID].
    rewrite IH. unfold wrap_uint.
    rewrite N2Z.inj_succ, Zplus_mod_idemp_l. f_equal. lia.
Qed.

Lemma worn_counter_reached (p : @MultiPath Goal) :
  nextPathID (N.iter (2 ^ 32 - 1) (fun s => snd (Store p s)) fresh)
  = nextPathID worn.
Proof.
  rewrite Store_iter_counter by (vm_compute; split; [discriminate|reflexivity]).
  reflexivity.
Qed.

(** C3, as stated, fails: with the counter at [2^32 - 1], [Store] issues 0
    and not the counter plus one, and two successful requests in sequence
    yield the handles 0 and 1, of which one is 0 and the other is the handle
    of a record that is still in the registry. *)
Lemma Store_reuses_handle_after_wrap :
  let st := worn_holding long_way in
  let request :=
    DoRequestPath tank (vec 8 0 8) (vec 100 0 100) (fl 0) None true in
  fst (Store long_way st) = 0
  /\ fst (Store long_way st) <> nextPathID st + 1
  /\ fst (do_ops (engines := success) [request; request] st) = [0; 1]
  /\ GetMultiPath 1 st = Some long_way.
Proof. vm_compute. repeat split; try reflexivity. discriminate. Qed.

(** C6, as stated, fails: on a path of two squares an owner that produces
    10 units of heat deposits 10 and 5, that is 15. *)
Lemma UpdatePath_total_exceeds_heatProduced :
  let st' := snd (UpdatePath unit1 1 (holding two_squares)) in
  heatProduced (ownerMoveDef unit1) = fl 10
  /\ map heat_value (trace st') = [10; 5]
  /\ heat_total (trace st') = 15.
Proof. vm_compute. repeat split; reflexivity. Qed.

(** C8, as stated, fails: the refinement of [long_way] runs the estimator
    search of [LowRes2MedRes] first and unblocks the caller only after it, so
    not every refinement search lies within the bracket. *)
Lemma NextWayPoint_estimator_search_outside_bracket :
  let st' := snd (NextWayPoint (engines := success) 1 (vec 8 0 8) (fl 1) 0
                    (Some unit2) true (holding long_way)) in
  map (fun e => (is_search e, is_fine_search e)) (trace st')
  = [(true, false); (false, false); (true, true); (false, false)]
  /\ nth_error (trace st') 1 = Some (CallUnBlock unit1)
  /\ nth_error (trace st') 3 = Some (CallBlock unit1)
  /\ bracketed is_search unit1 (trace st') = false.
Proof. vm_compute. repeat split; reflexivity. Qed.

(** ** More of the properties in the concrete world *)

Lemma no_error_records_fresh : no_error_records fresh.
Proof.
  intros id mp H. unfold fresh, CPathManager_new in H. simpl in H.
  rewrite lookup_empty in H. discriminate.
Qed.

(** A request on a fresh manager, deleted again. *)
Lemma RequestPath_then_DeletePath_witness :
  registry_ok fresh
  /\ nextPathID fresh < UINT_MOD - 1
  /\ pathMap
       (snd (DeletePath
               (fst (RequestPath_pfDef (engines := success) tank (vec 8 0 8)
                       (vec 100 0 100) (mkGoal (vec 100 0 100) (fl 0) true)
                       None true fresh))
               (snd (RequestPath_pfDef (engines := success) tank (vec 8 0 8)
                       (vec 100 0 100) (mkGoal (vec 100 0 100) (fl 0) true)
                       None true fresh))))
     = pathMap fresh.
Proof.
  assert (H : nextPathID fresh < UINT_MOD - 1) by reflexivity.
  split; [exact registry_ok_fresh|]. split; [exact H|].
  exact (proj1 (RequestPath_then_DeletePath (engines := success) tank
                  (vec 8 0 8) (vec 100 0 100)
                  (mkGoal (vec 100 0 100) (fl 0) true) None true fresh
                  registry_ok_fresh H)).
Defined.

(** A record with nothing left: the final goal, on the ground. *)
Lemma NextWayPoint_exhausted_witness :
  (1 <> 0 /\ 0 <= 4 /\ GetMultiPath 1 (holding used_up) = Some used_up)
  /\ NextWayPoint (engines := success) 1 (vec 8 0 8) (fl 1) 0 None true
       (holding used_up)
     = (if IPath.eqb (searchResult used_up) IPath.Ok
        then ground (finalGoal used_up) else noPathPoint, holding used_up).
Proof.
  assert (H1 : 1 <> 0) by discriminate.
  assert (H2 : 0 <= 4) by discriminate.
  assert (H3 : GetMultiPath 1 (holding used_up) = Some used_up) by reflexivity.
  split; [split; [exact H1|split; [exact H2|exact H3]]|].
  exact (NextWayPoint_exhausted (engines := success) 1 (vec 8 0 8) (fl 1) 0
           None true (holding used_up) used_up H1 H2 H3 eq_refl eq_refl
           eq_refl).
Defined.

(** A record with two squares in its fine tier and nothing else. *)
Lemma NextWayPoint_without_medium_tier_witness :
  (1 <> 0 /\ 0 <= 4 /\ GetMultiPath 1 (holding two_squares) = Some two_squares
   /\ IPath.path (medResPath two_squares) = [])
  /\ suffix
       (snd (NextWayPoint_loop two_squares
               (effective_callerPos two_squares (vec 8 0 8)) (fl 1)
               (IPath.path (maxResPath two_squares))))
       (IPath.path (maxResPath two_squares)).
Proof.
  assert (H1 : 1 <> 0) by discriminate.
  assert (H2 : 0 <= 4) by discriminate.
  assert (H3 : GetMultiPath 1 (holding two_squares) = Some two_squares)
    by reflexivity.
  split; [split; [exact H1|split; [exact H2|split; [exact H3|reflexivity]]]|].
  exact (proj1 (proj2 (proj2
           (NextWayPoint_without_medium_tier (engines := success) 1 (vec 8 0 8)
              (fl 1) 0 None true (holding two_squares) two_squares H1 H2 H3
              eq_refl)))).
Defined.

(** A request 10 squares from its goal lies in the short band. *)
Lemma RequestPath_short_band_witness :
  Float.ltb
    (goalDist2D (mkGoal (vec 80 0 0) (fl 0) true) (vec 0 0 0) (vec 80 0 0))
    DETAILED_DISTANCE = true
  /\ peDef
       (snd (fst (RequestPath_search (engines := stuck) tank (vec 0 0 0)
                    (vec 80 0 0) None true
                    (new_MultiPath (engines := stuck) (vec 0 0 0)
                       (mkGoal (vec 80 0 0) (fl 0) true) tank)
                    fresh)))
     = mkGoal (vec 80 0 0) (fl 0) true.
Proof.
  assert (H : Float.ltb
                (goalDist2D (mkGoal (vec 80 0 0) (fl 0) true) (vec 0 0 0)
                   (vec 80 0 0))
                DETAILED_DISTANCE = true) by (vm_compute; reflexivity).
  split; [exact H|].
  exact (proj1 (proj2 (proj2
           (RequestPath_short_band (engines := stuck) tank (vec 0 0 0)
              (vec 80 0 0) None true
              (new_MultiPath (engines := stuck) (vec 0 0 0)
                 (mkGoal (vec 80 0 0) (fl 0) true) tank)
              fresh H)))).
Defined.

(** A request 100 squares from its goal lies in the long band. *)
Lemma RequestPath_long_band_witness :
  (Float.ltb
     (goalDist2D (mkGoal (vec 800 0 0) (fl 0) true) (vec 0 0 0) (vec 800 0 0))
     DETAILED_DISTANCE = false
   /\ Float.ltb
        (goalDist2D (mkGoal (vec 800 0 0) (fl 0) true) (vec 0 0 0)
           (vec 800 0 0))
        ESTIMATE_DISTANCE = false)
  /\ peDef
       (snd (fst (RequestPath_search (engines := stuck) tank (vec 0 0 0)
                    (vec 800 0 0) None true
                    (new_MultiPath (engines := stuck) (vec 0 0 0)
                       (mkGoal (vec 800 0 0) (fl 0) true) tank)
                    fresh)))
     = DisableConstraint true (mkGoal (vec 800 0 0) (fl 0) true).
Proof.
  assert (H1 : Float.ltb
                 (goalDist2D (mkGoal (vec 800 0 0) (fl 0) true) (vec 0 0 0)
                    (vec 800 0 0))
                 DETAILED_DISTANCE = false) by (vm_compute; reflexivity).
  assert (H2 : Float.ltb
                 (goalDist2D (mkGoal (vec 800 0 0) (fl 0) true) (vec 0 0 0)
                    (vec 800 0 0))
                 ESTIMATE_DISTANCE = false) by (vm_compute; reflexivity).
  split; [split; [exact H1|exact H2]|].
  exact (proj1 (proj2 (proj2
           (RequestPath_long_band (engines := stuck) tank (vec 0 0 0)
              (vec 800 0 0) None true
              (new_MultiPath (engines := stuck) (vec 0 0 0)
                 (mkGoal (vec 800 0 0) (fl 0) true) tank)
              fresh H1 H2)))).
Defined.

(** A record with one, two and two waypoints in its tiers. *)
Lemma GetPathWayPoints_tiers_witness :
  (GetMultiPath 1 (holding long_way) = Some long_way
   /\ Vec.size (IPath.path (maxResPath long_way))
      + Vec.size (IPath.path (medResPath long_way)) < 2 ^ 31)
  /\ Vec.begin_to_end (snd (GetPathWayPoints 1 (holding long_way)))
     = [0; Vec.size (IPath.path (maxResPath long_way));
        Vec.size (IPath.path (maxResPath long_way))
        + Vec.size (IPath.path (medResPath long_way))].
Proof.
  assert (H1 : GetMultiPath 1 (holding long_way) = Some long_way)
    by reflexivity.
  assert (H2 : Vec.size (IPath.path (maxResPath long_way))
               + Vec.size (IPath.path (medResPath long_way)) < 2 ^ 31)
    by reflexivity.
  split; [split; [exact H1|exact H2]|].
  exact (proj2 (GetPathWayPoints_tiers 1 (holding long_way) long_way H1 H2)).
Defined.

(** A successful request on a fresh manager: the record under handle 1. *)
Lemma RequestPath_stored_record_witness :
  RequestPath_outcome (engines := success) tank (vec 8 0 8) (vec 100 0 100)
    (mkGoal (vec 100 0 100) (fl 0) true) None true fresh <> IPath.Error
  /\ exists mp,
       GetMultiPath
         (fst (RequestPath_pfDef (engines := success) tank (vec 8 0 8)
                 (vec 100 0 100) (mkGoal (vec 100 0 100) (fl 0) true) None true
                 fresh))
         (snd (RequestPath_pfDef (engines := success) tank (vec 8 0 8)
                 (vec 100 0 100) (mkGoal (vec 100 0 100) (fl 0) true) None true
                 fresh))
       = Some mp
       /\ start mp = vec 8 0 8
       /\ finalGoal mp = vec 100 0 100.
Proof.
  assert (H : RequestPath_outcome (engines := success) tank (vec 8 0 8)
                (vec 100 0 100) (mkGoal (vec 100 0 100) (fl 0) true) None true
                fresh <> IPath.Error) by (vm_compute; discriminate).
  split; [exact H|].
  destruct (RequestPath_stored_record (engines := success) tank (vec 8 0 8)
              (vec 100 0 100) (mkGoal (vec 100 0 100) (fl 0) true) None true
              fresh H) as (mp & H1 & H2 & H3 & _).
  exists mp. split; [exact H1|]. split; [exact H2|exact H3].
Defined.

(** A request that fails, one that succeeds, a waypoint and a deletion. *)
Lemma no_error_records_preserved_witness :
  no_error_records fresh
  /\ no_error_records
       (snd (do_ops (engines := success)
               [DoRequestPath tank (vec 8 0 8) (vec 100 0 100) (fl 0) None true;
                DoNextWayPoint 1 (vec 8 0 8) (fl 1) 0 None true;
                DoDeletePath 1]
               fresh)).
Proof.
  split; [exact no_error_records_fresh|].
  exact (proj1 (no_error_records_preserved (engines := success)
                  [DoRequestPath tank (vec 8 0 8) (vec 100 0 100) (fl 0) None
                     true;
                   DoNextWayPoint 1 (vec 8 0 8) (fl 1) 0 None true;
                   DoDeletePath 1]
                  fresh no_error_records_fresh)).
Defined.

End Examples.

(** * The sync checker on eight bytes *)

Section SyncCheckerExamples.

Import SyncChecker.

Lemma Sync_in_bounds_witness :
  (0 <= 8 < 2 ^ 32 /\ 8 <= Z.of_nat (length eight)
   /\ (Z.to_nat 8 <= 8)%nat)
  /\ exists g',
       Sync 8 LittleEndian eight 8 (NewFrame 0) = Some g'
       /\ (0 <= NewFrame 0 < 2 ^ 32 -> 0 <= g' < 2 ^ 32).
Proof.
  assert (H1 : 0 <= 8 < 2 ^ 32) by (split; [discriminate|reflexivity]).
  assert (H2 : 8 <= Z.of_nat (length eight)) by discriminate.
  assert (H3 : (Z.to_nat 8 <= 8)%nat) by (vm_compute; lia).
  split; [split; [exact H1|split; [exact H2|exact H3]]|].
  exact (Sync_in_bounds 8 LittleEndian eight 8 (NewFrame 0) H1 H2 H3).
Defined.

Lemma Sync_default_closed_form_witness :
  (0 <= 8 < 2 ^ 32 /\ (8 <> 1 /\ 8 <> 2 /\ 8 <> 4)
   /\ 8 <= Z.of_nat (length eight) /\ (Z.to_nat 8 <= 8)%nat)
  /\ Sync 8 LittleEndian eight 8 (NewFrame 0)
     = Some (byte_rounds (default 0 (load LittleEndian 1 eight)) 8
               (word_rounds (default 0 (load LittleEndian 4 eight)) 8
                  (NewFrame 0))).
Proof.
  assert (H1 : 0 <= 8 < 2 ^ 32) by (split; [discriminate|reflexivity]).
  assert (H2 : 8 <> 1 /\ 8 <> 2 /\ 8 <> 4) by (repeat split; discriminate).
  assert (H3 : 8 <= Z.of_nat (length eight)) by discriminate.
  assert (H4 : (Z.to_nat 8 <= 8)%nat) by (vm_compute; lia).
  split; [split; [exact H1|split; [exact H2|split; [exact H3|exact H4]]]|].
  exact (Sync_default_closed_form 8 LittleEndian eight 8 (NewFrame 0) H1 H2 H3
           H4).
Defined.

Lemma Sync_reads_four_bytes_witness :
  take 4 eight = take 4 eight'
  /\ eight <> eight'
  /\ Sync 8 LittleEndian eight 8 (NewFrame 0)
     = Sync 8 LittleEndian eight' 8 (NewFrame 0).
Proof.
  split; [reflexivity|]. split; [discriminate|].
  exact (Sync_reads_four_bytes 8 LittleEndian eight eight' 8 (NewFrame 0)
           eq_refl).
Defined.

End SyncCheckerExamples.
